(** * Tetonor solver: candidate extraction, combination search, grid assignment

    A shallow embedding of [TetonorSolver] (the backtracking version of
    [js/solver.js]) and the properties of its natural-language specification.

    Conventions of the embedding.
    - Grid numbers, strip numbers and the attempt budget are JS numbers that
      hold integers (of a size that doubles represent exactly, with room for
      their square roots to round correctly: below 2^52); they are modelled
      as [Z].  [Math.sqrt(n)] is only ever compared with an integer loop
      counter, so it is modelled by the integer square root; for [n < 0] the
      JS value is [NaN], every comparison with it is false, and
      [Z.sqrt n = 0] gives the same (empty) loop.
    - A strip slot is [option Z]: [None] is JS [null].
    - Cell indices are [nat].
    - [pairMap] is a JS [Map]: insertion ordered, keyed by the template string
      [`${a},${b}`], which determines the two integers; the key is modelled
      by the pair [(a, b)] itself and the map by an association list whose
      order is the insertion order.
    - [usedIndices] is a JS [Set] of indices: a [gset nat].
    - [currentCounts] is a JS [Map] from numbers to counts: a [gmap Z nat].

    The development goes on to the helpers of the exploratory script, the
    puzzle generator ([js/generator.js]), the version of the solver before
    the backtracking search, and the validator ([js/validator.js]), and
    relates them to the solver. *)

From Stdlib Require Import ZArith Lia.
From stdpp Require Import base decidable option list sorting gmap sets.

Local Open Scope Z_scope.

(** ** Data model *)

(** [{ value, index }]: a grid cell as recorded inside a use. *)
Record Cell := mkCell { c_value : Z; c_index : nat }.

(** [{ mult: {value, index}, add: {value, index} }]. *)
Record Use := mkUse { u_mult : Cell; u_add : Cell }.

(** [{ pair: [a, b], uses: [...] }]. *)
Record CandidatePair := mkCandidate { p_pair : Z * Z; p_uses : list Use }.

(** The operator of a grid equation: ['+'] or the multiplication sign. *)
Inductive Op := Plus | Times.

(** [{ num1, op, num2 }]. *)
Record Equation := mkEquation { num1 : Z; op : Op; num2 : Z }.

(** A grid under construction: [None] is a cell that still holds [null]. *)
Abbreviation GridAssignment := (list (option Equation)).

(** The object built at a successful depth-8 node,
    [{ pairs: currentCombo, strip, grid: assignment, tested }].  The [pairs]
    field aliases the array that the callers keep popping, and [solve] never
    reads it; it is left out. *)
Record Found := mkFound
  { f_strip : list Z; f_grid : GridAssignment; f_tested : Z }.

(** What [solve] returns when it does not return [null]. *)
Record Solution := mkSolution { strip : list Z; grid : GridAssignment }.

(** The two variables that [backtrack] closes over and mutates. *)
Record SearchState := mkState { tested : Z; solution : option Found }.

#[global] Instance Cell_eq_dec : EqDecision Cell.
Proof. solve_decision. Defined.
#[global] Instance Use_eq_dec : EqDecision Use.
Proof. solve_decision. Defined.
#[global] Instance Op_eq_dec : EqDecision Op.
Proof. solve_decision. Defined.
#[global] Instance Equation_eq_dec : EqDecision Equation.
Proof. solve_decision. Defined.

(** ** Candidate extractor *)

(** The values of a loop counter [for (let i = 1; i <= Math.sqrt(n); i++)]. *)
Definition divisorCandidates (n : Z) : list Z :=
  Z.of_nat <$> seq 1 (Z.to_nat (Z.sqrt n)).

(** One iteration of the loop of [getDivisorPairs]: when [n % i === 0] the
    two-element array [[i, n / i]] is sorted ascending and pushed. *)
Definition divisorStep (n : Z) (pairs : list (Z * Z)) (i : Z) : list (Z * Z) :=
  if Z.rem n i =? 0
  then pairs ++ [(Z.min i (n ÷ i), Z.max i (n ÷ i))]
  else pairs.

Definition getDivisorPairs (n : Z) : list (Z * Z) :=
  foldl (divisorStep n) [] (divisorCandidates n).

(** [if (!pairMap.has(key)) pairMap.set(key, {pair, uses: []});
     pairMap.get(key).uses.push(use)] on the insertion-ordered map. *)
Fixpoint recordUse (key : Z * Z) (use : Use) (pairMap : list CandidatePair)
  : list CandidatePair :=
  match pairMap with
  | [] => [mkCandidate key [use]]
  | c :: rest =>
      if decide (p_pair c = key)
      then mkCandidate (p_pair c) (p_uses c ++ [use]) :: rest
      else c :: recordUse key use rest
  end.

(** An array together with its indices, as a [for] loop over
    [0 .. length - 1] sees it. *)
Definition indexed {A} (l : list A) : list (nat * A) := imap (λ i x, (i, x)) l.

(** Body of [for (const multPair of multPairs)]. *)
Definition pairStep (i : nat) (multNum : Z) (j : nat) (addNum : Z)
    (pairMap : list CandidatePair) (multPair : Z * Z) : list CandidatePair :=
  let '(a, b) := multPair in
  if a + b =? addNum
  then recordUse (a, b) (mkUse (mkCell multNum i) (mkCell addNum j)) pairMap
  else pairMap.

(** Body of [for (let j = 0; ...)]. *)
Definition addStep (i : nat) (multNum : Z) (multPairs : list (Z * Z))
    (pairMap : list CandidatePair) (cell : nat * Z) : list CandidatePair :=
  let '(j, addNum) := cell in
  if decide (i = j) then pairMap
  else foldl (pairStep i multNum j addNum) pairMap multPairs.

(** Body of [for (let i = 0; ...)]. *)
Definition multStep (gridNumbers : list Z)
    (pairMap : list CandidatePair) (cell : nat * Z) : list CandidatePair :=
  let '(i, multNum) := cell in
  let multPairs := getDivisorPairs multNum in
  foldl (addStep i multNum multPairs) pairMap (indexed gridNumbers).

Definition findConsistentPairs (gridNumbers : list Z) : list CandidatePair :=
  foldl (multStep gridNumbers) [] (indexed gridNumbers).

(** ** Strip utilities *)

(** [numbers.sort((a, b) => a - b)]: numeric ascending sort. *)
Definition sortNumbers (numbers : list Z) : list Z := merge_sort Z.le numbers.

Definition buildStripFromPairs (pairs : list CandidatePair) : list Z :=
  sortNumbers (foldl (λ numbers p, numbers ++ [(p_pair p).1; (p_pair p).2]) [] pairs).

(** The loop of [matchesKnownValues] over the two arrays side by side (they
    have the same length when it runs). *)
Fixpoint knownValuesAgree (strip : list Z) (knownStrip : list (option Z)) : bool :=
  match strip, knownStrip with
  | x :: strip', k :: knownStrip' =>
      match k with
      | Some v => if v =? x then knownValuesAgree strip' knownStrip' else false
      | None => knownValuesAgree strip' knownStrip'
      end
  | _, _ => true
  end.

Definition matchesKnownValues (strip : list Z) (knownStrip : list (option Z)) : bool :=
  if decide (length strip ≠ length knownStrip) then false
  else knownValuesAgree strip knownStrip.

(** ** Grid assignment *)

(** [grid[i] === null]: the cell exists and holds [null]. *)
Definition isNull (grid : GridAssignment) (i : nat) : bool :=
  bool_decide (grid !! i = Some None).

(** [nextGrid = [...grid]; nextGrid[add] = {a '+' b}; nextGrid[mult] = {a 'x' b}]. *)
Definition place (a b : Z) (use : Use) (grid : GridAssignment) : GridAssignment :=
  <[c_index (u_mult use) := Some (mkEquation a Times b)]>
    (<[c_index (u_add use) := Some (mkEquation a Plus b)]> grid).

Definition usable (grid : GridAssignment) (use : Use) : bool :=
  isNull grid (c_index (u_add use)) && isNull grid (c_index (u_mult use))
  && bool_decide (c_index (u_add use) ≠ c_index (u_mult use)).

(** The [for (const use of p.uses)] loop of [findGridAssignment]; [next] is
    the recursive call [findGridAssignment(pairs, nextGrid, pairIdx + 1)]. *)
Fixpoint tryUses (next : GridAssignment → option GridAssignment) (a b : Z)
    (grid : GridAssignment) (us : list Use) : option GridAssignment :=
  match us with
  | [] => None
  | use :: us' =>
      if usable grid use
      then match next (place a b use grid) with
           | Some result => Some result
           | None => tryUses next a b grid us'
           end
      else tryUses next a b grid us'
  end.

(** [findGridAssignment(pairs, grid, pairIdx)] on the pairs from [pairIdx]
    on. *)
Fixpoint findGridAssignment (pairs : list CandidatePair) (grid : GridAssignment)
  : option GridAssignment :=
  match pairs with
  | [] => Some grid
  | p :: pairs' =>
      let '(a, b) := p_pair p in
      tryUses (findGridAssignment pairs') a b grid (p_uses p)
  end.

(** ** Combination search *)

(** [u => !usedIndices.has(u.add.index) && !usedIndices.has(u.mult.index)]. *)
Definition unclaimed (usedIndices : gset nat) (u : Use) : bool :=
  bool_decide (c_index (u_add u) ∉ usedIndices)
  && bool_decide (c_index (u_mult u) ∉ usedIndices).

(** [p.uses.find(...)]. *)
Definition availableUse (p : CandidatePair) (usedIndices : gset nat) : option Use :=
  find (unclaimed usedIndices) (p_uses p).

(** [m.set(k, (m.get(k) || 0) + 1)]. *)
Definition bump (k : Z) (m : gmap Z nat) : gmap Z nat :=
  <[k := S (default 0%nat (m !! k))]> m.

(** [knownCounts]: computed by [findOptimalCombination], never read. *)
Definition knownCounts (stripValues : list (option Z)) : gmap Z nat :=
  foldl (λ m v, match v with Some x => bump x m | None => m end) ∅ stripValues.

Section Search.
Variable stripValues : list (option Z).
Variable maxAttempts : Z.

(** [solution || tested > maxAttempts]. *)
Definition stopped (st : SearchState) : bool :=
  bool_decide (is_Some (solution st)) || (maxAttempts <? tested st).

(** The depth-8 branch of [backtrack]. *)
Definition evaluate (currentCombo : list CandidatePair) (st : SearchState)
  : SearchState :=
  let tested' := tested st + 1 in
  let strip := buildStripFromPairs currentCombo in
  if matchesKnownValues strip stripValues then
    match findGridAssignment currentCombo (replicate 16 None) with
    | Some assignment =>
        mkState tested' (Some (mkFound strip assignment tested'))
    | None => mkState tested' (solution st)
    end
  else mkState tested' (solution st).

(** [backtrack], with its [for] loop passed as [loop]. *)
Definition backtrackWith
    (loop : list CandidatePair → gset nat → gmap Z nat → SearchState → SearchState)
    (currentCombo : list CandidatePair) (usedIndices : gset nat)
    (currentCounts : gmap Z nat) (st : SearchState) : SearchState :=
  if stopped st then st
  else if decide (length currentCombo = 8%nat) then evaluate currentCombo st
  else loop currentCombo usedIndices currentCounts st.

(** The [for (let i = pairIdx; i < allPairs.length; i++)] loop of
    [backtrack]; [rest] is [allPairs] from the cursor [i] on, so that the
    recursive call [backtrack(i + 1, ...)] runs on the tail. *)
Fixpoint searchLoop (rest : list CandidatePair)
    (currentCombo : list CandidatePair) (usedIndices : gset nat)
    (currentCounts : gmap Z nat) (st : SearchState) : SearchState :=
  match rest with
  | [] => st
  | p :: rest' =>
      if bool_decide (is_Some (solution st)) then st
      else
        let '(a, b) := p_pair p in
        let st' :=
          match availableUse p usedIndices with
          | Some use =>
              let nextUsed :=
                {[c_index (u_mult use)]} ∪ ({[c_index (u_add use)]} ∪ usedIndices) in
              let nextCounts := bump b (bump a currentCounts) in
              backtrackWith (searchLoop rest') (currentCombo ++ [p])
                nextUsed nextCounts st
          | None => st
          end in
        searchLoop rest' currentCombo usedIndices currentCounts st'
  end.

(** [backtrack(pairIdx, currentCombo, usedIndices, currentCounts)] as a
    transformer of the closed-over state. *)
Definition backtrack (allPairs : list CandidatePair) (pairIdx : nat)
    (currentCombo : list CandidatePair) (usedIndices : gset nat)
    (currentCounts : gmap Z nat) (st : SearchState) : SearchState :=
  backtrackWith (searchLoop (drop pairIdx allPairs))
    currentCombo usedIndices currentCounts st.

(** The state in which [findOptimalCombination] leaves [tested] and
    [solution] after [backtrack(0, [], new Set(), new Map())]. *)
Definition searchFrom (allPairs : list CandidatePair) : SearchState :=
  backtrack allPairs 0 [] ∅ ∅ (mkState 0 None).

Definition findOptimalCombination (allPairs : list CandidatePair) : option Found :=
  solution (searchFrom allPairs).
End Search.

(** ** The entry point *)

Definition solve (gridNumbers : list Z) (stripValues : list (option Z))
    (maxAttempts : Z) : option Solution :=
  let allPairs := findConsistentPairs gridNumbers in
  match findOptimalCombination stripValues maxAttempts allPairs with
  | Some found => Some (mkSolution (f_strip found) (f_grid found))
  | None => None
  end.

(** The final search state of a call of [solve]. *)
Definition solveState (gridNumbers : list Z) (stripValues : list (option Z))
    (maxAttempts : Z) : SearchState :=
  searchFrom stripValues maxAttempts (findConsistentPairs gridNumbers).

(** * Vocabulary of the specification *)

(** ** Candidate extractor *)

(** A use recorded under [key] points at two different cells of the grid
    that hold the product and the sum of [key]. *)
Definition soundUse (gridNumbers : list Z) (key : Z * Z) (u : Use) : Prop :=
  c_index (u_add u) ≠ c_index (u_mult u) ∧
  gridNumbers !! c_index (u_mult u) = Some (key.1 * key.2) ∧
  gridNumbers !! c_index (u_add u) = Some (key.1 + key.2) ∧
  c_value (u_mult u) = key.1 * key.2 ∧
  c_value (u_add u) = key.1 + key.2.

Definition soundCandidate (gridNumbers : list Z) (c : CandidatePair) : Prop :=
  1 ≤ (p_pair c).1 ≤ (p_pair c).2 ∧ Forall (soundUse gridNumbers (p_pair c)) (p_uses c).

(** The entry of [key] holds a use with multiplication cell [i] and
    addition cell [j]. *)
Definition hasUse (key : Z * Z) (i j : nat) (pairMap : list CandidatePair) : Prop :=
  ∃ c u, c ∈ pairMap ∧ p_pair c = key ∧ u ∈ p_uses c ∧
         c_index (u_mult u) = i ∧ c_index (u_add u) = j.

(** The invariant of the three nested loops of [findConsistentPairs]. *)
Definition extractorInv (gridNumbers : list Z) (pairMap : list CandidatePair) : Prop :=
  Forall (soundCandidate gridNumbers) pairMap ∧ NoDup (p_pair <$> pairMap).

(** ** Strip and grid *)

(** The 16 numbers of a combination in selection order. *)
Definition numbersOf (pairs : list CandidatePair) : list Z :=
  pairs ≫= λ p, [(p_pair p).1; (p_pair p).2].

(** The grid cells named by a list of uses, addition cell first. *)
Definition cellsOf (us : list Use) : list nat :=
  us ≫= λ u, [c_index (u_add u); c_index (u_mult u)].

(** The grid values that the pairs of a combination have to find in the
    grid: for each pair its sum, then its product. *)
Definition valuesOf (pairs : list CandidatePair) : list Z :=
  pairs ≫= λ p, [(p_pair p).1 + (p_pair p).2; (p_pair p).1 * (p_pair p).2].

(** The cells among [cells] that hold the grid number [v]. *)
Definition cellsHolding (g : list Z) (v : Z) (cells : list nat) : list nat :=
  filter (λ i, g !! i = Some v) cells.

(** [assignedBy pairs us grid result]: [result] is [grid] after each pair
    was placed, in order, on the use chosen for it in [us], every use being
    usable when it was taken. *)
Inductive assignedBy :
  list CandidatePair → list Use → GridAssignment → GridAssignment → Prop :=
| assignedBy_nil grid : assignedBy [] [] grid grid
| assignedBy_cons p pairs u us grid result :
    u ∈ p_uses p → usable grid u = true →
    assignedBy pairs us (place (p_pair p).1 (p_pair p).2 u grid) result →
    assignedBy (p :: pairs) (u :: us) grid result.

Definition emptyCells (grid : GridAssignment) : nat :=
  length (filter (λ c, c = None) grid).

Definition opCells (o : Op) (grid : GridAssignment) : nat :=
  length (filter (λ c, op <$> c = Some o) grid).

(** The number a grid equation evaluates to. *)
Definition evalEquation (e : Equation) : Z :=
  match op e with
  | Plus => num1 e + num2 e
  | Times => num1 e * num2 e
  end.

(** Every equation written in [grid] evaluates to the grid number of its
    cell. *)
Definition equationsHold (gridNumbers : list Z) (grid : GridAssignment) : Prop :=
  ∀ i e, grid !! i = Some (Some e) → gridNumbers !! i = Some (evalEquation e).

(** ** Search states *)

(** What is known of the object stored in [solution]. *)
Definition foundSpec (stripValues : list (option Z)) (maxAttempts : Z)
    (allPairs : list CandidatePair) (f : Found) : Prop :=
  ∃ combo, combo `sublist_of` allPairs ∧ length combo = 8%nat ∧
    f_strip f = buildStripFromPairs combo ∧
    matchesKnownValues (f_strip f) stripValues = true ∧
    findGridAssignment combo (replicate 16 None) = Some (f_grid f) ∧
    1 ≤ f_tested f ≤ maxAttempts + 1.

(** The search ended with a solution, or the budget was exceeded. *)
Definition settled (maxAttempts : Z) (st : SearchState) : Prop :=
  is_Some (solution st) ∨ maxAttempts < tested st.

(** The combination [T] of extractor candidates can be put on the uses
    [us], one per pair, with pairwise different cells. *)
Definition coverable (g : list Z) (T : list CandidatePair) (us : list Use) : Prop :=
  Forall (λ p, p ∈ findConsistentPairs g) T ∧ length T = 8%nat ∧
  Forall2 (λ p u, u ∈ p_uses p) T us ∧ NoDup (cellsOf us).

(** The run with the smaller budget was cut: it found nothing and its
    counter is past [m1]. *)
Definition cut (m1 : Z) (st : SearchState) : Prop :=
  solution st = None ∧ m1 < tested st.

(** The two runs are in step as long as the smaller budget lasts. *)
Definition inStep (m1 : Z) (st1 st2 : SearchState) : Prop := st1 = st2 ∨ cut m1 st1.

(** The full combinations that the descent of [backtrack] reaches, in the
    order in which it reaches them: the loop of [searchLoop] without the
    state.  It depends on the candidate list alone. *)
Fixpoint visitedLoop (rest : list CandidatePair) (currentCombo : list CandidatePair)
    (usedIndices : gset nat) : list (list CandidatePair) :=
  match rest with
  | [] => []
  | p :: rest' =>
      match availableUse p usedIndices with
      | Some use =>
          let nextUsed :=
            {[c_index (u_mult use)]} ∪ ({[c_index (u_add use)]} ∪ usedIndices) in
          if decide (length (currentCombo ++ [p]) = 8%nat) then [currentCombo ++ [p]]
          else visitedLoop rest' (currentCombo ++ [p]) nextUsed
      | None => []
      end ++ visitedLoop rest' currentCombo usedIndices
  end.

Definition exploration (allPairs : list CandidatePair) : list (list CandidatePair) :=
  visitedLoop allPairs [] ∅.

(** What reaching the full combination [combo] does to the search state. *)
Definition checkNext (stripValues : list (option Z)) (maxAttempts : Z)
    (st : SearchState) (combo : list CandidatePair) : SearchState :=
  if stopped maxAttempts st then st else evaluate stripValues combo st.

(** ** Verified solutions *)

(** The built strip of [sol]: the numbers of [combo] in ascending order,
    equal to the puzzle strip wherever that is known. *)
Definition stripVerified (stripValues : list (option Z)) (combo : list CandidatePair)
    (sol : Solution) : Prop :=
  length (strip sol) = 16%nat ∧ Sorted Z.le (strip sol) ∧
  strip sol ≡ₚ numbersOf combo ∧
  ∀ i v, stripValues !! i = Some (Some v) → strip sol !! i = Some v.

(** The grid of [sol]: the pairs of [combo] sit on the uses [us], whose 16
    cells are exactly the indices 0..15, each once; the addition cell of a
    use holds the pair with ['+'], its multiplication cell the pair with
    the multiplication sign. *)
Definition gridVerified (combo : list CandidatePair) (us : list Use)
    (sol : Solution) : Prop :=
  Forall2 (λ p u, u ∈ p_uses p) combo us ∧
  cellsOf us ≡ₚ seq 0 16 ∧
  length (grid sol) = 16%nat ∧
  (∀ i, (i < 16)%nat → ∃ e, grid sol !! i = Some (Some e)) ∧
  (∀ k p u, combo !! k = Some p → us !! k = Some u →
     grid sol !! c_index (u_add u)
       = Some (Some (mkEquation (p_pair p).1 Plus (p_pair p).2)) ∧
     grid sol !! c_index (u_mult u)
       = Some (Some (mkEquation (p_pair p).1 Times (p_pair p).2))) ∧
  opCells Plus (grid sol) = 8%nat ∧ opCells Times (grid sol) = 8%nat.

Definition fullyVerified (gridNumbers : list Z) (stripValues : list (option Z))
    (sol : Solution) : Prop :=
  ∃ combo us,
    combo `sublist_of` findConsistentPairs gridNumbers ∧ length combo = 8%nat ∧
    stripVerified stripValues combo sol ∧ gridVerified combo us sol.

(** ** Inputs used in examples *)

(** The constants [gridNumbers] and [stripValues] of the repository's
    solver script. *)
Definition sampleGrid : list Z :=
  [252; 260; 13; 30; 25; 144; 36; 30; 48; 21; 40; 30; 224; 56; 46; 22].
Definition sampleStrip : list (option Z) :=
  [Some 1; None; None; Some 5; Some 6; None; None; Some 10;
   None; None; Some 21; Some 23; Some 24; None; Some 28; None].

(** A puzzle built from the pairs (3,4) (4,17) (6,19) (7,8) (9,24) (10,13)
    (14,23) (14,25), product before sum; it starts with the cells 12 and 7
    of the specification's scenario.  The extractor finds exactly these
    eight pairs, each with one use. *)
Definition plainGrid : list Z :=
  [12; 7; 68; 21; 114; 25; 56; 15; 216; 33; 130; 23; 322; 37; 350; 39].
Definition plainStrip : list (option Z) :=
  [Some 3; None; Some 4; Some 6; None; Some 8; None; Some 10;
   Some 13; None; Some 14; None; Some 19; Some 23; None; Some 25].
Definition plainUses : list Use :=
  [mkUse (mkCell 12 0) (mkCell 7 1); mkUse (mkCell 68 2) (mkCell 21 3);
   mkUse (mkCell 114 4) (mkCell 25 5); mkUse (mkCell 56 6) (mkCell 15 7);
   mkUse (mkCell 216 8) (mkCell 33 9); mkUse (mkCell 130 10) (mkCell 23 11);
   mkUse (mkCell 322 12) (mkCell 37 13); mkUse (mkCell 350 14) (mkCell 39 15)].
Definition plainSolution : Solution :=
  mkSolution [3; 4; 4; 6; 7; 8; 9; 10; 13; 14; 14; 17; 19; 23; 24; 25]
    [Some (mkEquation 3 Times 4); Some (mkEquation 3 Plus 4);
     Some (mkEquation 4 Times 17); Some (mkEquation 4 Plus 17);
     Some (mkEquation 6 Times 19); Some (mkEquation 6 Plus 19);
     Some (mkEquation 7 Times 8); Some (mkEquation 7 Plus 8);
     Some (mkEquation 9 Times 24); Some (mkEquation 9 Plus 24);
     Some (mkEquation 10 Times 13); Some (mkEquation 10 Plus 13);
     Some (mkEquation 14 Times 23); Some (mkEquation 14 Plus 23);
     Some (mkEquation 14 Times 25); Some (mkEquation 14 Plus 25)].

(** A strip that no combination matches. *)
Definition zeroStrip : list (option Z) := replicate 16 (Some 0).

(** * More of the solver *)

(** ** The combination generator *)

(** [*combinations(array, n)], a generator; the list is what it yields, in
    order.  The argument [k] stands for [n = k + 1]: for [n < 1] the
    generator recurses without end.  The loop runs
    [i = 0 .. array.length - n]. *)
Fixpoint combinations {A} (k : nat) (array : list A) : list (list A) :=
  match k with
  | O => (λ item, [item]) <$> array
  | S k' =>
      seq 0 (S (length array) - S (S k')) ≫= λ i,
        match array !! i with
        | Some x => (λ combo, x :: combo) <$> combinations k' (drop (S i) array)
        | None => []
        end
  end.

(** ** The check made at a depth-8 node *)

(** The two tests that [backtrack] makes on a full combination: the built
    strip matches the known values, and a grid assignment is found. *)
Definition passes (stripValues : list (option Z)) (combo : list CandidatePair) : Prop :=
  matchesKnownValues (buildStripFromPairs combo) stripValues = true ∧
  is_Some (findGridAssignment combo (replicate 16 None)).

#[global] Instance passes_dec stripValues combo : Decision (passes stripValues combo).
Proof. unfold passes. apply _. Defined.

(** What [solve] returns for the combination it settles on. *)
Definition solutionOf (combo : list CandidatePair) : option Solution :=
  mkSolution (buildStripFromPairs combo) <$> findGridAssignment combo (replicate 16 None).

(** * The exploratory solver script *)

(** The two helpers of the script that lists, for each grid number, every
    way to write it as a product and as a sum. *)
Module Script.

(** One iteration of the loop of the script's [getDivisorPairs]: both orders
    of a divisor pair are pushed, a square root once. *)
Definition divisorStep (n : Z) (pairs : list (Z * Z)) (i : Z) : list (Z * Z) :=
  if Z.rem n i =? 0
  then (pairs ++ [(i, n ÷ i)]) ++ (if i =? n ÷ i then [] else [(n ÷ i, i)])
  else pairs.

Definition getDivisorPairs (n : Z) : list (Z * Z) :=
  foldl (divisorStep n) [] (divisorCandidates n).

(** The loop counter of [getAdditionPairs]:
    [for (let i = 1; i <= Math.min(n - 1, maxValue); i++)]. *)
Definition additionCandidates (n maxValue : Z) : list Z :=
  Z.of_nat <$> seq 1 (Z.to_nat (Z.min (n - 1) maxValue)).

Definition additionStep (n maxValue : Z) (pairs : list (Z * Z)) (i : Z)
  : list (Z * Z) :=
  let complement := n - i in
  if (1 <=? complement) && (complement <=? maxValue)
  then pairs ++ [(i, complement)]
  else pairs.

Definition getAdditionPairs (n maxValue : Z) : list (Z * Z) :=
  foldl (additionStep n maxValue) [] (additionCandidates n maxValue).

(** [maxValue = 100] when the argument is left out. *)
Definition defaultMaxValue : Z := 100.

End Script.

(** * The puzzle generator *)

(** The generator draws from [rng], a function without arguments that
    returns a number in [0, 1) and keeps its own state.  It is modelled by a
    state [R] and a step [next : R → Z * R] that returns the numerator [u] of
    the fraction [u / 2^32], with [0 <= u < 2^32]: these are the values of
    the seeded generator.  [Math.floor(rng() * k)] is then the integer
    quotient [u * k / 2^32] (exact in doubles for [k] below 2^21). *)

(** ** The seeded random number generator (Mulberry32) *)

(** [ToUint32]. *)
Definition u32 (x : Z) : Z := x mod 2 ^ 32.

(** [Math.imul(a, b)], read as an unsigned 32-bit number. *)
Definition imul (a b : Z) : Z := u32 (a * b).

(** One call of the function returned by [createSeededRNG(seed)]: the new
    value of the closed-over [seed] and the numerator of the result.
    [seed += 0x6D2B79F5] is an addition of JS numbers; the bit operations
    work on the low 32 bits. *)
Definition mulberry32 (seed : Z) : Z * Z :=
  let seed' := seed + 0x6D2B79F5 in
  let t := u32 seed' in
  let t := imul (Z.lxor t (Z.shiftr t 15)) (Z.lor t 1) in
  let t := Z.lxor t (u32 (t + imul (Z.lxor t (Z.shiftr t 7)) (Z.lor t 61))) in
  (u32 (Z.lxor t (Z.shiftr t 14)), seed').

(** ** Configurations *)

Inductive Difficulty := easy | medium | hard | otherDifficulty.

(** [revealedPercentage] is 0.6, 0.5 or 0.4; it is kept in tenths, and
    [Math.floor(length * revealedPercentage)] is [length * tenths / 10]
    rounded down (the double products round to the same integers). *)
Record Config := mkConfig
  { minNumber : Z; maxNumber : Z; pairCount : nat; revealedTenths : Z }.

(** [configs[difficulty] || configs.medium]. *)
Definition getDifficultyConfig (difficulty : Difficulty) : Config :=
  match difficulty with
  | easy => mkConfig 2 15 8 6
  | hard => mkConfig 1 50 8 4
  | medium | otherDifficulty => mkConfig 1 30 8 5
  end.

(** [{ numbers: [min, max], sum, product, uses }]. *)
Record GenPair := mkGenPair
  { gp_numbers : Z * Z; gp_sum : Z; gp_product : Z; gp_uses : Z }.

(** [{ value, operation, pair }]; the operation is ['multiply'] or ['add']. *)
Record GridItem := mkGridItem
  { gi_value : Z; gi_operation : Op; gi_pair : Z * Z }.

(** The object returned by [generate]. *)
Record Puzzle := mkPuzzle
  { pz_difficulty : Difficulty; pz_grid : list Z; pz_strip : list (option Z);
    pz_solution_strip : list Z; pz_solution_pairs : list (Z * Z) }.

(** The functions that draw from [rng], over a generator [next]. *)
Section Generator.
Context {R : Type} (next : R → Z * R).

(** [Math.floor(rng() * (max - min + 1)) + min]. *)
Definition randomInt (min max : Z) (r : R) : Z * R :=
  let '(u, r') := next r in
  (u * (max - min + 1) / 2 ^ 32 + min, r').

(** [[array[i], array[j]] = [array[j], array[i]]]; both indices are inside
    the array wherever the generator swaps ([j <= i < array.length] for a
    random number below 1). *)
Definition swap {A} (i j : nat) (array : list A) : list A :=
  match array !! i, array !! j with
  | Some x, Some y => <[j := x]> (<[i := y]> array)
  | _, _ => array
  end.

(** The loop [for (let i = array.length - 1; i > 0; i--)] of [shuffleArray]
    from [i] down. *)
Fixpoint shuffleFrom {A} (i : nat) (array : list A) (r : R) : list A * R :=
  match i with
  | O => (array, r)
  | S i' =>
      let '(u, r') := next r in
      let j := Z.to_nat (u * Z.of_nat (i + 1) / 2 ^ 32) in
      shuffleFrom i' (swap i j array) r'
  end.

Definition shuffleArray {A} (array : list A) (r : R) : list A * R :=
  shuffleFrom (length array - 1) array r.

(** The [while] loop of [generatePairs]; [fuel] is what is left of the 1000
    attempts. *)
Fixpoint generatePairsLoop (config : Config) (fuel : nat) (pairs : list GenPair)
    (usedNumbers : gset (Z * Z)) (r : R) : list GenPair * R :=
  match fuel with
  | O => (pairs, r)
  | S fuel' =>
      if decide (length pairs < pairCount config)%nat then
        let '(a, r1) := randomInt (minNumber config) (maxNumber config) r in
        let '(b, r2) := randomInt (minNumber config) (maxNumber config) r1 in
        if decide (a = b) then generatePairsLoop config fuel' pairs usedNumbers r2
        else
          let '(min, max) := if decide (a < b) then (a, b) else (b, a) in
          if decide ((min, max) ∈ usedNumbers)
          then generatePairsLoop config fuel' pairs usedNumbers r2
          else generatePairsLoop config fuel'
                 (pairs ++ [mkGenPair (min, max) (min + max) (min * max) 0])
                 ({[(min, max)]} ∪ usedNumbers) r2
      else (pairs, r)
  end.

Definition generatePairs (config : Config) (r : R) : list GenPair * R :=
  generatePairsLoop config 1000 [] ∅ r.

(** [buildStrip]: the numbers of the pairs, sorted ascending. *)
Definition buildStrip (pairs : list GenPair) : list Z :=
  sortNumbers (foldl (λ numbers pair,
                 numbers ++ [(gp_numbers pair).1; (gp_numbers pair).2]) [] pairs).

Definition gridItems (pairs : list GenPair) : list GridItem :=
  foldl (λ items pair,
           items ++ [mkGridItem (gp_product pair) Times (gp_numbers pair);
                     mkGridItem (gp_sum pair) Plus (gp_numbers pair)]) [] pairs.

Definition generateGrid (pairs : list GenPair) (r : R) : list Z * R :=
  let '(items, r') := shuffleArray (gridItems pairs) r in
  (gi_value <$> items, r').

(** [Math.floor(strip.length * config.revealedPercentage)]. *)
Definition revealCount (config : Config) (strip : list Z) : Z :=
  Z.of_nat (length strip) * revealedTenths config / 10.

(** [hideStripValues]: the positions [0 .. length - 1] are shuffled and the
    slots at the positions from [revealCount] on are set to [null]. *)
Definition hideStripValues (strip : list Z) (config : Config) (r : R)
  : list (option Z) * R :=
  let '(positions, r') := shuffleArray (seq 0 (length strip)) r in
  (foldl (λ puzzleStrip pos, <[pos := None]> puzzleStrip) (Some <$> strip)
     (drop (Z.to_nat (revealCount config strip)) positions), r').

(** [generate] with the random number generator in state [r]. *)
Definition generateWith (difficulty : Difficulty) (r : R) : Puzzle :=
  let config := getDifficultyConfig difficulty in
  let '(pairs, r1) := generatePairs config r in
  let strip := buildStrip pairs in
  let '(grid, r2) := generateGrid pairs r1 in
  let '(puzzleStrip, _) := hideStripValues strip config r2 in
  mkPuzzle difficulty grid puzzleStrip strip (gp_numbers <$> pairs).
End Generator.

(** [generate(seed, difficulty)] with a seed. *)
Definition generate (seed : Z) (difficulty : Difficulty) : Puzzle :=
  generateWith mulberry32 difficulty seed.

(** ** Vocabulary for the generator *)

(** A generated pair: two different numbers of the configured range in
    ascending order, with their sum and product. *)
Definition genPairOk (config : Config) (p : GenPair) : Prop :=
  minNumber config ≤ (gp_numbers p).1 ∧ (gp_numbers p).1 < (gp_numbers p).2 ∧
  (gp_numbers p).2 ≤ maxNumber config ∧
  gp_sum p = (gp_numbers p).1 + (gp_numbers p).2 ∧
  gp_product p = (gp_numbers p).1 * (gp_numbers p).2 ∧
  gp_uses p = 0.

(** The grid numbers of a list of pairs before shuffling: product, then
    sum. *)
Definition gridValues (numbers : list (Z * Z)) : list Z :=
  numbers ≫= λ ab, [ab.1 * ab.2; ab.1 + ab.2].

(** The candidates of the extractor whose pairs are the generated ones. *)
Definition intendedPairs (numbers : list (Z * Z)) (g : list Z) : list CandidatePair :=
  filter (λ c, p_pair c ∈ numbers) (findConsistentPairs g).

(** The use that puts a pair on the cells where the shuffle [f] put the
    product and the sum of the [k]-th generated pair. *)
Definition usePlacedAt (numbers : list (Z * Z)) (f : nat → nat)
    (c : CandidatePair) (u : Use) : Prop :=
  u ∈ p_uses c ∧
  ∃ k, numbers !! k = Some (p_pair c) ∧
       c_index (u_mult u) = f (2 * k)%nat ∧ c_index (u_add u) = f (2 * k + 1)%nat.

(** The slots of a puzzle strip that hold [null]. *)
Definition hiddenSlots (puzzleStrip : list (option Z)) : nat :=
  length (filter (λ v, v = None) puzzleStrip).

(** The numbers of a list of pairs. *)
Definition stripNumbers (numbers : list (Z * Z)) : list Z :=
  numbers ≫= λ ab, [ab.1; ab.2].

(** * Inputs for further examples *)


(** A grid without a number above 1. *)
Definition lowGrid : list Z := [0; -4; 1; 1; 0].

(** A grid of four cells: 3 * 4, 3 + 4, 4 * 5, 4 + 5. *)
Definition smallGrid : list Z := [12; 7; 20; 9].

(** The eight candidates of the sample grid that solve the sample puzzle.
    Three of them, (6,24), (14,16) and (2,28), have three recorded uses
    each, one for every cell that holds their sum 30. *)
Definition sampleCombo : list CandidatePair :=
  filter (λ c, p_pair c ∈ [(6, 42); (10, 26); (6, 24); (1, 21); (5, 8);
                            (14, 16); (2, 28); (2, 23)])
    (findConsistentPairs sampleGrid).

(** Uses that put [sampleCombo] on the 16 cells.  They are not the uses
    that are free first during the descent: (6,24) takes the sum in cell 7,
    (14,16) the one in cell 11 and (2,28) the one in cell 3. *)
Definition sampleUses : list Use :=
  [mkUse (mkCell 252 0) (mkCell 48 8); mkUse (mkCell 260 1) (mkCell 36 6);
   mkUse (mkCell 144 5) (mkCell 30 7); mkUse (mkCell 21 9) (mkCell 22 15);
   mkUse (mkCell 40 10) (mkCell 13 2); mkUse (mkCell 224 12) (mkCell 30 11);
   mkUse (mkCell 56 13) (mkCell 30 3); mkUse (mkCell 46 14) (mkCell 25 4)].

(** How many combinations of [l] get checked when the budget does not cut
    the search: up to and including the first that passes. *)
Definition checksNeeded (stripValues : list (option Z))
    (l : list (list CandidatePair)) : nat :=
  match list_find (passes stripValues) l with
  | Some (k, _) => S k
  | None => length l
  end.

(** * The solver before the backtracking search

    An earlier version of [TetonorSolver] draws the 8-element combinations
    of the candidates from the generator [combinations] and checks each with
    a greedy choice of cells.  It has [findConsistentPairs],
    [getDivisorPairs], [buildStripFromPairs], [matchesKnownValues] and
    [combinations] in common with the later version. *)
Module Earlier.

(** [{ pairs: combo, strip, tested }]. *)
Record Chosen := mkChosen
  { ch_pairs : list CandidatePair; ch_strip : list Z; ch_tested : Z }.

(** [u => !usedAddIndices.has(u.add.index) && !usedMultIndices.has(u.add.index)]. *)
Definition addFree (usedAddIndices usedMultIndices : gset nat) (u : Use) : bool :=
  bool_decide (c_index (u_add u) ∉ usedAddIndices)
  && bool_decide (c_index (u_add u) ∉ usedMultIndices).

(** [u => !usedMultIndices.has(u.mult.index) && !usedAddIndices.has(u.mult.index)]. *)
Definition multFree (usedAddIndices usedMultIndices : gset nat) (u : Use) : bool :=
  bool_decide (c_index (u_mult u) ∉ usedMultIndices)
  && bool_decide (c_index (u_mult u) ∉ usedAddIndices).

(** The loop [for (const p of pairs)] of [canAssignToGrid]; [None] is its
    [return false]. *)
Fixpoint greedyCells (pairs : list CandidatePair)
    (usedAddIndices usedMultIndices : gset nat) : option (gset nat * gset nat) :=
  match pairs with
  | [] => Some (usedAddIndices, usedMultIndices)
  | p :: pairs' =>
      match find (addFree usedAddIndices usedMultIndices) (p_uses p) with
      | None => None
      | Some addUse =>
          let usedAddIndices := {[c_index (u_add addUse)]} ∪ usedAddIndices in
          match find (multFree usedAddIndices usedMultIndices) (p_uses p) with
          | None => None
          | Some multUse =>
              greedyCells pairs' usedAddIndices
                ({[c_index (u_mult multUse)]} ∪ usedMultIndices)
          end
      end
  end.

Definition canAssignToGrid (pairs : list CandidatePair) : bool :=
  match greedyCells pairs ∅ ∅ with
  | Some (usedAddIndices, usedMultIndices) =>
      bool_decide (size usedAddIndices = 8%nat)
      && bool_decide (size usedMultIndices = 8%nat)
  | None => false
  end.

(** The loop [for (const combo of this.combinations(allPairs, 8))] of
    [findOptimalCombination] on the combinations not yet drawn; [tested] is
    the counter before the next one is drawn. *)
Fixpoint tryCombinations (stripValues : list (option Z)) (maxAttempts : Z)
    (tested : Z) (combos : list (list CandidatePair)) : option Chosen :=
  match combos with
  | [] => None
  | combo :: combos' =>
      let tested := tested + 1 in
      if decide (tested > maxAttempts) then None
      else
        let strip := buildStripFromPairs combo in
        if matchesKnownValues strip stripValues && canAssignToGrid combo
        then Some (mkChosen combo strip tested)
        else tryCombinations stripValues maxAttempts tested combos'
  end.

Definition findOptimalCombination (allPairs : list CandidatePair)
    (stripValues : list (option Z)) (maxAttempts : Z) : option Chosen :=
  tryCombinations stripValues maxAttempts 0 (combinations 7 allPairs).

(** [{ strip, grid }] with [grid] built from [Array(16).fill(null)] by
    writing cells.  A JavaScript array grows when a cell past its end is
    written, so the grid is kept as the map of the cells written; a cell
    below 16 that is not in the map holds [null]. *)
Record Result := mkResult { r_strip : list Z; r_grid : gmap nat Equation }.

(** The body of [solution.pairs.forEach(p => ...)] in [solve]. *)
Definition mapPair (st : gmap nat Equation * gset nat) (p : CandidatePair)
  : gmap nat Equation * gset nat :=
  let '(grid, filledCells) := st in
  let '(a, b) := p_pair p in
  let '(grid, filledCells) :=
    match find (λ u, bool_decide (c_index (u_add u) ∉ filledCells)) (p_uses p) with
    | Some addUse =>
        (<[c_index (u_add addUse) := mkEquation a Plus b]> grid,
         {[c_index (u_add addUse)]} ∪ filledCells)
    | None => (grid, filledCells)
    end in
  match find (λ u, bool_decide (c_index (u_mult u) ∉ filledCells)) (p_uses p) with
  | Some multUse =>
      (<[c_index (u_mult multUse) := mkEquation a Times b]> grid,
       {[c_index (u_mult multUse)]} ∪ filledCells)
  | None => (grid, filledCells)
  end.

Definition solve (gridNumbers : list Z) (stripValues : list (option Z))
    (maxAttempts : Z) : option Result :=
  let allPairs := findConsistentPairs gridNumbers in
  match findOptimalCombination allPairs stripValues maxAttempts with
  | Some solution =>
      Some (mkResult (ch_strip solution)
              (foldl mapPair (∅, ∅) (ch_pairs solution)).1)
  | None => None
  end.

(** A combination that [findOptimalCombination] returns when it is drawn. *)
Definition accepts (stripValues : list (option Z)) (combo : list CandidatePair)
  : Prop :=
  matchesKnownValues (buildStripFromPairs combo) stripValues = true ∧
  canAssignToGrid combo = true.

#[global] Instance accepts_dec stripValues combo : Decision (accepts stripValues combo).
Proof. unfold accepts. apply _. Defined.

(** The cells that the greedy choice takes for a list of pairs: for each
    pair the addition cell, then the multiplication cell. *)
Definition pickedCells (picks : list (nat * nat)) : list nat :=
  picks ≫= λ jm, [jm.1; jm.2].

(** [picks] names, for each pair, the addition cell of one of its uses and
    the multiplication cell of one of its uses. *)
Definition pickedFrom (pairs : list CandidatePair) (picks : list (nat * nat)) : Prop :=
  Forall2 (λ p jm, (∃ u, u ∈ p_uses p ∧ c_index (u_add u) = jm.1) ∧
                   (∃ u, u ∈ p_uses p ∧ c_index (u_mult u) = jm.2)) pairs picks.
End Earlier.

(** * The validator

    [TetonorValidator.validate(puzzle, userInputs)] checks what the user has
    typed against the puzzle.  The values typed in are numbers or are
    missing: a strip input is a number, [NaN], [null] or [undefined]; the two
    numbers of a grid input are numbers or [NaN]; the operation of a grid
    input is ['+'], another non-empty string (read as the multiplication), or
    is missing.  The texts of the errors are kept as their kind and the
    values printed in them. *)
Module Validator.

Inductive Value := number (z : Z) | NaN | null | undefined.

(** [value === correctValue] for a strip input and [puzzle.solution.strip[index]],
    which is [undefined] ([None]) past the end of the solution strip. *)
Definition strictEq (finalValue : Value) (correctValue : option Z) : bool :=
  match finalValue, correctValue with
  | number a, Some b => bool_decide (a = b)
  | undefined, None => true
  | _, _ => false
  end.

(** [{ num1, op, num2 }]; [None] is [NaN] for a number and a missing
    operation for [op]. *)
Record GridInput := mkGridInput
  { in_num1 : option Z; in_op : option Op; in_num2 : option Z }.

Record UserInputs := mkUserInputs
  { stripInputs : list Value; gridInputs : list GridInput }.

Inductive Error :=
| MathIncorrect (i : nat) (num1 : Z) (op : Op) (num2 : Z) (gridValue : option Z)
| MissingInputs (i : nat)
| AddWithoutMult (pair : Z * Z)
| MultWithoutAdd (pair : Z * Z)
| OnlyPairs (found : nat)
| CountMismatch (num : Z) (count used : nat)
| NotInStrip (num : Z)
| RulesViolation.

(** [{ index, correct }]. *)
Record Feedback := mkFeedback { fb_index : nat; fb_correct : bool }.

Record Result := mkResult
  { success : bool; errors : list Error;
    stripFeedback : list Feedback; gridFeedback : list Feedback }.

(** A [Map] from numbers to counts, in insertion order. *)
Abbreviation Counts := (list (Z * nat)).

(** [counts.get(num)]. *)
Definition getCount (num : Z) (counts : Counts) : option nat :=
  snd <$> find (λ kc, bool_decide (kc.1 = num)) counts.

(** [counts.set(num, (counts.get(num) || 0) + 1)]. *)
Fixpoint bumpCount (num : Z) (counts : Counts) : Counts :=
  match counts with
  | [] => [(num, 1%nat)]
  | (k, c) :: counts' =>
      if decide (k = num) then (k, S c) :: counts'
      else (k, c) :: bumpCount num counts'
  end.

(** ** 1. The strip of the user *)

Record StripScan := mkStripScan
  { ss_success : bool; ss_feedback : list Feedback;
    ss_userStrip : list Z; ss_counts : Counts }.

(** The body of [puzzle.strip.forEach((value, index) => ...)]. *)
Definition stripStep (puzzle : Puzzle) (userInputs : UserInputs)
    (st : StripScan) (entry : nat * option Z) : StripScan :=
  let '(index, value) := entry in
  let '(finalValue, st) :=
    match value with
    | None =>
        let finalValue := default undefined (stripInputs userInputs !! index) in
        let correctValue := pz_solution_strip puzzle !! index in
        let isCorrect := strictEq finalValue correctValue in
        (finalValue,
         mkStripScan (if isCorrect then ss_success st else false)
           (ss_feedback st ++ [mkFeedback index isCorrect])
           (ss_userStrip st) (ss_counts st))
    | Some v => (number v, st)
    end in
  match finalValue with
  | number z =>
      mkStripScan (ss_success st) (ss_feedback st)
        (ss_userStrip st ++ [z]) (bumpCount z (ss_counts st))
  | _ => st
  end.

Definition scanStrip (puzzle : Puzzle) (userInputs : UserInputs) : StripScan :=
  foldl (stripStep puzzle userInputs) (mkStripScan true [] [] [])
    (indexed (pz_strip puzzle)).

(** ** 2. The equations of the grid *)

Record GridScan := mkGridScan
  { gs_errors : list Error; gs_addPairs : list (Z * Z);
    gs_multPairs : list (Z * Z); gs_feedback : list Feedback }.

(** [[num1, num2].sort((a, b) => a - b)]. *)
Definition sortPair (num1 num2 : Z) : Z * Z :=
  if decide (num1 ≤ num2) then (num1, num2) else (num2, num1).

(** The body of [userInputs.gridInputs.forEach((gridInput, i) => ...)].  The
    feedback of a cell is [cellCorrectStatus[i]], which is read right after
    it was set, or not set, for the same [i]; where it was not set it is
    [false], or [undefined] from cell 16 on, which counts as not correct. *)
Definition gridStep (puzzle : Puzzle) (st : GridScan) (entry : nat * GridInput)
  : GridScan :=
  let '(i, gridInput) := entry in
  let gridValue := pz_grid puzzle !! i in
  let '(errors, addPairs, multPairs, correct) :=
    match in_num1 gridInput, in_num2 gridInput, in_op gridInput with
    | Some num1, Some num2, Some op =>
        let result_calc :=
          match op with Plus => num1 + num2 | Times => num1 * num2 end in
        if bool_decide (gridValue = Some result_calc) then
          let pair := sortPair num1 num2 in
          match op with
          | Plus => (gs_errors st, gs_addPairs st ++ [pair], gs_multPairs st, true)
          | Times => (gs_errors st, gs_addPairs st, gs_multPairs st ++ [pair], true)
          end
        else
          (gs_errors st ++ [MathIncorrect i num1 op num2 gridValue],
           gs_addPairs st, gs_multPairs st, false)
    | _, _, _ =>
        (gs_errors st ++ [MissingInputs i], gs_addPairs st, gs_multPairs st, false)
    end in
  mkGridScan errors addPairs multPairs (gs_feedback st ++ [mkFeedback i correct]).

Definition scanGrid (puzzle : Puzzle) (userInputs : UserInputs) : GridScan :=
  foldl (gridStep puzzle) (mkGridScan [] [] [] []) (indexed (gridInputs userInputs)).

(** ** 3. Addition pairs against multiplication pairs *)

(** [idx = copy.indexOf(pairStr)] and [copy.splice(idx, 1)]; [None] when
    [idx] is -1. *)
Fixpoint removeFirst (pair : Z * Z) (copy : list (Z * Z)) : option (list (Z * Z)) :=
  match copy with
  | [] => None
  | q :: copy' =>
      if decide (q = pair) then Some copy'
      else (λ rest, q :: rest) <$> removeFirst pair copy'
  end.

Record Matching := mkMatching
  { mt_copy : list (Z * Z); mt_matched : list (Z * Z); mt_unmatchedAdd : list (Z * Z) }.

(** The body of [addPairs.forEach(pair => ...)]. *)
Definition matchStep (st : Matching) (pair : Z * Z) : Matching :=
  match removeFirst pair (mt_copy st) with
  | Some copy => mkMatching copy (mt_matched st ++ [pair]) (mt_unmatchedAdd st)
  | None => mkMatching (mt_copy st) (mt_matched st) (mt_unmatchedAdd st ++ [pair])
  end.

Definition matchPairs (addPairs multPairs : list (Z * Z)) : Matching :=
  foldl matchStep (mkMatching multPairs [] []) addPairs.

(** ** 5. Numbers used against the strip *)

(** [usedCounts] after [matchedPairs.forEach(pair => pair.forEach(num => ...))]. *)
Definition countUsed (matchedPairs : list (Z * Z)) : Counts :=
  foldl (λ usedCounts pair, bumpCount pair.2 (bumpCount pair.1 usedCounts))
    [] matchedPairs.

(** The errors of [stripCounts.forEach((count, num) => ...)]. *)
Definition countErrors (stripCounts usedCounts : Counts) : list Error :=
  stripCounts ≫= λ kc,
    let used := default 0%nat (getCount kc.1 usedCounts) in
    if decide (used ≠ kc.2) then [CountMismatch kc.1 kc.2 used] else [].

(** The errors of [usedCounts.forEach((used, num) => ...)]. *)
Definition strayErrors (stripCounts usedCounts : Counts) : list Error :=
  usedCounts ≫= λ ku,
    if decide (getCount ku.1 stripCounts = None) then [NotInStrip ku.1] else [].

(** ** The whole check *)

Definition isNil {A} (l : list A) : bool := match l with [] => true | _ => false end.

Definition validate (puzzle : Puzzle) (userInputs : UserInputs) : Result :=
  let strip := scanStrip puzzle userInputs in
  let grid := scanGrid puzzle userInputs in
  let success := ss_success strip in
  let errors := gs_errors grid in
  (* 3 *)
  let matching := matchPairs (gs_addPairs grid) (gs_multPairs grid) in
  let errors := errors ++ (AddWithoutMult <$> mt_unmatchedAdd matching) in
  let success := success && isNil (mt_unmatchedAdd matching) in
  let errors := errors ++ (MultWithoutAdd <$> mt_copy matching) in
  let success := success && isNil (mt_copy matching) in
  (* 4 *)
  let found := length (mt_matched matching) in
  let success := success && bool_decide (found = 8%nat) in
  let errors :=
    if decide (found < 8)%nat then errors ++ [OnlyPairs found] else errors in
  (* 5 *)
  let '(success, errors) :=
    if decide (found = 8%nat) then
      let usedCounts := countUsed (mt_matched matching) in
      let mismatches := countErrors (ss_counts strip) usedCounts in
      let strays := strayErrors (ss_counts strip) usedCounts in
      (success && isNil mismatches && isNil strays, errors ++ mismatches ++ strays)
    else (success, errors) in
  let errors :=
    if negb success && forallb fb_correct (gs_feedback grid)
       && forallb fb_correct (ss_feedback strip)
    then errors ++ [RulesViolation] else errors in
  mkResult success errors (ss_feedback strip) (gs_feedback grid).

(** ** Vocabulary *)

(** The input of the hidden slot [index] is the number that the solution
    strip has there. *)
Definition hiddenCorrect (puzzle : Puzzle) (userInputs : UserInputs) : Prop :=
  ∀ index, pz_strip puzzle !! index = Some None →
    strictEq (default undefined (stripInputs userInputs !! index))
      (pz_solution_strip puzzle !! index) = true.

(** The numbers of the strip as the user has it: the known values and the
    numbers typed into the hidden slots. *)
Definition entryNumber (userInputs : UserInputs) (entry : nat * option Z) : option Z :=
  match entry.2 with
  | Some v => Some v
  | None =>
      match stripInputs userInputs !! entry.1 with
      | Some (number z) => Some z
      | _ => None
      end
  end.

Definition userStrip (puzzle : Puzzle) (userInputs : UserInputs) : list Z :=
  omap (entryNumber userInputs) (indexed (pz_strip puzzle)).

(** The pair, smaller number first, of a grid input with operation [o]
    whose two numbers give the grid number of its cell. *)
Definition correctPair (puzzle : Puzzle) (o : Op) (entry : nat * GridInput)
  : option (Z * Z) :=
  match in_num1 entry.2, in_num2 entry.2, in_op entry.2 with
  | Some num1, Some num2, Some op =>
      if bool_decide (op = o ∧
                      pz_grid puzzle !! entry.1
                      = Some (evalEquation (mkEquation num1 op num2)))
      then Some (sortPair num1 num2) else None
  | _, _, _ => None
  end.

Definition correctPairs (puzzle : Puzzle) (userInputs : UserInputs) (o : Op)
  : list (Z * Z) :=
  omap (correctPair puzzle o) (indexed (gridInputs userInputs)).

(** The numbers of a list of pairs. *)
Definition pairNumbers (pairs : list (Z * Z)) : list Z :=
  pairs ≫= λ ab, [ab.1; ab.2].

(** What a user types in when copying a solution: the numbers of its strip
    and the equations of its grid ([None] if a cell of the grid holds
    [null], which [validate] cannot read). *)
Definition inputsOf (sol : Solution) : option UserInputs :=
  gridInputs ← mapM (λ cell : option Equation,
                      (λ e, mkGridInput (Some (num1 e)) (Some (op e)) (Some (num2 e)))
                        <$> cell) (grid sol);
  Some (mkUserInputs (number <$> strip sol) gridInputs).
End Validator.

(** ** Vocabulary for the validator *)

(** [counts] counts the elements of [l]. *)
Definition countsOf (counts : Validator.Counts) (l : list Z) : Prop :=
  ∀ num, Validator.getCount num counts
         = if decide (num ∈ l) then Some (count_occ Z.eq_dec l num) else None.

(** The cell has two numbers and an operation, and they give the grid
    number of the cell. *)
Definition cellCorrect (puzzle : Puzzle) (entry : nat * Validator.GridInput) : Prop :=
  ∃ num1 num2 op,
    entry.2 = Validator.mkGridInput (Some num1) (Some op) (Some num2) ∧
    pz_grid puzzle !! entry.1 = Some (evalEquation (mkEquation num1 op num2)).

(** The two cells of a pair, as [solve] writes them. *)
Definition cellsOfPair (p : CandidatePair) : list (option Equation) :=
  [Some (mkEquation (p_pair p).1 Plus (p_pair p).2);
   Some (mkEquation (p_pair p).1 Times (p_pair p).2)].

(** The pair of an equation with operation [o]. *)
Definition pairOfCell (o : Op) (cell : option Equation) : option (Z * Z) :=
  e ← cell;
  if decide (op e = o) then Some (Validator.sortPair (num1 e) (num2 e)) else None.


(** The [Solution] that [solve] returns for the puzzle [generate 42 medium]. *)
Definition seed42Solution : Solution :=
  mkSolution [6; 8; 9; 10; 14; 15; 16; 19; 19; 19; 21; 21; 23; 26; 26; 27]
    [Some (mkEquation 10 Plus 23); Some (mkEquation 9 Times 19);
     Some (mkEquation 15 Plus 26); Some (mkEquation 6 Times 16);
     Some (mkEquation 15 Times 26); Some (mkEquation 21 Plus 26);
     Some (mkEquation 6 Plus 16); Some (mkEquation 14 Plus 19);
     Some (mkEquation 8 Times 27); Some (mkEquation 21 Times 26);
     Some (mkEquation 10 Times 23); Some (mkEquation 19 Times 21);
     Some (mkEquation 19 Plus 21); Some (mkEquation 8 Plus 27);
     Some (mkEquation 9 Plus 19); Some (mkEquation 14 Times 19)].

(** * Properties *)

(** ** Folds as loops *)

Section FoldInvariants.
Context {A B : Type} (f : A → B → A).

(** A property kept by every iteration holds after the loop. *)
Lemma foldl_keeps (P : A → Prop) (l : list B) (acc : A) :
  (∀ acc' x, x ∈ l → P acc' → P (f acc' x)) → P acc → P (foldl f acc l).
Proof.
  revert acc. induction l as [|y l IH]; intros acc Hstep Hacc; simpl; [done|].
  apply IH.
  - intros acc' x Hx. apply Hstep. by right.
  - apply Hstep; [by left | done].
Qed.

(** A property established by the iteration on [x] and kept by every
    iteration holds after a loop that visits [x]. *)
Lemma foldl_reaches (P : A → Prop) (l : list B) (x : B) (acc : A) :
  x ∈ l →
  (∀ acc', P (f acc' x)) →
  (∀ acc' y, P acc' → P (f acc' y)) →
  P (foldl f acc l).
Proof.
  intros Hx Hest Hkeep. revert acc.
  induction l as [|y l IH]; intros acc; [by apply elem_of_nil in Hx|].
  apply elem_of_cons in Hx as [->|Hx]; simpl.
  - apply foldl_keeps; [intros; by apply Hkeep | apply Hest].
  - by apply IH.
Qed.
End FoldInvariants.

Lemma elem_of_indexed {A} (l : list A) (i : nat) (x : A) :
  (i, x) ∈ indexed l ↔ l !! i = Some x.
Proof.
  unfold indexed. rewrite elem_of_lookup_imap. split.
  - intros (j & y & [= -> ->] & Hy). done.
  - intros Hx. by exists i, x.
Qed.

(** ** Divisor search *)

Lemma elem_of_divisorCandidates (n i : Z) :
  i ∈ divisorCandidates n ↔ 1 ≤ i ≤ Z.sqrt n.
Proof.
  unfold divisorCandidates. rewrite list_elem_of_fmap. split.
  - intros (k & -> & Hk). apply elem_of_seq in Hk.
    pose proof (Z.sqrt_nonneg n). lia.
  - intros Hi. exists (Z.to_nat i). split; [lia|]. apply elem_of_seq. lia.
Qed.

Lemma elem_of_divisor_fold (n : Z) (l : list Z) (acc : list (Z * Z)) (x : Z * Z) :
  x ∈ foldl (divisorStep n) acc l ↔
  x ∈ acc ∨ ∃ i, i ∈ l ∧ Z.rem n i = 0 ∧ x = (Z.min i (n ÷ i), Z.max i (n ÷ i)).
Proof.
  revert acc. induction l as [|i l IH]; intros acc; simpl.
  - split; [by left|]. intros [?|(i & Hi & _)]; [done|]. by apply elem_of_nil in Hi.
  - rewrite IH. unfold divisorStep. destruct (Z.eqb_spec (Z.rem n i) 0) as [Hr|Hr].
    + rewrite elem_of_app, list_elem_of_singleton. split.
      * intros [[?| ->]|(k & Hk & ?)]; [by left| |].
        -- right. exists i. split; [by left|done].
        -- right. exists k. split; [by right|done].
      * intros [?|(k & Hk & Hk0 & ->)]; [by left; left|].
        apply elem_of_cons in Hk as [->|Hk]; [by left; right|].
        right. by exists k.
    + split.
      * intros [?|(k & Hk & ?)]; [by left|]. right. exists k. split; [by right|done].
      * intros [?|(k & Hk & Hk0 & ->)]; [by left|].
        apply elem_of_cons in Hk as [->|Hk]; [done|]. right. by exists k.
Qed.

(** What [getDivisorPairs] returns: exactly the pairs [(a, b)] with
    [1 <= a <= b] and [a * b = n]. *)
Lemma elem_of_getDivisorPairs (n a b : Z) :
  (a, b) ∈ getDivisorPairs n ↔ 1 ≤ a ≤ b ∧ a * b = n.
Proof.
  unfold getDivisorPairs. rewrite elem_of_divisor_fold. split.
  - intros [H|(i & Hi & Hr & Heq)]; [by apply elem_of_nil in H|].
    apply elem_of_divisorCandidates in Hi.
    assert (0 ≤ n) as Hn.
    { destruct (Z.le_gt_cases 0 n) as [|Hneg]; [done|].
      rewrite (Z.sqrt_neg n Hneg) in Hi. lia. }
    pose proof (Z.quot_rem' n i) as Hq. rewrite Hr in Hq.
    pose proof (Z.sqrt_spec n Hn) as [Hs _].
    assert (i * i ≤ n) as Hii by nia.
    assert (i ≤ n ÷ i) as Hle by nia.
    injection Heq as -> ->. rewrite Z.min_l, Z.max_r by done. lia.
  - intros ([Ha Hab] & Hn). right. exists a.
    assert (a ≤ Z.sqrt n) as Hs.
    { apply Z.sqrt_le_square; [nia|lia|nia]. }
    assert (n ÷ a = b) as Hq.
    { subst n. rewrite Z.mul_comm. apply Z.quot_mul. lia. }
    split; [by apply elem_of_divisorCandidates|]. split.
    + subst n. rewrite Z.mul_comm. apply Z.rem_mul. lia.
    + rewrite Hq, Z.min_l, Z.max_r by done. done.
Qed.

(** ** Candidate extractor: what is recorded *)

Lemma recordUse_keys (key : Z * Z) (u : Use) (m : list CandidatePair) :
  p_pair <$> recordUse key u m =
  if decide (key ∈ p_pair <$> m) then p_pair <$> m else (p_pair <$> m) ++ [key].
Proof.
  induction m as [|c m IH].
  - destruct (decide (key ∈ p_pair <$> [])) as [Hin|Hin]; [|done].
    by apply elem_of_nil in Hin.
  - cbn [recordUse]. rewrite !fmap_cons.
    destruct (decide (p_pair c = key)) as [Hc|Hc].
    + destruct (decide (key ∈ p_pair c :: (p_pair <$> m))) as [Hin|Hin]; [done|].
      exfalso. apply Hin. rewrite Hc. by left.
    + rewrite fmap_cons, IH.
      destruct (decide (key ∈ p_pair <$> m)) as [Hin|Hin];
        destruct (decide (key ∈ p_pair c :: (p_pair <$> m))) as [Hin'|Hin']; try done.
      * exfalso. apply Hin'. by right.
      * exfalso. apply elem_of_cons in Hin' as [?|?]; [congruence|done].
Qed.

Lemma recordUse_inv (g : list Z) (key : Z * Z) (u : Use) (m : list CandidatePair) :
  1 ≤ key.1 ≤ key.2 → soundUse g key u →
  extractorInv g m → extractorInv g (recordUse key u m).
Proof.
  intros Hkey Hu [Hs Hnd]. split.
  - clear Hnd. induction m as [|c m IH]; simpl.
    + constructor; [|done]. split; [done|]. by constructor.
    + apply Forall_cons in Hs as [Hc Hm].
      destruct (decide (p_pair c = key)) as [Heq|Hne].
      * constructor; [|done]. destruct Hc as [Hc1 Hc2]. split; [done|]. simpl.
        apply Forall_app. split; [done|]. constructor; [by rewrite Heq|done].
      * constructor; [done|]. by apply IH.
  - rewrite recordUse_keys. case_decide as Hin; [done|].
    apply NoDup_app. split; [done|]. split; [|apply NoDup_singleton].
    intros x Hx Hx'. apply list_elem_of_singleton in Hx'. by subst.
Qed.

Lemma recordUse_hasUse (key : Z * Z) (u : Use) (m : list CandidatePair) :
  hasUse key (c_index (u_mult u)) (c_index (u_add u)) (recordUse key u m).
Proof.
  induction m as [|c m IH]; simpl.
  - exists (mkCandidate key [u]), u. repeat split; [by left|by left].
  - destruct (decide (p_pair c = key)) as [Heq|Hne].
    + eexists _, u. split; [by left|]. simpl. split; [done|].
      split; [|done]. apply elem_of_app. right. by left.
    + destruct IH as (c' & u' & Hc' & ?). exists c', u'. split; [by right|done].
Qed.

Lemma recordUse_keeps_hasUse (key key' : Z * Z) (i j : nat) (u : Use)
    (m : list CandidatePair) :
  hasUse key i j m → hasUse key i j (recordUse key' u m).
Proof.
  intros (c & v & Hc & Hk & Hv & Hi & Hj).
  induction m as [|d m IH]; [by apply elem_of_nil in Hc|]. simpl.
  apply elem_of_cons in Hc as [<-|Hc].
  - destruct (decide (p_pair c = key')) as [Heq|Hne].
    + eexists _, v. split; [by left|]. simpl. split; [done|].
      split; [|done]. apply elem_of_app. by left.
    + exists c, v. split; [by left|done].
  - destruct (decide (p_pair d = key')) as [Heq|Hne].
    + exists c, v. split; [by right|done].
    + destruct (IH Hc) as (c' & v' & Hc' & ?). exists c', v'. split; [by right|done].
Qed.

Lemma pairStep_keeps_hasUse key i j i' n j' s m q :
  hasUse key i j m → hasUse key i j (pairStep i' n j' s m q).
Proof.
  intros H. unfold pairStep. destruct q as [a b].
  destruct (a + b =? s); [by apply recordUse_keeps_hasUse|done].
Qed.

Lemma addStep_keeps_hasUse key i j i' n qs m cell :
  hasUse key i j m → hasUse key i j (addStep i' n qs m cell).
Proof.
  intros H. unfold addStep. destruct cell as [j' s]. case_decide; [done|].
  apply foldl_keeps; [|done]. intros; by apply pairStep_keeps_hasUse.
Qed.

Lemma multStep_keeps_hasUse g key i j m cell :
  hasUse key i j m → hasUse key i j (multStep g m cell).
Proof.
  intros H. unfold multStep. destruct cell as [i' n].
  apply foldl_keeps; [|done]. intros; by apply addStep_keeps_hasUse.
Qed.

Lemma findConsistentPairs_inv (g : list Z) : extractorInv g (findConsistentPairs g).
Proof.
  unfold findConsistentPairs.
  apply foldl_keeps; [|split; [constructor|simpl; constructor]].
  intros m [i n] Hi Hm. apply elem_of_indexed in Hi. unfold multStep.
  apply foldl_keeps; [|done].
  intros m' [j s] Hj Hm'. apply elem_of_indexed in Hj. unfold addStep.
  case_decide as Hij; [done|].
  apply foldl_keeps; [|done].
  intros m'' [a b] Hab Hm''. apply elem_of_getDivisorPairs in Hab as [Hle Hprod].
  unfold pairStep. destruct (Z.eqb_spec (a + b) s) as [Hsum|]; [|done].
  apply recordUse_inv; [done| |done].
  unfold soundUse; simpl. rewrite Hprod, Hsum. by repeat split.
Qed.

(** Every way in which a recorded pair explains two different cells of the
    grid is among its uses. *)
Lemma findConsistentPairs_hasUse (g : list Z) (a b : Z) (i j : nat) :
  1 ≤ a ≤ b → i ≠ j → g !! i = Some (a * b) → g !! j = Some (a + b) →
  hasUse (a, b) i j (findConsistentPairs g).
Proof.
  intros Hab Hij Hi Hj. unfold findConsistentPairs.
  apply foldl_reaches with (x := (i, a * b));
    [by apply elem_of_indexed| |intros; by apply multStep_keeps_hasUse].
  intros m. unfold multStep.
  apply foldl_reaches with (x := (j, a + b));
    [by apply elem_of_indexed| |intros; by apply addStep_keeps_hasUse].
  intros m'. unfold addStep. rewrite decide_False by done.
  apply foldl_reaches with (x := (a, b));
    [by apply elem_of_getDivisorPairs| |intros; by apply pairStep_keeps_hasUse].
  intros m''. unfold pairStep. rewrite Z.eqb_refl.
  apply (recordUse_hasUse (a, b) (mkUse (mkCell (a * b) i) (mkCell (a + b) j))).
Qed.

Lemma NoDup_fmap_elem_eq {A B} (f : A → B) (l : list A) (x y : A) :
  NoDup (f <$> l) → x ∈ l → y ∈ l → f x = f y → x = y.
Proof.
  induction l as [|z l IH]; intros Hnd Hx Hy Hf; [by apply elem_of_nil in Hx|].
  simpl in Hnd. apply NoDup_cons in Hnd as [Hz Hnd].
  apply elem_of_cons in Hx as [->|Hx]; apply elem_of_cons in Hy as [->|Hy].
  - done.
  - exfalso. apply Hz. rewrite Hf. by apply list_elem_of_fmap_2.
  - exfalso. apply Hz. rewrite <- Hf. by apply list_elem_of_fmap_2.
  - by apply IH.
Qed.

Lemma candidate_sound (g : list Z) (c : CandidatePair) :
  c ∈ findConsistentPairs g → soundCandidate g c.
Proof.
  intros Hc. destruct (findConsistentPairs_inv g) as [Hs _].
  by apply (proj1 (Forall_forall _ _) Hs).
Qed.

(** Completeness of the recorded uses of a candidate of the extractor. *)
Lemma candidate_complete (g : list Z) (c : CandidatePair) (i j : nat) :
  c ∈ findConsistentPairs g → i ≠ j →
  g !! i = Some ((p_pair c).1 * (p_pair c).2) →
  g !! j = Some ((p_pair c).1 + (p_pair c).2) →
  ∃ u, u ∈ p_uses c ∧ c_index (u_mult u) = i ∧ c_index (u_add u) = j.
Proof.
  intros Hc Hij Hi Hj.
  destruct (candidate_sound g c Hc) as [Hle _].
  destruct (p_pair c) as [a b] eqn:Hp. simpl in *.
  destruct (findConsistentPairs_hasUse g a b i j Hle Hij Hi Hj)
    as (c' & u & Hc' & Hk & Hu & Hui & Huj).
  assert (c' = c) as ->.
  { apply (NoDup_fmap_elem_eq p_pair (findConsistentPairs g)); [|done|done|congruence].
    apply findConsistentPairs_inv. }
  by exists u.
Qed.

(** ** Grid assignment: what a returned grid looks like *)

Lemma usable_spec (grid : GridAssignment) (u : Use) :
  usable grid u = true ↔
  grid !! c_index (u_add u) = Some None ∧ grid !! c_index (u_mult u) = Some None ∧
  c_index (u_add u) ≠ c_index (u_mult u).
Proof.
  unfold usable, isNull. rewrite !andb_true_iff, !bool_decide_eq_true. tauto.
Qed.

Lemma tryUses_sound next a b grid us result :
  tryUses next a b grid us = Some result →
  ∃ u, u ∈ us ∧ usable grid u = true ∧ next (place a b u grid) = Some result.
Proof.
  induction us as [|u us IH]; simpl; [done|].
  destruct (usable grid u) eqn:Hu.
  - destruct (next (place a b u grid)) as [r|] eqn:Hn.
    + intros [= <-]. exists u. split; [by left|done].
    + intros H. destruct (IH H) as (v & Hv & ?). exists v. split; [by right|done].
  - intros H. destruct (IH H) as (v & Hv & ?). exists v. split; [by right|done].
Qed.

Lemma tryUses_complete next a b grid us u :
  u ∈ us → usable grid u = true → is_Some (next (place a b u grid)) →
  is_Some (tryUses next a b grid us).
Proof.
  intros Hin Hu Hn. induction us as [|v us IH]; [by apply elem_of_nil in Hin|].
  simpl. destruct (usable grid v) eqn:Hv.
  - destruct (next (place a b v grid)) as [r|] eqn:Hr; [by eexists|].
    apply elem_of_cons in Hin as [->|Hin]; [|by apply IH].
    rewrite Hr in Hn. by destruct Hn.
  - apply elem_of_cons in Hin as [->|Hin]; [congruence|by apply IH].
Qed.

Lemma findGridAssignment_sound pairs grid result :
  findGridAssignment pairs grid = Some result →
  ∃ us, assignedBy pairs us grid result.
Proof.
  revert grid. induction pairs as [|p pairs IH]; intros grid; simpl.
  - intros [= <-]. exists []. constructor.
  - destruct (p_pair p) as [a b] eqn:Hp. intros H.
    apply tryUses_sound in H as (u & Hu & Hus & Hn).
    destruct (IH _ Hn) as [us Hass]. exists (u :: us).
    constructor; [done|done|]. by rewrite Hp.
Qed.

(** The search over uses is exhaustive: if the pairs can be put on uses
    whose cells are pairwise different and still empty, a grid is returned. *)
Lemma findGridAssignment_complete pairs us grid :
  Forall2 (λ p u, u ∈ p_uses p) pairs us →
  NoDup (cellsOf us) →
  (∀ i, i ∈ cellsOf us → grid !! i = Some None) →
  is_Some (findGridAssignment pairs grid).
Proof.
  intros Hall. revert grid.
  induction Hall as [|p u pairs us Hu Hall IH]; intros grid Hnd Hnull; simpl.
  - by eexists.
  - destruct (p_pair p) as [a b].
    unfold cellsOf in Hnd, Hnull. rewrite bind_cons in Hnd, Hnull.
    simpl in Hnd, Hnull.
    apply NoDup_cons in Hnd as [Hadd Hnd]. apply NoDup_cons in Hnd as [Hmult Hnd].
    assert (c_index (u_add u) ≠ c_index (u_mult u)) as Hne.
    { intros Heq. apply Hadd. rewrite Heq. by left. }
    apply (tryUses_complete _ _ _ _ _ u); [done| |].
    + apply usable_spec. split; [|split; [|done]].
      * apply Hnull. by left.
      * apply Hnull. right. by left.
    + apply IH; [done|]. intros i Hi. unfold place.
      rewrite !list_lookup_insert_ne.
      * apply Hnull. by do 2 right.
      * intros <-. apply Hadd. by right.
      * intros <-. by apply Hmult.
Qed.

Lemma filter_length_insert {A} (P : A → Prop) `{!∀ x, Decision (P x)}
    (l : list A) (i : nat) (x v : A) :
  l !! i = Some x →
  (length (filter P (<[i:=v]> l)) + (if decide (P x) then 1 else 0) =
   length (filter P l) + (if decide (P v) then 1 else 0))%nat.
Proof.
  revert i. induction l as [|y l IH]; intros i Hi; [done|].
  destruct i as [|i]; simpl in *.
  - injection Hi as ->. rewrite !filter_cons.
    destruct (decide (P x)), (decide (P v)); simpl; lia.
  - specialize (IH i Hi). rewrite !filter_cons.
    destruct (decide (P y)); simpl; lia.
Qed.

Section Place.
Context (a b : Z) (u : Use) (grid : GridAssignment).
Hypothesis Husable : usable grid u = true.

Lemma place_add_null : grid !! c_index (u_add u) = Some None.
Proof. by apply usable_spec in Husable as (? & ? & ?). Qed.
Lemma place_mult_null : grid !! c_index (u_mult u) = Some None.
Proof. by apply usable_spec in Husable as (? & ? & ?). Qed.
Lemma place_cells_differ : c_index (u_add u) ≠ c_index (u_mult u).
Proof. by apply usable_spec in Husable as (? & ? & ?). Qed.
Lemma place_mult_null_after_add :
  <[c_index (u_add u) := Some (mkEquation a Plus b)]> grid !! c_index (u_mult u)
  = Some None.
Proof.
  rewrite list_lookup_insert_ne; [apply place_mult_null|apply place_cells_differ].
Qed.

Lemma place_length : length (place a b u grid) = length grid.
Proof. unfold place. by rewrite !length_insert. Qed.

Lemma place_emptyCells : (emptyCells (place a b u grid) + 2 = emptyCells grid)%nat.
Proof.
  unfold emptyCells, place.
  pose proof (filter_length_insert (λ c : option Equation, c = None) _ _ _
                (Some (mkEquation a Times b)) place_mult_null_after_add) as H1.
  pose proof (filter_length_insert (λ c : option Equation, c = None) _ _ _
                (Some (mkEquation a Plus b)) place_add_null) as H2.
  rewrite decide_True in H1 by done. rewrite decide_False in H1 by done.
  rewrite decide_True in H2 by done. rewrite decide_False in H2 by done. lia.
Qed.

Lemma place_opCells_Plus : opCells Plus (place a b u grid) = S (opCells Plus grid).
Proof.
  unfold opCells, place.
  pose proof (filter_length_insert (λ c : option Equation, op <$> c = Some Plus) _ _ _
                (Some (mkEquation a Times b)) place_mult_null_after_add) as H1.
  pose proof (filter_length_insert (λ c : option Equation, op <$> c = Some Plus) _ _ _
                (Some (mkEquation a Plus b)) place_add_null) as H2.
  rewrite decide_False in H1 by done. rewrite decide_False in H1 by done.
  rewrite decide_False in H2 by done. rewrite decide_True in H2 by done. lia.
Qed.

Lemma place_opCells_Times : opCells Times (place a b u grid) = S (opCells Times grid).
Proof.
  unfold opCells, place.
  pose proof (filter_length_insert (λ c : option Equation, op <$> c = Some Times) _ _ _
                (Some (mkEquation a Times b)) place_mult_null_after_add) as H1.
  pose proof (filter_length_insert (λ c : option Equation, op <$> c = Some Times) _ _ _
                (Some (mkEquation a Plus b)) place_add_null) as H2.
  rewrite decide_False in H1 by done. rewrite decide_True in H1 by done.
  rewrite decide_False in H2 by done. rewrite decide_False in H2 by done. lia.
Qed.

Lemma place_lookup_add :
  place a b u grid !! c_index (u_add u) = Some (Some (mkEquation a Plus b)).
Proof.
  unfold place. pose proof place_cells_differ.
  rewrite list_lookup_insert_ne by done.
  apply list_lookup_insert_eq. apply (lookup_lt_Some _ _ _ place_add_null).
Qed.

Lemma place_lookup_mult :
  place a b u grid !! c_index (u_mult u) = Some (Some (mkEquation a Times b)).
Proof.
  unfold place. apply list_lookup_insert_eq. rewrite length_insert.
  apply (lookup_lt_Some _ _ _ place_mult_null).
Qed.

Lemma place_lookup_other (i : nat) :
  i ≠ c_index (u_add u) → i ≠ c_index (u_mult u) →
  place a b u grid !! i = grid !! i.
Proof. intros H1 H2. unfold place. by rewrite !list_lookup_insert_ne. Qed.

(** A cell that already holds an equation is not touched. *)
Lemma place_keeps (i : nat) (e : Equation) :
  grid !! i = Some (Some e) → place a b u grid !! i = Some (Some e).
Proof.
  intros Hi. pose proof place_add_null. pose proof place_mult_null.
  rewrite place_lookup_other; [done| |]; intros ->; congruence.
Qed.

Lemma place_equationsHold (gridNumbers : list Z) :
  soundUse gridNumbers (a, b) u →
  equationsHold gridNumbers grid → equationsHold gridNumbers (place a b u grid).
Proof.
  intros (_ & Hm & Ha & _) Hold i e Hi.
  destruct (decide (i = c_index (u_add u))) as [->|Hia].
  { rewrite place_lookup_add in Hi. injection Hi as <-. done. }
  destruct (decide (i = c_index (u_mult u))) as [->|Him].
  { rewrite place_lookup_mult in Hi. injection Hi as <-. done. }
  rewrite place_lookup_other in Hi by done. by apply Hold.
Qed.
End Place.

Lemma assignedBy_counts pairs us grid result :
  assignedBy pairs us grid result →
  length result = length grid ∧
  (emptyCells result + 2 * length pairs = emptyCells grid)%nat ∧
  (opCells Plus result = opCells Plus grid + length pairs)%nat ∧
  (opCells Times result = opCells Times grid + length pairs)%nat.
Proof.
  induction 1 as [grid|p pairs u us grid result Hu Hus _ IH].
  - repeat split; simpl; lia.
  - destruct IH as (Hlen & Hempty & Hplus & Htimes).
    rewrite place_length in Hlen by done.
    pose proof (place_emptyCells (p_pair p).1 (p_pair p).2 u grid Hus).
    rewrite place_opCells_Plus in Hplus by done.
    rewrite place_opCells_Times in Htimes by done.
    simpl. repeat split; lia.
Qed.

(** Cells that hold an equation before the assignment hold it afterwards. *)
Lemma assignedBy_keeps pairs us grid result i e :
  assignedBy pairs us grid result →
  grid !! i = Some (Some e) → result !! i = Some (Some e).
Proof.
  induction 1 as [grid|p pairs u us grid result Hu Hus _ IH]; [done|].
  intros Hi. apply IH. by apply place_keeps.
Qed.

(** The chosen uses are uses of their pairs, and their cells are pairwise
    different cells that were empty at the start. *)
Lemma assignedBy_cells pairs us grid result :
  assignedBy pairs us grid result →
  Forall2 (λ p u, u ∈ p_uses p) pairs us ∧
  NoDup (cellsOf us) ∧
  ∀ i, i ∈ cellsOf us → grid !! i = Some None.
Proof.
  induction 1 as [grid|p pairs u us grid result Hu Hus _ IH].
  - split; [constructor|]. split; [constructor|].
    intros i Hi. by apply elem_of_nil in Hi.
  - destruct IH as (Hall & Hnd & Hnull).
    pose proof Hus as (Ha & Hm & Hne)%usable_spec.
    assert (∀ i, i ∈ cellsOf us →
                 i ≠ c_index (u_add u) ∧ i ≠ c_index (u_mult u)) as Hfresh.
    { intros i Hi. specialize (Hnull i Hi). split; intros ->.
      - rewrite place_lookup_add in Hnull by done. done.
      - rewrite place_lookup_mult in Hnull by done. done. }
    split; [by constructor|]. unfold cellsOf. rewrite bind_cons. simpl. split.
    + constructor.
      { rewrite elem_of_cons. intros [?|Hin]; [done|].
        by destruct (Hfresh _ Hin). }
      constructor; [|done]. intros Hin. by destruct (Hfresh _ Hin).
    + intros i. rewrite !elem_of_cons. intros [->|[->|Hi]]; [done|done|].
      destruct (Hfresh _ Hi). specialize (Hnull i Hi).
      by rewrite place_lookup_other in Hnull.
Qed.

(** Each pair's equations sit on the cells of the use chosen for it. *)
Lemma assignedBy_written pairs us grid result k p u :
  assignedBy pairs us grid result →
  pairs !! k = Some p → us !! k = Some u →
  result !! c_index (u_add u)
    = Some (Some (mkEquation (p_pair p).1 Plus (p_pair p).2)) ∧
  result !! c_index (u_mult u)
    = Some (Some (mkEquation (p_pair p).1 Times (p_pair p).2)).
Proof.
  intros Hass. revert k.
  induction Hass as [grid|q pairs v us grid result Hv Hvs Hrest IH]; intros k; [done|].
  destruct k as [|k]; simpl.
  - intros [= ->] [= ->]. split.
    + eapply assignedBy_keeps; [done|]. by apply place_lookup_add.
    + eapply assignedBy_keeps; [done|]. by apply place_lookup_mult.
  - apply IH.
Qed.

Lemma assignedBy_equationsHold gridNumbers pairs us grid result :
  assignedBy pairs us grid result →
  Forall (soundCandidate gridNumbers) pairs →
  equationsHold gridNumbers grid → equationsHold gridNumbers result.
Proof.
  induction 1 as [grid|p pairs u us grid result Hu Hus _ IH]; [done|].
  intros [[_ Hp] Hpairs]%Forall_cons Hold. apply IH; [done|].
  apply place_equationsHold; [done| |done].
  destruct (p_pair p) as [a b]. by apply (proj1 (Forall_forall _ _) Hp).
Qed.

Lemma emptyCells_zero (grid : GridAssignment) (i : nat) :
  emptyCells grid = 0%nat → (i < length grid)%nat →
  ∃ e, grid !! i = Some (Some e).
Proof.
  unfold emptyCells. intros Hz Hi.
  destruct (lookup_lt_is_Some_2 grid i Hi) as [[e|] He]; [by exists e|].
  exfalso. assert (None ∈ filter (λ c : option Equation, c = None) grid) as Hin.
  { apply list_elem_of_filter. split; [done|]. by apply list_elem_of_lookup_2 in He. }
  apply length_zero_iff_nil in Hz. rewrite Hz in Hin. by apply elem_of_nil in Hin.
Qed.

Lemma emptyCells_replicate (n : nat) : emptyCells (replicate n None) = n.
Proof.
  unfold emptyCells. induction n as [|n IH]; [done|]. cbn [replicate].
  rewrite filter_cons, decide_True by done. cbn [length]. by rewrite IH.
Qed.

Lemma opCells_replicate (o : Op) (n : nat) : opCells o (replicate n None) = 0%nat.
Proof.
  unfold opCells. induction n as [|n IH]; [done|]. cbn [replicate].
  rewrite filter_cons, decide_False by done. done.
Qed.

(** ** Strip utilities *)

Lemma knownValuesAgree_spec (strip : list Z) (knownStrip : list (option Z)) :
  length strip = length knownStrip →
  knownValuesAgree strip knownStrip = true ↔
  ∀ i v, knownStrip !! i = Some (Some v) → strip !! i = Some v.
Proof.
  revert knownStrip. induction strip as [|x strip IH]; intros [|k known] Hlen;
    simpl in *; try done.
  injection Hlen as Hlen. specialize (IH known Hlen).
  destruct k as [v|].
  - destruct (Z.eqb_spec v x) as [->|Hne].
    + rewrite IH. split.
      * intros H [|i] w; simpl; [by intros [= ->]|apply H].
      * intros H i w. apply (H (S i)).
    + split; [done|]. intros H. specialize (H 0%nat v eq_refl). simpl in H. congruence.
  - rewrite IH. split.
    + intros H [|i] w; simpl; [done|apply H].
    + intros H i w. apply (H (S i)).
Qed.

Lemma matchesKnownValues_spec (strip : list Z) (knownStrip : list (option Z)) :
  matchesKnownValues strip knownStrip = true ↔
  length strip = length knownStrip ∧
  ∀ i v, knownStrip !! i = Some (Some v) → strip !! i = Some v.
Proof.
  unfold matchesKnownValues. case_decide as Hlen.
  - split; [done|]. by intros [? _].
  - rewrite knownValuesAgree_spec by done. split; [by split|by intros [_ ?]].
Qed.

Lemma numbers_fold (pairs : list CandidatePair) (acc : list Z) :
  foldl (λ numbers p, numbers ++ [(p_pair p).1; (p_pair p).2]) acc pairs
  = acc ++ numbersOf pairs.
Proof.
  revert acc. induction pairs as [|p pairs IH]; intros acc; cbn [foldl].
  - by rewrite app_nil_r.
  - rewrite IH. unfold numbersOf. rewrite bind_cons. by rewrite <- app_assoc.
Qed.

Lemma buildStripFromPairs_sorted (pairs : list CandidatePair) :
  Sorted Z.le (buildStripFromPairs pairs).
Proof. apply (Sorted_merge_sort Z.le). Qed.

Lemma buildStripFromPairs_perm (pairs : list CandidatePair) :
  buildStripFromPairs pairs ≡ₚ numbersOf pairs.
Proof.
  unfold buildStripFromPairs, sortNumbers. rewrite numbers_fold.
  apply merge_sort_Permutation.
Qed.

Lemma length_numbersOf (pairs : list CandidatePair) :
  length (numbersOf pairs) = (2 * length pairs)%nat.
Proof.
  unfold numbersOf. induction pairs as [|p pairs IH]; [done|].
  rewrite bind_cons. simpl in *. lia.
Qed.

Lemma length_buildStripFromPairs (pairs : list CandidatePair) :
  length (buildStripFromPairs pairs) = (2 * length pairs)%nat.
Proof. by rewrite buildStripFromPairs_perm, length_numbersOf. Qed.

(** ** Combination search: invariants *)

Section SearchInvariants.
Context (stripValues : list (option Z)) (maxAttempts : Z).
Context (allPairs : list CandidatePair).

Abbreviation loop := (searchLoop stripValues maxAttempts).
Abbreviation enter := (backtrackWith stripValues maxAttempts).

(** One iteration of the [for] loop of [backtrack]. *)
Lemma searchLoop_cons p rest combo used counts st :
  loop (p :: rest) combo used counts st =
  if bool_decide (is_Some (solution st)) then st
  else loop rest combo used counts
         (match availableUse p used with
          | Some use =>
              enter (loop rest) (combo ++ [p])
                ({[c_index (u_mult use)]} ∪ ({[c_index (u_add use)]} ∪ used))
                (bump (p_pair p).2 (bump (p_pair p).1 counts)) st
          | None => st
          end).
Proof. simpl. by destruct (p_pair p). Qed.

Lemma sublist_chosen {A} (combo rest all : list A) (p : A) :
  combo ++ p :: rest `sublist_of` all → (combo ++ [p]) ++ rest `sublist_of` all.
Proof. by rewrite <- app_assoc. Qed.

Lemma sublist_skipped {A} (combo rest all : list A) (p : A) :
  combo ++ p :: rest `sublist_of` all → combo ++ rest `sublist_of` all.
Proof.
  intros H. etrans; [|exact H]. apply sublist_app; [done|]. by apply sublist_cons.
Qed.

Lemma sublist_prefix {A} (combo rest all : list A) :
  combo ++ rest `sublist_of` all → combo `sublist_of` all.
Proof. intros H. etrans; [|exact H]. by apply sublist_inserts_r. Qed.

(** A property of the search state that every evaluation of a full
    combination keeps is kept by the whole search.  The evaluated
    combinations are sublists of [allPairs] of length 8, and they are
    evaluated in states where the search has not stopped. *)
Lemma searchLoop_invariant (P : SearchState → Prop) :
  (∀ combo st, combo `sublist_of` allPairs → length combo = 8%nat →
               stopped maxAttempts st = false → P st →
               P (evaluate stripValues combo st)) →
  ∀ rest combo used counts st,
    combo ++ rest `sublist_of` allPairs → P st →
    P (loop rest combo used counts st).
Proof.
  intros Heval rest.
  induction rest as [|p rest IH]; intros combo used counts st Hsub Hst; [done|].
  rewrite searchLoop_cons. case_bool_decide; [done|].
  apply IH; [by eapply sublist_skipped|].
  destruct (availableUse p used) as [use|]; [|done].
  unfold backtrackWith. destruct (stopped maxAttempts st) eqn:Hstop; [done|].
  case_decide as Hlen.
  - apply Heval; [|done|done|done].
    eapply sublist_prefix. by apply sublist_chosen.
  - apply IH; [by apply sublist_chosen|done].
Qed.

Lemma backtrack_invariant (P : SearchState → Prop) :
  (∀ combo st, combo `sublist_of` allPairs → length combo = 8%nat →
               stopped maxAttempts st = false → P st →
               P (evaluate stripValues combo st)) →
  P (mkState 0 None) → P (searchFrom stripValues maxAttempts allPairs).
Proof.
  intros Heval Hinit. unfold searchFrom, backtrack, backtrackWith.
  destruct (stopped _ _); [done|]. rewrite decide_False by done.
  rewrite drop_0. by apply searchLoop_invariant.
Qed.

Lemma stopped_false st :
  stopped maxAttempts st = false ↔ solution st = None ∧ tested st ≤ maxAttempts.
Proof.
  unfold stopped. rewrite orb_false_iff, bool_decide_eq_false, Z.ltb_ge.
  rewrite <- eq_None_not_Some. done.
Qed.

Lemma searchFrom_found f :
  solution (searchFrom stripValues maxAttempts allPairs) = Some f → foundSpec stripValues maxAttempts allPairs f.
Proof.
  revert f.
  apply (backtrack_invariant
           (λ st, 0 ≤ tested st ∧ ∀ f, solution st = Some f → foundSpec stripValues maxAttempts allPairs f));
    [|by split].
  intros combo st Hsub Hlen [Hnone Hle]%stopped_false [Hpos _]. unfold evaluate.
  destruct (matchesKnownValues _ _) eqn:Hm; simpl;
    [|split; [lia|by rewrite Hnone]].
  destruct (findGridAssignment _ _) as [assignment|] eqn:Hga; simpl;
    [|split; [lia|by rewrite Hnone]].
  split; [lia|]. intros f [= <-]. exists combo. simpl. repeat split; try done; lia.
Qed.

(** The counter never passes [maxAttempts + 1]. *)
Lemma searchFrom_tested_bound :
  0 ≤ tested (searchFrom stripValues maxAttempts allPairs) ≤ Z.max 0 (maxAttempts + 1).
Proof.
  apply (backtrack_invariant (λ st, 0 ≤ tested st ≤ Z.max 0 (maxAttempts + 1)));
    [|simpl; lia].
  intros combo st _ _ [_ Hle]%stopped_false Hst. unfold evaluate.
  destruct (matchesKnownValues _ _); [destruct (findGridAssignment _ _)|]; simpl; lia.
Qed.
End SearchInvariants.

(** ** From the search state to the result of [solve] *)

Lemma solve_Some g s m sol :
  solve g s m = Some sol ↔
  ∃ f, solution (solveState g s m) = Some f ∧ sol = mkSolution (f_strip f) (f_grid f).
Proof.
  unfold solve, solveState, findOptimalCombination.
  destruct (solution _) as [f|]; split.
  - intros [= <-]. by exists f.
  - by intros (f' & [= <-] & ->).
  - done.
  - by intros (f' & ? & _).
Qed.

Lemma solve_None g s m :
  solve g s m = None ↔ solution (solveState g s m) = None.
Proof.
  unfold solve, solveState, findOptimalCombination.
  by destruct (solution _) as [f|].
Qed.

Lemma assignedBy_untouched pairs us grid result i :
  assignedBy pairs us grid result → i ∉ cellsOf us → result !! i = grid !! i.
Proof.
  induction 1 as [grid|p pairs u us grid result Hu Hus _ IH]; [done|].
  unfold cellsOf. rewrite bind_cons. simpl. rewrite !not_elem_of_cons.
  intros (Ha & Hm & Hrest). rewrite IH by done. by apply place_lookup_other.
Qed.

(** Assigning to an empty grid of [n] cells until no cell is empty uses
    every index below [n] exactly once. *)
Lemma assignedBy_covers pairs us result n :
  assignedBy pairs us (replicate n None) result →
  n = (2 * length pairs)%nat →
  cellsOf us ≡ₚ seq 0 n.
Proof.
  intros Hass Hn.
  destruct (assignedBy_cells _ _ _ _ Hass) as (_ & Hnd & Hnull).
  destruct (assignedBy_counts _ _ _ _ Hass) as (Hlen & Hempty & _).
  rewrite emptyCells_replicate in Hempty. rewrite length_replicate in Hlen.
  apply NoDup_Permutation; [done|apply NoDup_seq|].
  intros i. rewrite elem_of_seq. split.
  - intros Hi. apply Hnull, lookup_lt_Some in Hi. rewrite length_replicate in Hi. lia.
  - intros [_ Hi]. destruct (decide (i ∈ cellsOf us)) as [|Hout]; [done|exfalso].
    destruct (emptyCells_zero result i) as [e He]; [lia|lia|].
    rewrite (assignedBy_untouched _ _ _ _ _ Hass Hout) in He.
    rewrite lookup_replicate_2 in He by lia. done.
Qed.

Lemma Forall_sublist_candidates (g : list Z) (combo : list CandidatePair) :
  combo `sublist_of` findConsistentPairs g → Forall (soundCandidate g) combo.
Proof.
  intros Hsub. apply Forall_forall. intros c Hc. apply candidate_sound.
  by eapply elem_of_sublist.
Qed.

(** The facts behind every [Solution]: the combination it was built from
    and the uses its grid was assigned by. *)
Lemma solve_anatomy g s m sol :
  solve g s m = Some sol →
  ∃ combo us,
    combo `sublist_of` findConsistentPairs g ∧ length combo = 8%nat ∧
    strip sol = buildStripFromPairs combo ∧
    matchesKnownValues (strip sol) s = true ∧
    assignedBy combo us (replicate 16 None) (grid sol).
Proof.
  intros (f & Hf & ->)%solve_Some.
  apply searchFrom_found in Hf as (combo & Hsub & Hlen & Hstrip & Hm & Hga & _).
  apply findGridAssignment_sound in Hga as [us Hus].
  by exists combo, us.
Qed.

Lemma solve_equationsHold g s m sol :
  solve g s m = Some sol → equationsHold g (grid sol).
Proof.
  intros (combo & us & Hsub & _ & _ & _ & Hass)%solve_anatomy.
  apply (assignedBy_equationsHold _ _ _ _ _ Hass).
  - by apply Forall_sublist_candidates.
  - intros j e Hj. apply lookup_replicate in Hj as [? _]. done.
Qed.

Lemma solve_grid_total g s m sol i :
  solve g s m = Some sol → (i < 16)%nat → ∃ e, grid sol !! i = Some (Some e).
Proof.
  intros (combo & us & _ & Hlen & _ & _ & Hass)%solve_anatomy Hi.
  destruct (assignedBy_counts _ _ _ _ Hass) as (Hglen & Hempty & _).
  rewrite emptyCells_replicate in Hempty. rewrite length_replicate in Hglen.
  apply emptyCells_zero; lia.
Qed.

(** ** Cell availability never rejects a coverable combination *)

Lemma cellsOf_app (us vs : list Use) : cellsOf (us ++ vs) = cellsOf us ++ cellsOf vs.
Proof. unfold cellsOf. apply bind_app. Qed.

Lemma valuesOf_app (ps qs : list CandidatePair) :
  valuesOf (ps ++ qs) = valuesOf ps ++ valuesOf qs.
Proof. unfold valuesOf. apply bind_app. Qed.

Lemma member_use_sound (g : list Z) (p : CandidatePair) (u : Use) :
  p ∈ findConsistentPairs g → u ∈ p_uses p → soundUse g (p_pair p) u.
Proof.
  intros Hp Hu. destruct (candidate_sound g p Hp) as [_ Hs].
  by apply (proj1 (Forall_forall _ _) Hs).
Qed.

(** Whatever uses are chosen for the pairs, the chosen cells hold the sums
    and products of the pairs. *)
Lemma chosen_cells_values (g : list Z) (pairs : list CandidatePair) (us : list Use) :
  Forall (λ p, p ∈ findConsistentPairs g) pairs →
  Forall2 (λ p u, u ∈ p_uses p) pairs us →
  Forall2 (λ i v, g !! i = Some v) (cellsOf us) (valuesOf pairs).
Proof.
  intros Hmem Hall. induction Hall as [|p u pairs us Hu Hall IH]; [constructor|].
  apply Forall_cons in Hmem as [Hp Hmem].
  destruct (member_use_sound g p u Hp Hu) as (_ & Hm & Ha & _).
  unfold cellsOf, valuesOf. rewrite !bind_cons. simpl.
  constructor; [done|]. constructor; [done|]. by apply IH.
Qed.

Lemma count_by_value (g : list Z) (v : Z) (cells : list nat) (vals : list Z) :
  Forall2 (λ i w, g !! i = Some w) cells vals →
  length (cellsHolding g v cells) = length (filter (λ w, w = v) vals).
Proof.
  unfold cellsHolding. induction 1 as [|i w cells vals Hi _ IH]; [done|].
  rewrite !filter_cons. destruct (decide (w = v)) as [->|Hne].
  - rewrite decide_True by done. simpl. by rewrite IH.
  - rewrite decide_False by congruence. done.
Qed.

(** So the number of chosen cells that hold a given grid number depends on
    the pairs only, not on the uses chosen for them. *)
Lemma cellsHolding_length (g : list Z) (v : Z) (pairs : list CandidatePair)
    (us : list Use) :
  Forall (λ p, p ∈ findConsistentPairs g) pairs →
  Forall2 (λ p u, u ∈ p_uses p) pairs us →
  length (cellsHolding g v (cellsOf us)) = length (filter (λ w, w = v) (valuesOf pairs)).
Proof. intros. by apply count_by_value, chosen_cells_values. Qed.

Lemma pigeonhole (L G : list nat) :
  NoDup L → (length G < length L)%nat → ∃ x, x ∈ L ∧ x ∉ G.
Proof.
  intros Hnd Hlen.
  destruct (decide (Forall (λ x, x ∈ G) L)) as [Hall|Hex].
  - assert (L ⊆+ G) as Hsub.
    { apply NoDup_submseteq; [done|]. by apply Forall_forall. }
    apply submseteq_length in Hsub. lia.
  - apply not_Forall_Exists in Hex; [|apply _].
    apply Exists_exists in Hex as (x & Hx & Hout). by exists x.
Qed.

Lemma cellsHolding_elem (g : list Z) (v : Z) (cells : list nat) (i : nat) :
  i ∈ cellsHolding g v cells ↔ g !! i = Some v ∧ i ∈ cells.
Proof. unfold cellsHolding. rewrite list_elem_of_filter. done. Qed.

Lemma availableUse_Some (p : CandidatePair) (used : gset nat) (u : Use) :
  availableUse p used = Some u →
  u ∈ p_uses p ∧ (c_index (u_add u) ∉ used) ∧ (c_index (u_mult u) ∉ used).
Proof.
  unfold availableUse. intros Hfind. apply find_some in Hfind as [Hin Hun].
  unfold unclaimed in Hun. apply andb_true_iff in Hun as [H1 H2].
  apply bool_decide_eq_true in H1, H2. by rewrite list_elem_of_In.
Qed.

(** A candidate is skipped exactly when every recorded use of it has a
    claimed cell. *)
Lemma availableUse_None (p : CandidatePair) (used : gset nat) :
  availableUse p used = None ↔
  ∀ u, u ∈ p_uses p → c_index (u_add u) ∈ used ∨ c_index (u_mult u) ∈ used.
Proof.
  unfold availableUse. split.
  - intros Hnone u Hu. apply list_elem_of_In in Hu.
    pose proof (find_none _ _ Hnone u Hu) as Hun. unfold unclaimed in Hun.
    apply andb_false_iff in Hun as [H|H]; apply bool_decide_eq_false in H;
      apply dec_stable in H; [by left|by right].
  - intros Hall. destruct (find _ _) as [u|] eqn:Hfind; [|done].
    apply availableUse_Some in Hfind as (Hu & Ha & Hm).
    by destruct (Hall u Hu).
Qed.

(** A free cell holding [v], outside [taken], when the coverable
    combination needs more cells holding [v] than [taken] has. *)
Lemma free_cell (g : list Z) (v : Z) (cover taken : list nat) :
  NoDup cover →
  (length (cellsHolding g v taken) < length (cellsHolding g v cover))%nat →
  ∃ x, g !! x = Some v ∧ x ∈ cover ∧ x ∉ taken.
Proof.
  intros Hnd Hlen.
  destruct (pigeonhole (cellsHolding g v cover) (cellsHolding g v taken))
    as (x & Hx & Hout); [by apply NoDup_filter|done|].
  apply cellsHolding_elem in Hx as [Hv Hx]. exists x. split; [done|]. split; [done|].
  intros Hin. apply Hout. by apply cellsHolding_elem.
Qed.

(** The key step.  [combo ++ c :: later] is a combination of extractor
    candidates that can be put on pairwise different cells (by [us]);
    [gs] are the uses that the descent committed for [combo], whatever they
    are.  Then [c] still has an unclaimed use. *)
Lemma availableUse_in_coverable (g : list Z) (combo later : list CandidatePair)
    (c : CandidatePair) (us gs : list Use) (used : gset nat) :
  Forall (λ p, p ∈ findConsistentPairs g) (combo ++ c :: later) →
  Forall2 (λ p u, u ∈ p_uses p) (combo ++ c :: later) us →
  NoDup (cellsOf us) →
  Forall2 (λ p u, u ∈ p_uses p) combo gs →
  (∀ i, i ∈ used ↔ i ∈ cellsOf gs) →
  is_Some (availableUse c used).
Proof.
  intros Hmem Hus Hnd Hgs Hused.
  apply Forall2_app_inv_l in Hus as (us1 & us2 & Hus1 & Hus2 & ->).
  apply Forall2_cons_inv_l in Hus2 as (uc & us3 & Huc & _ & ->).
  apply Forall_app in Hmem as [Hcombo Hc]. apply Forall_cons in Hc as [Hc _].
  (* the cover of [combo ++ [c]] *)
  assert (NoDup (cellsOf (us1 ++ [uc]))) as Hnd'.
  { apply (sublist_NoDup _ (cellsOf (us1 ++ uc :: us3))); [done|].
    rewrite (cons_middle uc us1 us3), app_assoc, (cellsOf_app (us1 ++ [uc]) us3).
    by apply sublist_inserts_r. }
  assert (∀ v, length (cellsHolding g v (cellsOf (us1 ++ [uc]))) =
               (length (cellsHolding g v (cellsOf gs))
                + length (filter (λ w, w = v) (valuesOf [c])))%nat) as Hcount.
  { intros v.
    rewrite (cellsHolding_length g v (combo ++ [c]) (us1 ++ [uc])).
    - rewrite (cellsHolding_length g v combo gs) by done.
      by rewrite valuesOf_app, filter_app, length_app.
    - apply Forall_app. split; [done|]. by constructor.
    - apply Forall2_app; [done|]. by constructor. }
  destruct (candidate_sound g c Hc) as [Hle _].
  set (a := (p_pair c).1) in *. set (b := (p_pair c).2) in *.
  assert (valuesOf [c] = [a + b; a * b]) as Hvals by done.
  rewrite Hvals in Hcount. clear Hvals.
  (* a free multiplication cell and a different free addition cell *)
  assert (∃ x y, g !! x = Some (a * b) ∧ g !! y = Some (a + b) ∧ x ≠ y ∧
                 (x ∉ cellsOf gs) ∧ (y ∉ cellsOf gs)) as (x & y & Hx & Hy & Hxy & Hxg & Hyg).
  { destruct (decide (a + b = a * b)) as [Heq|Hneq].
    - pose proof (Hcount (a * b)) as H1.
      rewrite !filter_cons, Heq in H1. rewrite !decide_True in H1 by done.
      simpl in H1.
      destruct (free_cell g (a * b) (cellsOf (us1 ++ [uc])) (cellsOf gs))
        as (x & Hx & Hxc & Hxg); [done|lia|].
      destruct (free_cell g (a * b) (cellsOf (us1 ++ [uc])) (x :: cellsOf gs))
        as (y & Hy & Hyc & Hyg); [done| |].
      { unfold cellsHolding at 1. rewrite filter_cons, decide_True by done.
        fold (cellsHolding g (a * b) (cellsOf gs)). simpl. lia. }
      apply not_elem_of_cons in Hyg as [Hyx Hyg].
      exists x, y. rewrite Heq. by repeat split.
    - pose proof (Hcount (a * b)) as H1. pose proof (Hcount (a + b)) as H2.
      rewrite !filter_cons in H1, H2.
      rewrite (decide_False (P := a + b = a * b)) in H1 by done.
      rewrite (decide_True (P := a * b = a * b)) in H1 by done.
      rewrite (decide_True (P := a + b = a + b)) in H2 by done.
      rewrite (decide_False (P := a * b = a + b)) in H2 by done.
      simpl in H1, H2.
      destruct (free_cell g (a * b) (cellsOf (us1 ++ [uc])) (cellsOf gs))
        as (x & Hx & Hxc & Hxg); [done|lia|].
      destruct (free_cell g (a + b) (cellsOf (us1 ++ [uc])) (cellsOf gs))
        as (y & Hy & Hyc & Hyg); [done|lia|].
      exists x, y. repeat split; try done. intros ->. congruence. }
  destruct (candidate_complete g c x y Hc Hxy Hx Hy) as (u & Hu & Hum & Hua).
  destruct (availableUse c used) as [u'|] eqn:Hav; [by eexists|].
  destruct (proj1 (availableUse_None c used) Hav u Hu) as [Hin|Hin];
    apply Hused in Hin; congruence.
Qed.

(** ** The search as a fold over a fixed exploration order *)

Section Exploration.
Context (stripValues : list (option Z)) (maxAttempts : Z).

Lemma checkNext_stopped (l : list (list CandidatePair)) (st : SearchState) :
  stopped maxAttempts st = true → foldl (checkNext stripValues maxAttempts) st l = st.
Proof.
  intros Hstop. induction l as [|T l IH]; [done|].
  simpl. unfold checkNext at 2. by rewrite Hstop.
Qed.

Lemma searchLoop_as_fold rest :
  ∀ combo used counts st,
    searchLoop stripValues maxAttempts rest combo used counts st =
    foldl (checkNext stripValues maxAttempts) st (visitedLoop rest combo used).
Proof.
  induction rest as [|p rest IH]; intros combo used counts st; [done|].
  rewrite searchLoop_cons. cbn [visitedLoop]. case_bool_decide as Hsol.
  { rewrite checkNext_stopped; [done|].
    unfold stopped. by rewrite bool_decide_eq_true_2. }
  rewrite foldl_app, IH. f_equal.
  destruct (availableUse p used) as [use|]; [|done].
  unfold backtrackWith. destruct (stopped maxAttempts st) eqn:Hstop.
  { by rewrite checkNext_stopped. }
  case_decide as Hlen.
  - simpl. unfold checkNext. by rewrite Hstop.
  - apply IH.
Qed.

(** [findOptimalCombination] checks the combinations of [exploration] from
    left to right until it stops. *)
Lemma searchFrom_as_fold (allPairs : list CandidatePair) :
  searchFrom stripValues maxAttempts allPairs =
  foldl (checkNext stripValues maxAttempts) (mkState 0 None) (exploration allPairs).
Proof.
  unfold searchFrom, backtrack, backtrackWith, exploration.
  destruct (stopped maxAttempts (mkState 0 None)) eqn:Hstop.
  { by rewrite checkNext_stopped. }
  rewrite decide_False by done. rewrite drop_0. apply searchLoop_as_fold.
Qed.
End Exploration.

(** ** Combination search: a coverable combination is not missed *)

Section Completeness.
Context (g : list Z).

(** The descent reaches every coverable combination: when it comes to a
    pair of the combination, the pair has an unclaimed use. *)
Lemma visitedLoop_reaches rest :
  ∀ combo used c later us gs,
    c :: later `sublist_of` rest →
    coverable g (combo ++ c :: later) us →
    Forall2 (λ p u, u ∈ p_uses p) combo gs →
    (∀ i, i ∈ used ↔ i ∈ cellsOf gs) →
    combo ++ c :: later ∈ visitedLoop rest combo used.
Proof.
  induction rest as [|p rest IH]; intros combo used c later us gs
    Hsub Hcov Hgs Hused.
  { by apply sublist_nil_r in Hsub. }
  cbn [visitedLoop]. apply elem_of_app.
  apply sublist_cons_r in Hsub as [Hsub|(later' & [= -> ->] & Hsub)].
  { right. by apply (IH _ _ c later us gs). }
  left. destruct Hcov as (Hmem & Hlen & Hus & Hnd).
  destruct (availableUse_in_coverable g combo later' p us gs used Hmem Hus Hnd Hgs Hused)
    as [use Huse].
  rewrite Huse. apply availableUse_Some in Huse as (Hin & Ha & Hmu).
  rewrite length_app in Hlen. simpl in Hlen.
  case_decide as Hfull; rewrite length_app in Hfull; simpl in Hfull.
  - destruct later' as [|c' later']; [|simpl in Hlen; lia]. by left.
  - destruct later' as [|c' later']; [simpl in Hlen; lia|].
    rewrite (cons_middle p combo (c' :: later')), app_assoc.
    apply (IH _ _ c' later' us (gs ++ [use])); [done| | |].
    + rewrite <- app_assoc. simpl. repeat split; try done.
      rewrite length_app. simpl. simpl in Hlen. lia.
    + apply Forall2_app; [done|]. by constructor.
    + intros i. rewrite cellsOf_app.
      change (cellsOf [use]) with [c_index (u_add use); c_index (u_mult use)].
      rewrite elem_of_app, !elem_of_cons, elem_of_nil.
      rewrite !elem_of_union, !elem_of_singleton, Hused. tauto.
Qed.

Lemma exploration_complete (T : list CandidatePair) (us : list Use) :
  T `sublist_of` findConsistentPairs g → length T = 8%nat →
  Forall2 (λ p u, u ∈ p_uses p) T us → NoDup (cellsOf us) →
  T ∈ exploration (findConsistentPairs g).
Proof.
  intros Hsub Hlen Hus Hnd. destruct T as [|c later]; [done|].
  apply (visitedLoop_reaches _ [] ∅ c later us []); [done| |constructor|].
  - split; [|by repeat split].
    apply Forall_forall. intros p Hp. by eapply elem_of_sublist.
  - intros i. change (cellsOf []) with (@nil nat). set_solver.
Qed.

Context (stripValues : list (option Z)) (maxAttempts : Z).

Lemma stopped_settled st : stopped maxAttempts st = true ↔ settled maxAttempts st.
Proof.
  unfold stopped, settled. by rewrite orb_true_iff, bool_decide_eq_true, Z.ltb_lt.
Qed.

(** Checking a combination that matches the strip and fits the 16 cells
    settles the search. *)
Lemma checkNext_settles T us st :
  matchesKnownValues (buildStripFromPairs T) stripValues = true →
  Forall2 (λ p u, u ∈ p_uses p) T us → cellsOf us ≡ₚ seq 0 16 →
  settled maxAttempts (checkNext stripValues maxAttempts st T).
Proof.
  intros Hm Hus Hperm. unfold checkNext.
  destruct (stopped maxAttempts st) eqn:Hstop; [by apply stopped_settled|].
  left. unfold evaluate. rewrite Hm.
  destruct (findGridAssignment_complete T us (replicate 16 None) Hus)
    as [r ->]; [by rewrite Hperm; apply NoDup_seq| |by eexists].
  intros i Hi. rewrite Hperm in Hi. apply elem_of_seq in Hi.
  apply lookup_replicate_2. lia.
Qed.

Lemma fold_settles (l : list (list CandidatePair)) T us st :
  T ∈ l →
  matchesKnownValues (buildStripFromPairs T) stripValues = true →
  Forall2 (λ p u, u ∈ p_uses p) T us → cellsOf us ≡ₚ seq 0 16 →
  settled maxAttempts (foldl (checkNext stripValues maxAttempts) st l).
Proof.
  intros Hin Hm Hus Hperm. revert st.
  induction l as [|T' l IH]; intros st; [by apply elem_of_nil in Hin|].
  apply elem_of_cons in Hin as [<-|Hin]; [|by apply IH].
  simpl. rewrite checkNext_stopped; [by eapply checkNext_settles|].
  apply stopped_settled. by eapply checkNext_settles.
Qed.

(** If some combination of extractor candidates matches the strip and can
    be put on the 16 cells, each once, the search ends with a solution
    unless the budget was exceeded. *)
Lemma searchFrom_complete (T : list CandidatePair) (us : list Use) :
  T `sublist_of` findConsistentPairs g → length T = 8%nat →
  matchesKnownValues (buildStripFromPairs T) stripValues = true →
  Forall2 (λ p u, u ∈ p_uses p) T us → cellsOf us ≡ₚ seq 0 16 →
  settled maxAttempts (searchFrom stripValues maxAttempts (findConsistentPairs g)).
Proof.
  intros Hsub Hlen Hm Hus Hperm. rewrite searchFrom_as_fold.
  apply (fold_settles _ T us); [|done|done|done].
  apply (exploration_complete T us); [done|done|done|].
  rewrite Hperm. apply NoDup_seq.
Qed.
End Completeness.

(** ** Two budgets *)

Section TwoBudgets.
Context (stripValues : list (option Z)) (m1 m2 : Z).
Hypothesis Hbudgets : m1 ≤ m2.

Lemma cut_stays rest combo used counts st :
  cut m1 st → searchLoop stripValues m1 rest combo used counts st = st.
Proof.
  intros [Hnone Hlt]. revert combo used counts.
  induction rest as [|p rest IH]; intros combo used counts; [done|].
  rewrite searchLoop_cons. rewrite Hnone. rewrite bool_decide_eq_false_2
    by (by intros [? ?]).
  destruct (availableUse p used) as [use|]; [|apply IH].
  unfold backtrackWith, stopped. rewrite Hnone.
  rewrite (proj2 (Z.ltb_lt m1 (tested st)) Hlt), orb_true_r. apply IH.
Qed.

Lemma searchLoop_inStep rest :
  ∀ combo used counts st1 st2,
    inStep m1 st1 st2 →
    inStep m1 (searchLoop stripValues m1 rest combo used counts st1)
           (searchLoop stripValues m2 rest combo used counts st2).
Proof.
  induction rest as [|p rest IH]; intros combo used counts st1 st2 Hst; [done|].
  destruct Hst as [<-|Hcut]; [|right; by rewrite cut_stays].
  rewrite !searchLoop_cons. case_bool_decide as Hsol; [by left|].
  apply eq_None_not_Some in Hsol.
  apply IH. destruct (availableUse p used) as [use|]; [|by left].
  unfold backtrackWith, stopped. rewrite Hsol.
  rewrite bool_decide_eq_false_2 by (by intros [? ?]). simpl.
  destruct (Z.ltb_spec m1 (tested st1)) as [Hlt|Hge]; [by right|].
  rewrite (proj2 (Z.ltb_ge m2 (tested st1))) by lia.
  case_decide; [by left|]. apply IH. by left.
Qed.

Lemma searchFrom_inStep (allPairs : list CandidatePair) :
  inStep m1 (searchFrom stripValues m1 allPairs) (searchFrom stripValues m2 allPairs).
Proof.
  unfold searchFrom, backtrack, backtrackWith, stopped. simpl.
  destruct (Z.ltb_spec m1 0) as [Hlt|Hge]; [by right|].
  rewrite (proj2 (Z.ltb_ge m2 0)) by lia.
  apply searchLoop_inStep. by left.
Qed.
End TwoBudgets.

(** ** [solve] and the first combination that passes *)

Section FirstValid.
Context (stripValues : list (option Z)) (maxAttempts : Z).

Lemma evaluate_passes combo st :
  passes stripValues combo →
  ∃ assignment,
    findGridAssignment combo (replicate 16 None) = Some assignment ∧
    evaluate stripValues combo st =
      mkState (tested st + 1)
        (Some (mkFound (buildStripFromPairs combo) assignment (tested st + 1))).
Proof.
  intros [Hm [assignment Ha]]. exists assignment. split; [done|].
  unfold evaluate. by rewrite Hm, Ha.
Qed.

Lemma evaluate_fails combo st :
  ¬ passes stripValues combo →
  evaluate stripValues combo st = mkState (tested st + 1) (solution st).
Proof.
  intros Hno. unfold evaluate.
  destruct (matchesKnownValues _ _) eqn:Hm; [|done].
  destruct (findGridAssignment _ _) as [a|] eqn:Ha; [|done].
  exfalso. apply Hno. split; [done|by eexists].
Qed.

Lemma fold_solution (l : list (list CandidatePair)) :
  ∀ st, solution st = None →
    (λ f, mkSolution (f_strip f) (f_grid f)) <$>
      solution (foldl (checkNext stripValues maxAttempts) st l) =
    match list_find (passes stripValues) l with
    | Some (k, combo) =>
        if bool_decide (tested st + Z.of_nat k ≤ maxAttempts) then solutionOf combo
        else None
    | None => None
    end.
Proof.
  induction l as [|combo l IH]; intros st Hnone; [simpl; by rewrite Hnone|].
  cbn [foldl list_find]. unfold checkNext at 2.
  destruct (stopped maxAttempts st) eqn:Hstop.
  - rewrite checkNext_stopped by done. rewrite Hnone.
    apply stopped_settled in Hstop as [[? Hs]|Hlt]; [congruence|].
    destruct (decide (passes stripValues combo)).
    + rewrite bool_decide_eq_false_2 by lia. done.
    + destruct (list_find _ l) as [[k combo']|]; [|done]. simpl.
      rewrite bool_decide_eq_false_2 by lia. done.
  - apply stopped_false in Hstop as [_ Hle].
    destruct (decide (passes stripValues combo)) as [Hp|Hp].
    + destruct (evaluate_passes combo st Hp) as (a & Ha & ->).
      rewrite checkNext_stopped by (unfold stopped; by rewrite bool_decide_eq_true_2).
      rewrite bool_decide_eq_true_2 by lia. unfold solutionOf. by rewrite Ha.
    + rewrite (evaluate_fails combo st Hp). rewrite IH by done. simpl.
      destruct (list_find _ l) as [[k combo']|]; [|done]. simpl.
      rewrite (bool_decide_ext (tested st + 1 + Z.of_nat k ≤ maxAttempts)
                 (tested st + Z.of_nat (S k) ≤ maxAttempts)) by lia. done.
Qed.

Lemma fold_tested (l : list (list CandidatePair)) :
  ∀ st, solution st = None →
    tested (foldl (checkNext stripValues maxAttempts) st l) =
    if decide (maxAttempts < tested st) then tested st
    else Z.min (maxAttempts + 1) (tested st + Z.of_nat (checksNeeded stripValues l)).
Proof.
  induction l as [|combo l IH]; intros st Hnone.
  { simpl. case_decide; [done|]. unfold checksNeeded. simpl. lia. }
  cbn [foldl]. unfold checkNext at 2.
  destruct (stopped maxAttempts st) eqn:Hstop.
  - rewrite checkNext_stopped by done.
    apply stopped_settled in Hstop as [[? Hs]|Hlt]; [congruence|].
    by rewrite decide_True.
  - apply stopped_false in Hstop as [_ Hle]. rewrite decide_False by lia.
    unfold checksNeeded. cbn [list_find].
    destruct (decide (passes stripValues combo)) as [Hp|Hp].
    + destruct (evaluate_passes combo st Hp) as (a & Ha & ->).
      rewrite checkNext_stopped by (unfold stopped; by rewrite bool_decide_eq_true_2).
      simpl. lia.
    + rewrite (evaluate_fails combo st Hp). rewrite IH by done. simpl.
      unfold checksNeeded.
      destruct (list_find _ l) as [[k combo']|]; simpl; case_decide; lia.
Qed.
End FirstValid.

(** A combination that passes both tests at a position of the exploration
    order within the budget: [solve] returns a [Solution]. *)
Lemma solve_reaches_position g s m combo k :
  exploration (findConsistentPairs g) !! k = Some combo →
  passes s combo → Z.of_nat k ≤ m →
  is_Some (solve g s m).
Proof.
  intros Hk Hp Hle.
  pose proof (fold_solution s m (exploration (findConsistentPairs g))
                (mkState 0 None) eq_refl) as Hfold.
  rewrite <- searchFrom_as_fold in Hfold.
  destruct (list_find (passes s) (exploration (findConsistentPairs g)))
    as [[k' first]|] eqn:Hfind.
  - apply list_find_Some in Hfind as (Hk' & [_ [a Ha]] & Hmin).
    assert (k' ≤ k)%nat as Hkk.
    { destruct (decide (k' ≤ k)%nat) as [|Hgt]; [done|].
      exfalso. apply (Hmin k combo); [done|lia|done]. }
    rewrite bool_decide_eq_true_2 in Hfold by (simpl; lia).
    unfold solutionOf in Hfold. rewrite Ha in Hfold.
    destruct (solution (searchFrom s m (findConsistentPairs g))) as [f|] eqn:Hf;
      [|done].
    exists (mkSolution (f_strip f) (f_grid f)). apply solve_Some. by exists f.
  - exfalso. apply list_find_None in Hfind.
    apply (proj1 (Forall_forall _ _) Hfind combo); [|done].
    by eapply list_elem_of_lookup_2.
Qed.

(** * The claims *)

(** ** The example inputs, run *)

Example plain_candidates :
  findConsistentPairs plainGrid =
  zip_with mkCandidate
    [(3, 4); (4, 17); (6, 19); (7, 8); (9, 24); (10, 13); (14, 23); (14, 25)]
    ((λ u, [u]) <$> plainUses).
Proof. vm_compute. reflexivity. Qed.

Example plain_solved : solve plainGrid plainStrip 50000 = Some plainSolution.
Proof. vm_compute. reflexivity. Qed.

Example sample_solved_on_second_check :
  length (exploration (findConsistentPairs sampleGrid)) = 2%nat ∧
  tested (solveState sampleGrid sampleStrip 50000) = 2 ∧
  strip <$> solve sampleGrid sampleStrip 50000
    = Some [1; 2; 2; 5; 6; 6; 8; 10; 14; 16; 21; 23; 24; 26; 28; 42].
Proof. split; [|split]; vm_compute; reflexivity. Qed.

(** ** C9: the divisor search on zero and negative numbers *)

(** C9.  For every integer [n <= 0], [getDivisorPairs n] is defined (the
    loop has no iteration to run) and is the empty list. *)
Theorem getDivisorPairs_nonpositive (n : Z) :
  n ≤ 0 → divisorCandidates n = [] ∧ getDivisorPairs n = [].
Proof.
  intros Hn. assert (Z.sqrt n = 0) as Hs.
  { destruct (Z.eq_dec n 0) as [->|Hne]; [done|]. apply Z.sqrt_neg. lia. }
  unfold getDivisorPairs, divisorCandidates. by rewrite Hs.
Qed.

Lemma getDivisorPairs_nonpositive_witness :
  -6 ≤ 0 ∧ divisorCandidates (-6) = [] ∧ getDivisorPairs (-6) = [].
Proof. split; [lia|]. apply (getDivisorPairs_nonpositive (-6)). lia. Defined.

(** ** C6: what the extractor records *)

(** C6.  For every grid, every candidate pair [(lo, hi)] returned by
    [findConsistentPairs] and every use recorded for it: the grid holds
    [lo * hi] at the use's multiplication index and [lo + hi] at its addition
    index, the two indices differ, and [lo <= hi]. *)
Theorem extractor_uses_consistent (gridNumbers : list Z) (c : CandidatePair) (u : Use) :
  c ∈ findConsistentPairs gridNumbers → u ∈ p_uses c →
  gridNumbers !! c_index (u_mult u) = Some ((p_pair c).1 * (p_pair c).2) ∧
  gridNumbers !! c_index (u_add u) = Some ((p_pair c).1 + (p_pair c).2) ∧
  c_index (u_add u) ≠ c_index (u_mult u) ∧
  (p_pair c).1 ≤ (p_pair c).2.
Proof.
  intros Hc Hu. destruct (candidate_sound _ _ Hc) as [[_ Hle] _].
  destruct (member_use_sound _ _ _ Hc Hu) as (Hne & Hm & Ha & _). done.
Qed.

Lemma extractor_uses_consistent_witness :
  let u := mkUse (mkCell 12 0) (mkCell 7 1) in
  let c := mkCandidate (3, 4) [u] in
  c ∈ findConsistentPairs [12; 7] ∧ u ∈ p_uses c ∧
  [12; 7] !! c_index (u_mult u) = Some ((p_pair c).1 * (p_pair c).2) ∧
  [12; 7] !! c_index (u_add u) = Some ((p_pair c).1 + (p_pair c).2) ∧
  c_index (u_add u) ≠ c_index (u_mult u) ∧
  (p_pair c).1 ≤ (p_pair c).2.
Proof.
  intros u c.
  assert (c ∈ findConsistentPairs [12; 7]) as Hc by (vm_compute; left).
  assert (u ∈ p_uses c) as Hu by (vm_compute; left).
  split; [exact Hc|]. split; [exact Hu|].
  exact (extractor_uses_consistent [12; 7] c u Hc Hu).
Defined.

(** ** C5 and C10: what a returned [Solution] is *)

(** C5.  Every [Solution] returned by [solve] is fully verified: its strip
    is the 16 numbers of 8 candidate pairs sorted ascending and equals the
    input strip at every non-null position; its grid gives every one of the
    16 indices exactly one equation, 8 of them additions and 8
    multiplications, one of each per pair. *)
Theorem solution_fully_verified (gridNumbers : list Z) (stripValues : list (option Z))
    (maxAttempts : Z) (sol : Solution) :
  solve gridNumbers stripValues maxAttempts = Some sol →
  fullyVerified gridNumbers stripValues sol.
Proof.
  intros (combo & us & Hsub & Hlen & Hstrip & Hm & Hass)%solve_anatomy.
  exists combo, us. split; [done|]. split; [done|].
  apply matchesKnownValues_spec in Hm as [Hlen' Hknown].
  destruct (assignedBy_counts _ _ _ _ Hass) as (Hglen & Hempty & Hplus & Htimes).
  destruct (assignedBy_cells _ _ _ _ Hass) as (Hall & _ & _).
  rewrite emptyCells_replicate in Hempty. rewrite !opCells_replicate in *.
  rewrite length_replicate in Hglen. unfold stripVerified, gridVerified. split.
  - rewrite Hstrip. split; [by rewrite length_buildStripFromPairs, Hlen|].
    split; [apply buildStripFromPairs_sorted|].
    split; [apply buildStripFromPairs_perm|]. by rewrite <- Hstrip.
  - split; [done|]. split; [apply (assignedBy_covers _ _ _ _ Hass); lia|].
    split; [done|]. split.
    { intros i Hi. apply emptyCells_zero; lia. }
    split; [|lia].
    intros k p u Hp Hu. by apply (assignedBy_written _ _ _ _ k p u Hass).
Qed.

Lemma solution_fully_verified_witness :
  solve plainGrid plainStrip 50000 = Some plainSolution ∧
  fullyVerified plainGrid plainStrip plainSolution.
Proof.
  assert (solve plainGrid plainStrip 50000 = Some plainSolution) as H
    by (vm_compute; reflexivity).
  split; [exact H|].
  exact (solution_fully_verified plainGrid plainStrip 50000 plainSolution H).
Defined.

(** C10.  In every [Solution] returned by [solve], the equation assigned to
    a cell evaluates to the grid number of that cell: a cell [i] holding
    [(num1, '+', num2)] has [gridNumbers[i] = num1 + num2], and a cell
    holding a multiplication has [gridNumbers[i] = num1 * num2]. *)
Theorem solution_equations_hold (gridNumbers : list Z) (stripValues : list (option Z))
    (maxAttempts : Z) (sol : Solution) (i : nat) (e : Equation) :
  solve gridNumbers stripValues maxAttempts = Some sol →
  grid sol !! i = Some (Some e) →
  match op e with
  | Plus => gridNumbers !! i = Some (num1 e + num2 e)
  | Times => gridNumbers !! i = Some (num1 e * num2 e)
  end.
Proof.
  intros Hsol Hi.
  pose proof (solve_equationsHold _ _ _ _ Hsol i e Hi) as Hold.
  unfold evalEquation in Hold. by destruct (op e).
Qed.

Lemma solution_equations_hold_witness :
  solve plainGrid plainStrip 50000 = Some plainSolution ∧
  grid plainSolution !! 2%nat = Some (Some (mkEquation 4 Times 17)) ∧
  plainGrid !! 2%nat = Some (4 * 17).
Proof.
  assert (solve plainGrid plainStrip 50000 = Some plainSolution) as H
    by (vm_compute; reflexivity).
  split; [exact H|]. split; [reflexivity|].
  exact (solution_equations_hold plainGrid plainStrip 50000 plainSolution 2
           (mkEquation 4 Times 17) H eq_refl).
Defined.

(** ** C7: budget monotonicity *)

(** C7.  For budgets [m1 <= m2]: a [Solution] returned with budget [m1] is
    returned, the same, with budget [m2]; and a search with budget [m1]
    that ended within its budget ends in the same state with budget [m2],
    so that only a budget-exhausted not-found can change when the budget
    grows. *)
Theorem budget_monotone (gridNumbers : list Z) (stripValues : list (option Z))
    (m1 m2 : Z) :
  m1 ≤ m2 →
  (∀ sol, solve gridNumbers stripValues m1 = Some sol →
          solve gridNumbers stripValues m2 = Some sol) ∧
  (tested (solveState gridNumbers stripValues m1) ≤ m1 →
   solveState gridNumbers stripValues m2 = solveState gridNumbers stripValues m1).
Proof.
  intros Hle.
  pose proof (searchFrom_inStep stripValues m1 m2 Hle (findConsistentPairs gridNumbers))
    as Hstep.
  fold (solveState gridNumbers stripValues m1) in Hstep.
  fold (solveState gridNumbers stripValues m2) in Hstep. split.
  - intros sol (f & Hf & ->)%solve_Some. apply solve_Some. exists f. split; [|done].
    destruct Hstep as [<-|[Hcut _]]; [done|congruence].
  - intros Hwithin. destruct Hstep as [<-|[_ Hcut]]; [done|lia].
Qed.

Lemma budget_monotone_witness :
  0 ≤ 50000 ∧
  (∀ sol, solve plainGrid plainStrip 0 = Some sol →
          solve plainGrid plainStrip 50000 = Some sol) ∧
  (tested (solveState plainGrid plainStrip 0) ≤ 0 →
   solveState plainGrid plainStrip 50000 = solveState plainGrid plainStrip 0).
Proof. split; [lia|]. apply (budget_monotone plainGrid plainStrip 0 50000). lia. Defined.

(** ** C8: determinism *)

(** C8.  Two calls of [solve] with identical arguments extract the same
    candidate list in the same order, explore the same full combinations in
    the same order, leave the search in the same final state and return
    identical results.  The final state is the left-to-right fold of the
    check over that exploration order, which the grid alone determines:
    nothing else enters. *)
Theorem solve_deterministic (g1 g2 : list Z) (s1 s2 : list (option Z)) (m1 m2 : Z) :
  g1 = g2 → s1 = s2 → m1 = m2 →
  findConsistentPairs g1 = findConsistentPairs g2 ∧
  exploration (findConsistentPairs g1) = exploration (findConsistentPairs g2) ∧
  solveState g1 s1 m1 =
    foldl (checkNext s2 m2) (mkState 0 None) (exploration (findConsistentPairs g2)) ∧
  solveState g1 s1 m1 = solveState g2 s2 m2 ∧
  solve g1 s1 m1 = solve g2 s2 m2.
Proof.
  intros -> -> ->. repeat split. apply searchFrom_as_fold.
Qed.

Lemma solve_deterministic_witness :
  findConsistentPairs sampleGrid = findConsistentPairs sampleGrid ∧
  exploration (findConsistentPairs sampleGrid)
    = exploration (findConsistentPairs sampleGrid) ∧
  solveState sampleGrid sampleStrip 50000 =
    foldl (checkNext sampleStrip 50000) (mkState 0 None)
      (exploration (findConsistentPairs sampleGrid)) ∧
  solveState sampleGrid sampleStrip 50000 = solveState sampleGrid sampleStrip 50000 ∧
  solve sampleGrid sampleStrip 50000 = solve sampleGrid sampleStrip 50000.
Proof.
  exact (solve_deterministic sampleGrid sampleGrid sampleStrip sampleStrip
           50000 50000 eq_refl eq_refl eq_refl).
Defined.

(** ** C1: the availability pruning *)

(** C1.  A candidate is skipped exactly when each of its recorded uses has
    a claimed cell.  And whenever eight extractor candidates (in list order)
    match the known strip positions and can be put on uses whose 16 cells
    are the 16 grid indices, each once, whatever uses those are, the
    descent reaches that combination; if its position [k] in the exploration
    order (counted from 0, so that it is the [k + 1]-th combination checked)
    is within the attempt budget, [solve] returns a [Solution], whose strip
    agrees with the known values and whose grid gives each of the 16 cells
    an equation that evaluates to its number.  [k <= maxAttempts] is enough
    for that, which includes [k + 1 <= maxAttempts].  Also a search that
    ends with its counter within the budget has returned a [Solution]. *)
Theorem pruning_keeps_coverable_combinations (gridNumbers : list Z)
    (stripValues : list (option Z)) (maxAttempts : Z) :
  (∀ p usedIndices,
     availableUse p usedIndices = None ↔
     ∀ u, u ∈ p_uses p →
          c_index (u_add u) ∈ usedIndices ∨ c_index (u_mult u) ∈ usedIndices) ∧
  (∀ combo us,
     combo `sublist_of` findConsistentPairs gridNumbers →
     length combo = 8%nat →
     matchesKnownValues (buildStripFromPairs combo) stripValues = true →
     Forall2 (λ p u, u ∈ p_uses p) combo us →
     cellsOf us ≡ₚ seq 0 16 →
     combo ∈ exploration (findConsistentPairs gridNumbers) ∧
     (∀ k, exploration (findConsistentPairs gridNumbers) !! k = Some combo →
           Z.of_nat k ≤ maxAttempts →
           ∃ sol, solve gridNumbers stripValues maxAttempts = Some sol ∧
                  matchesKnownValues (strip sol) stripValues = true ∧
                  equationsHold gridNumbers (grid sol) ∧
                  ∀ i, (i < 16)%nat → ∃ e, grid sol !! i = Some (Some e)) ∧
     (tested (solveState gridNumbers stripValues maxAttempts) ≤ maxAttempts →
      is_Some (solve gridNumbers stripValues maxAttempts))).
Proof.
  split; [apply availableUse_None|].
  intros combo us Hsub Hlen Hm Hus Hperm. split; [|split].
  - apply (exploration_complete gridNumbers combo us); [done|done|done|].
    rewrite Hperm. apply NoDup_seq.
  - intros k Hk Hle.
    assert (passes stripValues combo) as Hp.
    { split; [done|].
      apply (findGridAssignment_complete combo us); [done| |].
      - rewrite Hperm. apply NoDup_seq.
      - intros i Hi. rewrite Hperm in Hi. apply elem_of_seq in Hi.
        apply lookup_replicate_2. lia. }
    destruct (solve_reaches_position gridNumbers stripValues maxAttempts combo k
                Hk Hp Hle) as [sol Hsol].
    exists sol. split; [done|].
    destruct (solve_anatomy _ _ _ _ Hsol) as (_ & _ & _ & _ & _ & Hmatch & _).
    split; [done|]. split; [by eapply solve_equationsHold|].
    intros i Hi. by eapply solve_grid_total.
  - intros Hwithin.
    destruct (searchFrom_complete gridNumbers stripValues maxAttempts combo us
                Hsub Hlen Hm Hus Hperm) as [[f Hf]|Hover].
    + exists (mkSolution (f_strip f) (f_grid f)). apply solve_Some. by exists f.
    + unfold solveState in Hwithin. lia.
Qed.

Lemma pruning_keeps_coverable_combinations_witness :
  sampleCombo `sublist_of` findConsistentPairs sampleGrid ∧
  length sampleCombo = 8%nat ∧
  matchesKnownValues (buildStripFromPairs sampleCombo) sampleStrip = true ∧
  Forall2 (λ p u, u ∈ p_uses p) sampleCombo sampleUses ∧
  cellsOf sampleUses ≡ₚ seq 0 16 ∧
  exploration (findConsistentPairs sampleGrid) !! 1%nat = Some sampleCombo ∧
  Z.of_nat 1 ≤ 2 ∧
  sampleCombo ∈ exploration (findConsistentPairs sampleGrid) ∧
  ∃ sol, solve sampleGrid sampleStrip 2 = Some sol ∧
         matchesKnownValues (strip sol) sampleStrip = true ∧
         equationsHold sampleGrid (grid sol) ∧
         ∀ i, (i < 16)%nat → ∃ e, grid sol !! i = Some (Some e).
Proof.
  assert (sampleCombo `sublist_of` findConsistentPairs sampleGrid) as Hsub
    by apply sublist_filter.
  assert (length sampleCombo = 8%nat) as Hlen by (vm_compute; reflexivity).
  assert (matchesKnownValues (buildStripFromPairs sampleCombo) sampleStrip = true)
    as Hm by (vm_compute; reflexivity).
  assert (Forall2 (λ p u, u ∈ p_uses p) sampleCombo sampleUses) as Hus
    by (apply (bool_decide_unpack _); vm_compute; exact I).
  assert (cellsOf sampleUses ≡ₚ seq 0 16) as Hperm
    by (apply (bool_decide_unpack _); vm_compute; exact I).
  assert (exploration (findConsistentPairs sampleGrid) !! 1%nat = Some sampleCombo)
    as Hk by (vm_compute; reflexivity).
  assert (Z.of_nat 1 ≤ 2) as Hle by (simpl; lia).
  split; [exact Hsub|]. split; [exact Hlen|]. split; [exact Hm|].
  split; [exact Hus|]. split; [exact Hperm|]. split; [exact Hk|].
  split; [exact Hle|].
  destruct (proj2 (pruning_keeps_coverable_combinations sampleGrid sampleStrip 2)
              sampleCombo sampleUses Hsub Hlen Hm Hus Hperm)
    as (Hreached & Hsolved & _).
  split; [exact Hreached|exact (Hsolved 1%nat Hk Hle)].
Defined.

(** ** C3: the negative outcomes of [solve] *)

(** C3 as stated fails: the result of [solve] does not tell whether the
    budget was exceeded.  On the sample puzzle with budget 0 the search is
    cut after one check (budget 1 finds the solution); on the plain grid
    with a strip that nothing matches the search explores everything well
    within its budget.  [solve] returns the same [None] for both. *)
Lemma negative_outcomes_not_distinguished :
  ¬ (∀ g s m g' s' m',
       solve g s m = None → solve g' s' m' = None →
       (m < tested (solveState g s m) ↔ m' < tested (solveState g' s' m'))).
Proof.
  intros Hclaim.
  assert (solve sampleGrid sampleStrip 0 = None) as H1 by (vm_compute; reflexivity).
  assert (solve plainGrid zeroStrip 50000 = None) as H2 by (vm_compute; reflexivity).
  destruct (Hclaim _ _ _ _ _ _ H1 H2) as [Hcut _].
  assert (0 < tested (solveState sampleGrid sampleStrip 0)) as Hlt
    by (vm_compute; reflexivity).
  specialize (Hcut Hlt). vm_compute in Hcut. discriminate Hcut.
Qed.

(** C3, amended.  [solve] has one negative outcome, [null]: when the search
    ended without a solution it returns [null] both when the counter passed
    [maxAttempts] and when it did not. *)
Theorem solve_reports_single_not_found (gridNumbers : list Z)
    (stripValues : list (option Z)) (maxAttempts : Z) :
  solution (solveState gridNumbers stripValues maxAttempts) = None →
  (maxAttempts < tested (solveState gridNumbers stripValues maxAttempts) →
   solve gridNumbers stripValues maxAttempts = None) ∧
  (tested (solveState gridNumbers stripValues maxAttempts) ≤ maxAttempts →
   solve gridNumbers stripValues maxAttempts = None).
Proof. intros Hnone. split; intros _; by apply solve_None. Qed.

Lemma solve_reports_single_not_found_witness :
  solution (solveState sampleGrid sampleStrip 0) = None ∧
  (0 < tested (solveState sampleGrid sampleStrip 0) →
   solve sampleGrid sampleStrip 0 = None) ∧
  (tested (solveState sampleGrid sampleStrip 0) ≤ 0 →
   solve sampleGrid sampleStrip 0 = None).
Proof.
  assert (solution (solveState sampleGrid sampleStrip 0) = None) as H
    by (vm_compute; reflexivity).
  split; [exact H|]. exact (solve_reports_single_not_found sampleGrid sampleStrip 0 H).
Defined.

(** ** C4: malformed input *)

(** C4 as stated fails: a call with a malformed grid gets one of the two
    normal outcomes.  A two-cell grid gives [None], the not-found value; a
    17-cell grid gives a [Solution]. *)
Lemma malformed_input_not_reported :
  ¬ (∀ g s m, length g ≠ 16%nat ∨ length s ≠ 16%nat →
              solve g s m ≠ None ∧ ¬ is_Some (solve g s m)).
Proof.
  intros Hclaim.
  destruct (Hclaim [12; 7] plainStrip 50000) as [Hshort _]; [left; simpl; lia|].
  apply Hshort. vm_compute. reflexivity.
Qed.

Example malformed_long_grid_solved :
  length (plainGrid ++ [7]) = 17%nat ∧
  solve (plainGrid ++ [7]) plainStrip 50000 = Some plainSolution.
Proof. split; vm_compute; reflexivity. Qed.

(** C4, amended.  [solve] has no malformed-input outcome: for a strip that
    is not of length 16, and for a grid of fewer than 16 numbers, it returns
    [null], the value it returns when nothing is found. *)
Theorem malformed_input_gives_not_found (gridNumbers : list Z)
    (stripValues : list (option Z)) (maxAttempts : Z) :
  length stripValues ≠ 16%nat ∨ (length gridNumbers < 16)%nat →
  solve gridNumbers stripValues maxAttempts = None.
Proof.
  intros Hbad.
  destruct (solve gridNumbers stripValues maxAttempts) as [sol|] eqn:Hsol; [|done].
  exfalso.
  pose proof (solve_anatomy _ _ _ _ Hsol) as (combo & us & _ & Hlen & Hstrip & Hm & _).
  apply matchesKnownValues_spec in Hm as [Hlen' _].
  rewrite Hstrip, length_buildStripFromPairs, Hlen in Hlen'.
  destruct Hbad as [Hs|Hg]; [simpl in Hlen'; lia|].
  destruct (solve_grid_total _ _ _ _ 15%nat Hsol) as [e He]; [lia|].
  pose proof (solve_equationsHold _ _ _ _ Hsol _ _ He) as Hcell.
  apply lookup_lt_Some in Hcell. lia.
Qed.

Lemma malformed_input_gives_not_found_witness :
  (length (take 15 plainStrip) ≠ 16%nat ∨ (length plainGrid < 16)%nat) ∧
  solve plainGrid (take 15 plainStrip) 50000 = None.
Proof.
  assert (length (take 15 plainStrip) ≠ 16%nat ∨ (length plainGrid < 16)%nat) as H
    by (left; vm_compute; discriminate).
  split; [exact H|].
  exact (malformed_input_gives_not_found plainGrid (take 15 plainStrip) 50000 H).
Defined.

(** ** C2: the attempt budget *)

(** The counter stays within [maxAttempts + 1]; the next theorem shows that
    it gets there. *)
Lemma tested_bound (gridNumbers : list Z) (stripValues : list (option Z))
    (maxAttempts : Z) :
  0 ≤ tested (solveState gridNumbers stripValues maxAttempts)
    ≤ Z.max 0 (maxAttempts + 1).
Proof. apply searchFrom_tested_bound. Qed.

(** C2 at failing inputs.  With [maxAttempts = 0] the search on the plain
    puzzle evaluates one full combination ([tested] ends at 1), and that
    check even yields the solution; with [maxAttempts = 1] the search on the
    sample puzzle evaluates two and returns the solution found by the
    second.  The guard [tested > maxAttempts] is read before the increment,
    so [maxAttempts + 1] checks are made. *)
Theorem one_check_beyond_budget :
  (tested (solveState plainGrid plainStrip 0) = 1 ∧
   solve plainGrid plainStrip 0 = Some plainSolution) ∧
  (tested (solveState sampleGrid sampleStrip 1) = 2 ∧
   solve sampleGrid sampleStrip 1 = solve sampleGrid sampleStrip 50000 ∧
   solve sampleGrid sampleStrip 0 = None).
Proof. split; [split|split; [|split]]; vm_compute; reflexivity. Qed.

(** * Further properties of the solver *)

(** ** The divisor search *)

Lemma StronglySorted_sublist {A} (R : relation A) (l k : list A) :
  l `sublist_of` k → StronglySorted R k → StronglySorted R l.
Proof.
  induction 1 as [|x l k Hsub IH|x l k Hsub IH]; intros Hk; [done| |].
  - apply StronglySorted_inv in Hk as [Hk Hx]. constructor; [by apply IH|].
    apply Forall_forall. intros y Hy. apply (proj1 (Forall_forall _ _) Hx).
    by eapply elem_of_sublist.
  - apply StronglySorted_inv in Hk as [Hk _]. by apply IH.
Qed.

Lemma divisor_fold_firsts (n : Z) (l : list Z) (acc : list (Z * Z)) :
  Forall (λ i, 1 ≤ i ≤ Z.sqrt n) l →
  (foldl (divisorStep n) acc l).*1 = acc.*1 ++ filter (λ i, Z.rem n i = 0) l.
Proof.
  revert acc. induction l as [|i l IH]; intros acc Hl; simpl.
  - by rewrite app_nil_r.
  - apply Forall_cons in Hl as [Hi Hl]. rewrite IH by done.
    unfold divisorStep. rewrite filter_cons.
    destruct (Z.eqb_spec (Z.rem n i) 0) as [Hr|Hr].
    + rewrite decide_True by done. rewrite fmap_app, <- app_assoc. simpl.
      do 2 f_equal. apply Z.min_l.
      assert (0 ≤ n) as Hn.
      { destruct (Z.le_gt_cases 0 n) as [|Hneg]; [done|].
        rewrite (Z.sqrt_neg n Hneg) in Hi. lia. }
      pose proof (Z.quot_rem' n i) as Hq. rewrite Hr in Hq.
      pose proof (Z.sqrt_spec n Hn) as [Hs _]. nia.
    + by rewrite decide_False by done.
Qed.

(** X1.  [getDivisorPairs n] lists exactly the pairs [(a, b)] of integers
    with [1 <= a <= b] and [a * b = n], each once, by increasing [a]. *)
Theorem getDivisorPairs_exact (n : Z) :
  (∀ a b, (a, b) ∈ getDivisorPairs n ↔ 1 ≤ a ≤ b ∧ a * b = n) ∧
  NoDup (getDivisorPairs n) ∧
  Sorted Z.lt (getDivisorPairs n).*1.
Proof.
  split; [intros a b; apply elem_of_getDivisorPairs|].
  assert ((getDivisorPairs n).*1 = filter (λ i, Z.rem n i = 0) (divisorCandidates n))
    as Hfirsts.
  { unfold getDivisorPairs. rewrite divisor_fold_firsts; [done|].
    apply Forall_forall. intros i Hi. by apply elem_of_divisorCandidates. }
  assert (Sorted Z.lt (getDivisorPairs n).*1) as Hsorted.
  { rewrite Hfirsts. apply StronglySorted_Sorted.
    eapply StronglySorted_sublist; [apply sublist_filter|].
    unfold divisorCandidates. generalize 1%nat as s.
    induction (Z.to_nat (Z.sqrt n)) as [|k IH]; intros s; simpl; constructor.
    - apply IH.
    - apply Forall_forall. intros x (y & -> & Hy)%list_elem_of_fmap.
      apply elem_of_seq in Hy. lia. }
  split; [|done].
  apply (NoDup_fmap_1 fst). apply (Sorted_StronglySorted Z.lt) in Hsorted.
  clear Hfirsts. induction Hsorted as [|x l _ IH Hx]; constructor; [|done].
  intros Hin. apply (proj1 (Forall_forall _ _) Hx) in Hin. lia.
Qed.

(** ** The candidate extractor *)

(** X2.  The extractor is complete: whenever two different cells [i] and
    [j] of the grid hold the product and the sum of integers
    [1 <= a <= b], the result has a candidate for the pair [(a, b)], and the
    use [{mult: {a*b, i}, add: {a+b, j}}] is recorded for it. *)
Theorem extractor_complete (gridNumbers : list Z) (a b : Z) (i j : nat) :
  1 ≤ a ≤ b → i ≠ j →
  gridNumbers !! i = Some (a * b) → gridNumbers !! j = Some (a + b) →
  ∃ c, c ∈ findConsistentPairs gridNumbers ∧ p_pair c = (a, b) ∧
       mkUse (mkCell (a * b) i) (mkCell (a + b) j) ∈ p_uses c.
Proof.
  intros Hab Hij Hi Hj.
  destruct (findConsistentPairs_hasUse gridNumbers a b i j Hab Hij Hi Hj)
    as (c & u & Hc & Hk & Hu & Hui & Huj).
  exists c. split; [done|]. split; [done|].
  destruct (member_use_sound _ _ _ Hc Hu) as (_ & _ & _ & Hvm & Hva).
  rewrite Hk in Hvm, Hva. simpl in Hvm, Hva.
  destruct u as [[vm im] [va ia]]. simpl in *. by subst.
Qed.

Lemma extractor_complete_witness :
  1 ≤ 3 ≤ 4 ∧ 5%nat ≠ 2%nat ∧
  [0; 9; 7; 7; 1; 12] !! 5%nat = Some (3 * 4) ∧
  [0; 9; 7; 7; 1; 12] !! 2%nat = Some (3 + 4) ∧
  ∃ c, c ∈ findConsistentPairs [0; 9; 7; 7; 1; 12] ∧ p_pair c = (3, 4) ∧
       mkUse (mkCell (3 * 4) 5) (mkCell (3 + 4) 2) ∈ p_uses c.
Proof.
  assert (1 ≤ 3 ≤ 4) as H1 by lia.
  assert (5%nat ≠ 2%nat) as H2 by lia.
  repeat (split; [first [assumption | reflexivity]|]).
  exact (extractor_complete [0; 9; 7; 7; 1; 12] 3 4 5 2 H1 H2 eq_refl eq_refl).
Defined.

Lemma recordUse_nonempty (key : Z * Z) (u : Use) (m : list CandidatePair) :
  Forall (λ c, p_uses c ≠ []) m → Forall (λ c, p_uses c ≠ []) (recordUse key u m).
Proof.
  induction m as [|c m IH]; intros Hm; simpl.
  - by constructor.
  - apply Forall_cons in Hm as [Hc Hm]. case_decide.
    + constructor; [|done]. simpl. by intros [? _]%app_eq_nil.
    + constructor; [done|]. by apply IH.
Qed.

Lemma findConsistentPairs_nonempty_uses (gridNumbers : list Z) (c : CandidatePair) :
  c ∈ findConsistentPairs gridNumbers → p_uses c ≠ [].
Proof.
  revert c. apply Forall_forall. unfold findConsistentPairs.
  apply foldl_keeps; [|constructor].
  intros m [i n] _ Hm. unfold multStep. apply foldl_keeps; [|done].
  intros m' [j s] _ Hm'. unfold addStep. case_decide; [done|].
  apply foldl_keeps; [|done].
  intros m'' [a b] _ Hm''. unfold pairStep.
  destruct (a + b =? s); [by apply recordUse_nonempty|done].
Qed.

(** X3.  The candidates of the extractor are pairwise different pairs of
    integers [1 <= lo <= hi], none of them without a use; the cell values
    stored in a use are the product and the sum of its pair. *)
Theorem extractor_candidates_wellformed (gridNumbers : list Z) :
  NoDup (p_pair <$> findConsistentPairs gridNumbers) ∧
  ∀ c, c ∈ findConsistentPairs gridNumbers →
       1 ≤ (p_pair c).1 ≤ (p_pair c).2 ∧ p_uses c ≠ [] ∧
       ∀ u, u ∈ p_uses c →
            c_value (u_mult u) = (p_pair c).1 * (p_pair c).2 ∧
            c_value (u_add u) = (p_pair c).1 + (p_pair c).2.
Proof.
  split; [apply findConsistentPairs_inv|].
  intros c Hc. split; [apply (candidate_sound _ _ Hc)|].
  split; [by eapply findConsistentPairs_nonempty_uses|].
  intros u Hu. by destruct (member_use_sound _ _ _ Hc Hu) as (_ & _ & _ & ? & ?).
Qed.

(** X4.  A grid in which no number exceeds 1 (so any grid of zeros and
    negative numbers), and any grid of fewer than two cells, has no
    candidate pair. *)
Theorem extractor_nothing_to_find (gridNumbers : list Z) :
  Forall (λ n, n ≤ 1) gridNumbers ∨ (length gridNumbers < 2)%nat →
  findConsistentPairs gridNumbers = [].
Proof.
  intros Hg. destruct (findConsistentPairs gridNumbers) as [|c cs] eqn:Hfc; [done|].
  exfalso. assert (c ∈ findConsistentPairs gridNumbers) as Hc by (rewrite Hfc; by left).
  destruct (candidate_sound _ _ Hc) as [Hle _].
  pose proof (findConsistentPairs_nonempty_uses _ _ Hc) as Hne.
  destruct (p_uses c) as [|u us] eqn:Hus; [done|].
  assert (u ∈ p_uses c) as Hu by (rewrite Hus; by left).
  destruct (member_use_sound _ _ _ Hc Hu) as (Hij & Hm & Ha & _).
  destruct Hg as [Hall|Hlen].
  - apply list_elem_of_lookup_2 in Ha.
    apply (proj1 (Forall_forall _ _) Hall) in Ha. lia.
  - apply lookup_lt_Some in Hm, Ha. lia.
Qed.

Lemma extractor_nothing_to_find_witness :
  (Forall (λ n, n ≤ 1) lowGrid ∨ (length lowGrid < 2)%nat) ∧
  findConsistentPairs lowGrid = [].
Proof.
  assert (Forall (λ n, n ≤ 1) lowGrid ∨ (length lowGrid < 2)%nat)
    as H by (left; repeat constructor; lia).
  split; [exact H|]. exact (extractor_nothing_to_find lowGrid H).
Defined.

(** ** Grid assignment *)

(** X5.  [findGridAssignment] returns a grid exactly when the pairs can be
    put, each on one of its recorded uses, on pairwise different cells that
    hold [null] in the given grid. *)
Theorem findGridAssignment_succeeds_iff (pairs : list CandidatePair)
    (grid : GridAssignment) :
  is_Some (findGridAssignment pairs grid) ↔
  ∃ us, Forall2 (λ p u, u ∈ p_uses p) pairs us ∧ NoDup (cellsOf us) ∧
        ∀ i, i ∈ cellsOf us → grid !! i = Some None.
Proof.
  split.
  - intros [result Hres]. apply findGridAssignment_sound in Hres as [us Hus].
    exists us. by apply assignedBy_cells in Hus.
  - intros (us & Hus & Hnd & Hnull). by eapply findGridAssignment_complete.
Qed.

(** X6.  A grid returned by [findGridAssignment] has the length of the
    given grid, keeps every equation that was already there, has two fewer
    empty cells, one more addition and one more multiplication per pair, and
    is changed only on cells that were empty. *)
Theorem findGridAssignment_effect (pairs : list CandidatePair)
    (grid result : GridAssignment) :
  findGridAssignment pairs grid = Some result →
  length result = length grid ∧
  (emptyCells result + 2 * length pairs = emptyCells grid)%nat ∧
  (opCells Plus result = opCells Plus grid + length pairs)%nat ∧
  (opCells Times result = opCells Times grid + length pairs)%nat ∧
  ∀ i, grid !! i ≠ Some None → result !! i = grid !! i.
Proof.
  intros [us Hus]%findGridAssignment_sound.
  destruct (assignedBy_counts _ _ _ _ Hus) as (Hlen & Hempty & Hplus & Htimes).
  repeat (split; [done|]).
  intros i Hi. apply (assignedBy_untouched _ _ _ _ _ Hus).
  intros Hin. by apply (assignedBy_cells _ _ _ _ Hus) in Hin.
Qed.

Lemma findGridAssignment_effect_witness :
  findGridAssignment (findConsistentPairs plainGrid) (replicate 16 None)
    = Some (grid plainSolution) ∧
  length (grid plainSolution) = length (replicate 16 (@None Equation)) ∧
  (emptyCells (grid plainSolution) + 2 * length (findConsistentPairs plainGrid)
   = emptyCells (replicate 16 None))%nat ∧
  (opCells Plus (grid plainSolution)
   = opCells Plus (replicate 16 None) + length (findConsistentPairs plainGrid))%nat ∧
  (opCells Times (grid plainSolution)
   = opCells Times (replicate 16 None) + length (findConsistentPairs plainGrid))%nat ∧
  ∀ i, replicate 16 (@None Equation) !! i ≠ Some None →
       grid plainSolution !! i = replicate 16 None !! i.
Proof.
  assert (findGridAssignment (findConsistentPairs plainGrid) (replicate 16 None)
          = Some (grid plainSolution)) as H by (vm_compute; reflexivity).
  split; [exact H|]. exact (findGridAssignment_effect _ _ _ H).
Defined.

(** X7.  [findGridAssignment] gives up when the pairs need more cells than
    the grid has empty ones: with more than 8 pairs on the 16-cell grid of
    [solve] it returns [null]. *)
Theorem findGridAssignment_too_many_pairs (pairs : list CandidatePair)
    (grid : GridAssignment) :
  (emptyCells grid < 2 * length pairs)%nat →
  findGridAssignment pairs grid = None.
Proof.
  intros Hfew. destruct (findGridAssignment pairs grid) as [result|] eqn:Hres; [|done].
  apply findGridAssignment_sound in Hres as [us Hus].
  destruct (assignedBy_counts _ _ _ _ Hus) as (_ & Hempty & _). lia.
Qed.

Lemma findGridAssignment_too_many_pairs_witness :
  (emptyCells (replicate 16 None)
   < 2 * length (findConsistentPairs sampleGrid))%nat ∧
  findGridAssignment (findConsistentPairs sampleGrid) (replicate 16 None) = None.
Proof.
  assert (emptyCells (replicate 16 None)
          < 2 * length (findConsistentPairs sampleGrid))%nat as H
    by (vm_compute; lia).
  split; [exact H|]. exact (findGridAssignment_too_many_pairs _ _ H).
Defined.

(** ** Strip utilities *)

(** X8.  [matchesKnownValues strip knownStrip] is true exactly when the two
    have the same length and every known (non-null) slot of [knownStrip]
    holds the number that [strip] has at that position. *)
Theorem matchesKnownValues_iff (strip : list Z) (knownStrip : list (option Z)) :
  matchesKnownValues strip knownStrip = true ↔
  length strip = length knownStrip ∧
  ∀ i v, knownStrip !! i = Some (Some v) → strip !! i = Some v.
Proof. apply matchesKnownValues_spec. Qed.

(** X9.  [buildStripFromPairs] returns the numbers of the pairs in
    ascending order, two per pair, and does not depend on the order in
    which the pairs are given. *)
Theorem buildStripFromPairs_canonical (pairs pairs' : list CandidatePair) :
  Sorted Z.le (buildStripFromPairs pairs) ∧
  buildStripFromPairs pairs ≡ₚ numbersOf pairs ∧
  length (buildStripFromPairs pairs) = (2 * length pairs)%nat ∧
  (pairs ≡ₚ pairs' → buildStripFromPairs pairs = buildStripFromPairs pairs').
Proof.
  split; [apply buildStripFromPairs_sorted|].
  split; [apply buildStripFromPairs_perm|].
  split; [apply length_buildStripFromPairs|].
  intros Hperm. apply (Sorted_unique Z.le); try apply buildStripFromPairs_sorted.
  rewrite !buildStripFromPairs_perm. unfold numbersOf. by rewrite Hperm.
Qed.

(** ** The combination generator *)

Lemma sublist_singleton_elem {A} (x : A) (l : list A) : [x] `sublist_of` l ↔ x ∈ l.
Proof.
  rewrite sublist_cons_l. split.
  - intros (k1 & k2 & -> & _). apply elem_of_app. right. by left.
  - intros (k1 & k2 & ->)%list_elem_of_split. exists k1, k2. split; [done|].
    apply sublist_nil_l.
Qed.

Lemma combinations_spec {A} (k : nat) (array combo : list A) :
  combo ∈ combinations k array ↔
  combo `sublist_of` array ∧ length combo = S k.
Proof.
  revert array combo. induction k as [|k IH]; intros array combo.
  - simpl. rewrite list_elem_of_fmap. split.
    + intros (x & -> & Hx). split; [by apply sublist_singleton_elem|done].
    + intros [Hsub Hlen]. destruct combo as [|x [|? ?]]; try done.
      exists x. split; [done|]. by apply sublist_singleton_elem.
  - cbn [combinations]. rewrite list_elem_of_bind. split.
    + intros (i & Hin & Hi). apply elem_of_seq in Hi.
      destruct (array !! i) as [x|] eqn:Hx; [|by apply elem_of_nil in Hin].
      apply list_elem_of_fmap in Hin as (combo' & -> & Hin).
      apply IH in Hin as [Hsub Hlen]. split; [|simpl; lia].
      rewrite <- (take_drop_middle array i x Hx).
      apply sublist_inserts_l. by apply sublist_skip.
    + intros [Hsub Hlen]. destruct combo as [|x combo']; [done|].
      apply sublist_cons_l in Hsub as (k1 & k2 & -> & Hsub).
      exists (length k1). pose proof (sublist_length _ _ Hsub) as Hle.
      simpl in Hlen. rewrite length_app in *. simpl in *. split.
      * rewrite list_lookup_middle by done.
        apply list_elem_of_fmap. exists combo'. split; [done|].
        apply IH. split; [|lia].
        replace (drop (S (length k1)) (k1 ++ x :: k2)) with k2; [done|].
        rewrite (cons_middle x k1 k2), app_assoc.
        rewrite drop_app_length'; [done|]. rewrite length_app. simpl. lia.
      * apply elem_of_seq. lia.
Qed.

Lemma combinations_nil {A} (k : nat) (array : list A) :
  (length array ≤ k)%nat → combinations k array = [].
Proof.
  intros Hlen. destruct (combinations k array) as [|combo rest] eqn:Hc; [done|].
  assert (combo ∈ combinations k array) as Hin by (rewrite Hc; by left).
  apply combinations_spec in Hin as [Hsub Hk].
  apply sublist_length in Hsub. lia.
Qed.

(** X10.  For [n >= 1], [combinations(array, n)] yields exactly the
    [n]-element subsequences of [array] (elements kept in array order); in
    particular it yields nothing when the array has fewer than [n]
    elements. *)
Theorem combinations_sublists {A} (k : nat) (array : list A) :
  (∀ combo, combo ∈ combinations k array ↔
            combo `sublist_of` array ∧ length combo = S k) ∧
  ((length array ≤ k)%nat → combinations k array = []).
Proof. split; [intros combo; apply combinations_spec|apply combinations_nil]. Qed.

Lemma combinations_cons {A} (k : nat) (p : A) (rest : list A) :
  combinations (S k) (p :: rest) =
  ((λ combo, p :: combo) <$> combinations k rest) ++ combinations (S k) rest.
Proof.
  destruct (decide (length rest ≤ k)%nat) as [Hshort|Hlong].
  - rewrite (combinations_nil k rest), (combinations_nil (S k) rest) by lia.
    apply combinations_nil. simpl. lia.
  - cbn [combinations]. cbn [length].
    replace (S (S (length rest)) - S (S k))%nat
      with (S (S (length rest) - S (S k))) by lia.
    cbn [seq]. rewrite bind_cons. f_equal.
    rewrite <- fmap_S_seq, list_fmap_bind. done.
Qed.

Lemma visitedLoop_sublist (rest : list CandidatePair) :
  ∀ combo used k, (length combo + S k = 8)%nat →
    visitedLoop rest combo used `sublist_of` (app combo <$> combinations k rest).
Proof.
  induction rest as [|p rest IH]; intros combo used k Hk; [apply sublist_nil_l|].
  cbn [visitedLoop]. destruct k as [|k].
  - change (combinations 0 (p :: rest)) with ([p] :: combinations 0 rest).
    rewrite fmap_cons.
    destruct (availableUse p used) as [use|].
    + rewrite decide_True by (rewrite length_app; simpl; lia).
      cbn [app]. apply sublist_skip. by apply (IH _ _ 0%nat).
    + cbn [app]. apply sublist_cons. by apply (IH _ _ 0%nat).
  - rewrite combinations_cons, fmap_app. apply sublist_app; [|by apply IH].
    destruct (availableUse p used) as [use|]; [|apply sublist_nil_l].
    rewrite decide_False by (rewrite length_app; simpl; lia).
    rewrite <- list_fmap_compose.
    rewrite (list_fmap_ext (app combo ∘ (λ combo', p :: combo')) (app (combo ++ [p]))).
    + apply IH. rewrite length_app. simpl. lia.
    + intros i combo' _. simpl. by rewrite <- app_assoc.
Qed.

(** X11.  The full combinations that [backtrack] reaches are 8-element
    subsequences of the candidate list, and it reaches them in the order in
    which [combinations(allPairs, 8)] yields them: the availability pruning
    only leaves combinations out. *)
Theorem exploration_within_combinations (allPairs : list CandidatePair) :
  exploration allPairs `sublist_of` combinations 7 allPairs ∧
  ∀ combo, combo ∈ exploration allPairs →
           combo `sublist_of` allPairs ∧ length combo = 8%nat.
Proof.
  assert (exploration allPairs `sublist_of` combinations 7 allPairs) as Hsub.
  { unfold exploration.
    pose proof (visitedLoop_sublist allPairs [] ∅ 7 eq_refl) as H.
    erewrite list_fmap_ext, list_fmap_id in H; [exact H|done]. }
  split; [done|]. intros combo Hin. apply (combinations_spec 7).
  by eapply elem_of_sublist.
Qed.

(** ** [solve] as a search for the first valid combination *)

(** X12.  [solve] returns the strip and grid of the first combination, in
    exploration order, whose strip matches the known values and for which a
    grid assignment is found, provided at most [maxAttempts] combinations
    come before it; otherwise it returns [null].  The counter ends at the
    number of combinations up to that one (all of them if none is valid),
    capped at [maxAttempts + 1]. *)
Theorem solve_first_valid (gridNumbers : list Z) (stripValues : list (option Z))
    (maxAttempts : Z) :
  solve gridNumbers stripValues maxAttempts =
    match list_find (passes stripValues)
            (exploration (findConsistentPairs gridNumbers)) with
    | Some (k, combo) =>
        if bool_decide (Z.of_nat k ≤ maxAttempts) then solutionOf combo else None
    | None => None
    end ∧
  tested (solveState gridNumbers stripValues maxAttempts) =
    Z.max 0 (Z.min (maxAttempts + 1)
               (Z.of_nat (checksNeeded stripValues
                            (exploration (findConsistentPairs gridNumbers))))).
Proof.
  split.
  - rewrite <- (fold_solution stripValues maxAttempts _ (mkState 0 None) eq_refl).
    rewrite <- searchFrom_as_fold. unfold solve, findOptimalCombination.
    by destruct (solution _).
  - unfold solveState. rewrite searchFrom_as_fold, fold_tested by done.
    simpl. case_decide; lia.
Qed.

(** X13.  With fewer than 8 candidate pairs nothing is explored: [solve]
    returns [null] without a single check, whatever the strip and the
    budget. *)
Theorem solve_too_few_candidates (gridNumbers : list Z)
    (stripValues : list (option Z)) (maxAttempts : Z) :
  (length (findConsistentPairs gridNumbers) < 8)%nat →
  exploration (findConsistentPairs gridNumbers) = [] ∧
  solve gridNumbers stripValues maxAttempts = None ∧
  tested (solveState gridNumbers stripValues maxAttempts) = 0.
Proof.
  intros Hfew.
  assert (exploration (findConsistentPairs gridNumbers) = []) as Hnil.
  { apply sublist_nil_r. rewrite <- (combinations_nil 7 (findConsistentPairs gridNumbers))
      by lia.
    unfold exploration.
    pose proof (visitedLoop_sublist (findConsistentPairs gridNumbers) [] ∅ 7 eq_refl) as H.
    erewrite list_fmap_ext, list_fmap_id in H; [exact H|done]. }
  split; [done|]. unfold solve, findOptimalCombination, solveState.
  rewrite searchFrom_as_fold, Hnil. done.
Qed.

Lemma solve_too_few_candidates_witness :
  (length (findConsistentPairs smallGrid) < 8)%nat ∧
  exploration (findConsistentPairs smallGrid) = [] ∧
  solve smallGrid plainStrip 50000 = None ∧
  tested (solveState smallGrid plainStrip 50000) = 0.
Proof.
  assert (length (findConsistentPairs smallGrid) < 8)%nat as H
    by (vm_compute; lia).
  split; [exact H|]. exact (solve_too_few_candidates smallGrid plainStrip 50000 H).
Defined.

(** * The exploratory solver script *)

Lemma elem_of_script_divisor_fold (n : Z) (l : list Z) (acc : list (Z * Z))
    (x : Z * Z) :
  x ∈ foldl (Script.divisorStep n) acc l ↔
  x ∈ acc ∨ ∃ i, i ∈ l ∧ Z.rem n i = 0 ∧ (x = (i, n ÷ i) ∨ x = (n ÷ i, i)).
Proof.
  revert acc. induction l as [|i l IH]; intros acc; simpl.
  - split; [by left|]. intros [?|(i & Hi & _)]; [done|]. by apply elem_of_nil in Hi.
  - rewrite IH. unfold Script.divisorStep.
    destruct (Z.eqb_spec (Z.rem n i) 0) as [Hr|Hr].
    + rewrite !elem_of_app, list_elem_of_singleton. split.
      * intros [[[?| ->]|Hx]|(k & Hk & ?)]; [by left| | |].
        -- right. exists i. split; [by left|]. split; [done|by left].
        -- right. exists i. split; [by left|]. split; [done|].
           destruct (i =? n ÷ i); [by apply elem_of_nil in Hx|].
           apply list_elem_of_singleton in Hx. by right.
        -- right. exists k. split; [by right|done].
      * intros [?|(k & Hk & Hk0 & Hx)]; [by left; left; left|].
        apply elem_of_cons in Hk as [->|Hk]; [|right; by exists k].
        left. destruct Hx as [->| ->]; [left; by right|].
        destruct (Z.eqb_spec i (n ÷ i)) as [Heq|Hne].
        -- left. right. by rewrite <- Heq.
        -- right. by apply list_elem_of_singleton.
    + split.
      * intros [?|(k & Hk & ?)]; [by left|]. right. exists k. split; [by right|done].
      * intros [?|(k & Hk & Hk0 & Hx)]; [by left|].
        apply elem_of_cons in Hk as [->|Hk]; [done|]. right. by exists k.
Qed.

(** X14.  The script's [getDivisorPairs n] holds every ordered pair of
    positive integers with product [n] and nothing else; it is empty for
    [n <= 0], and it holds the pairs of the solver's [getDivisorPairs] and
    their mirror images. *)
Theorem script_getDivisorPairs_exact (n : Z) :
  (∀ a b, (a, b) ∈ Script.getDivisorPairs n ↔ 1 ≤ a ∧ 1 ≤ b ∧ a * b = n) ∧
  (∀ a b, (a, b) ∈ Script.getDivisorPairs n ↔
          (a, b) ∈ getDivisorPairs n ∨ (b, a) ∈ getDivisorPairs n) ∧
  (n ≤ 0 → Script.getDivisorPairs n = []).
Proof.
  assert (∀ x y, 1 ≤ x ≤ y → x * y = n →
                 x ∈ divisorCandidates n ∧ Z.rem n x = 0 ∧ n ÷ x = y) as Hdiv.
  { intros x y Hxy <-. split; [|split].
    - apply elem_of_divisorCandidates. split; [lia|].
      apply Z.sqrt_le_square; [nia|lia|nia].
    - rewrite Z.mul_comm. apply Z.rem_mul. lia.
    - rewrite Z.mul_comm. apply Z.quot_mul. lia. }
  assert (∀ a b, (a, b) ∈ Script.getDivisorPairs n ↔ 1 ≤ a ∧ 1 ≤ b ∧ a * b = n)
    as Hexact.
  { intros a b. unfold Script.getDivisorPairs. rewrite elem_of_script_divisor_fold.
    split.
    - intros [H|(i & Hi & Hr & Hx)]; [by apply elem_of_nil in H|].
      apply elem_of_divisorCandidates in Hi.
      assert (0 ≤ n) as Hn.
      { destruct (Z.le_gt_cases 0 n) as [|Hneg]; [done|].
        rewrite (Z.sqrt_neg n Hneg) in Hi. lia. }
      pose proof (Z.quot_rem' n i) as Hq. rewrite Hr in Hq.
      pose proof (Z.sqrt_spec n Hn) as [Hs _].
      assert (i ≤ n ÷ i) as Hle by nia.
      destruct Hx as [[= -> ->]|[= -> ->]]; lia.
    - intros (Ha & Hb & Hn). right.
      destruct (Z.le_gt_cases a b) as [Hle|Hgt].
      + destruct (Hdiv a b) as (Hin & Hr & Hq); [lia|done|].
        exists a. rewrite Hq. by repeat split; [..|left].
      + destruct (Hdiv b a) as (Hin & Hr & Hq); [lia|lia|].
        exists b. rewrite Hq. by repeat split; [..|right]. }
  split; [done|]. split.
  - intros a b. rewrite Hexact, !elem_of_getDivisorPairs. lia.
  - intros Hn. destruct (Script.getDivisorPairs n) as [|[a b] l] eqn:Hl; [done|].
    assert ((a, b) ∈ (a, b) :: l) as Hin by (by left).
    apply Hexact in Hin. nia.
Qed.

Lemma elem_of_additionCandidates (n maxValue i : Z) :
  i ∈ Script.additionCandidates n maxValue ↔ 1 ≤ i ∧ i ≤ n - 1 ∧ i ≤ maxValue.
Proof.
  unfold Script.additionCandidates. rewrite list_elem_of_fmap. split.
  - intros (k & -> & Hk). apply elem_of_seq in Hk. lia.
  - intros Hi. exists (Z.to_nat i). split; [lia|]. apply elem_of_seq. lia.
Qed.

Lemma elem_of_addition_fold (n maxValue : Z) (l : list Z) (acc : list (Z * Z))
    (x : Z * Z) :
  x ∈ foldl (Script.additionStep n maxValue) acc l ↔
  x ∈ acc ∨ ∃ i, i ∈ l ∧ 1 ≤ n - i ≤ maxValue ∧ x = (i, n - i).
Proof.
  revert acc. induction l as [|i l IH]; intros acc; simpl.
  - split; [by left|]. intros [?|(i & Hi & _)]; [done|]. by apply elem_of_nil in Hi.
  - rewrite IH. unfold Script.additionStep.
    destruct (Z.leb_spec 1 (n - i)) as [H1|H1];
      destruct (Z.leb_spec (n - i) maxValue) as [H2|H2]; simpl.
    2-4: split;
      [ intros [?|(k & Hk & ?)]; [by left|]; right; exists k; split; [by right|done]
      | intros [?|(k & Hk & Hk0 & ->)]; [by left|];
        apply elem_of_cons in Hk as [->|Hk]; [lia|]; right; by exists k ].
    rewrite elem_of_app, list_elem_of_singleton. split.
    + intros [[?| ->]|(k & Hk & ?)]; [by left| |].
      * right. exists i. split; [by left|]. split; [lia|done].
      * right. exists k. split; [by right|done].
    + intros [?|(k & Hk & Hk0 & ->)]; [by left; left|].
      apply elem_of_cons in Hk as [->|Hk]; [by left; right|]. right. by exists k.
Qed.

(** X15.  [getAdditionPairs n maxValue] holds exactly the ordered pairs
    [(a, b)] with [a + b = n] and both numbers between 1 and [maxValue]; with
    a pair it holds the mirrored pair, and it is empty for [n <= 1]. *)
Theorem script_getAdditionPairs_exact (n maxValue : Z) :
  (∀ a b, (a, b) ∈ Script.getAdditionPairs n maxValue ↔
          1 ≤ a ≤ maxValue ∧ 1 ≤ b ≤ maxValue ∧ a + b = n) ∧
  (∀ a b, (a, b) ∈ Script.getAdditionPairs n maxValue →
          (b, a) ∈ Script.getAdditionPairs n maxValue) ∧
  (n ≤ 1 → Script.getAdditionPairs n maxValue = []).
Proof.
  assert (∀ a b, (a, b) ∈ Script.getAdditionPairs n maxValue ↔
                 1 ≤ a ≤ maxValue ∧ 1 ≤ b ≤ maxValue ∧ a + b = n) as Hexact.
  { intros a b. unfold Script.getAdditionPairs. rewrite elem_of_addition_fold. split.
    - intros [H|(i & Hi & Hc & [= -> ->])]; [by apply elem_of_nil in H|].
      apply elem_of_additionCandidates in Hi. lia.
    - intros (Ha & Hb & Hn). right. exists a.
      split; [apply elem_of_additionCandidates; lia|]. split; [lia|].
      f_equal. lia. }
  split; [done|]. split.
  - intros a b. rewrite !Hexact. lia.
  - intros Hn. destruct (Script.getAdditionPairs n maxValue) as [|[a b] l] eqn:Hl; [done|].
    assert ((a, b) ∈ (a, b) :: l) as Hin by (by left).
    apply Hexact in Hin. lia.
Qed.

(** * The puzzle generator *)

(** ** Random numbers *)

Lemma mulberry32_range (seed : Z) : 0 ≤ (mulberry32 seed).1 < 2 ^ 32.
Proof. unfold mulberry32, u32. simpl. apply Z.mod_pos_bound. lia. Qed.

Lemma revealCount_bounds (difficulty : Difficulty) (strip : list Z) :
  0 ≤ revealCount (getDifficultyConfig difficulty) strip ≤ Z.of_nat (length strip).
Proof.
  unfold revealCount. split.
  - apply Z.div_pos; [|lia]. destruct difficulty; simpl; lia.
  - apply Z.div_le_upper_bound; [lia|]. destruct difficulty; simpl; lia.
Qed.

Section GeneratorProperties.
Context {R : Type} (next : R → Z * R).
Hypothesis next_range : ∀ r, 0 ≤ (next r).1 < 2 ^ 32.

Lemma randomInt_range (min max : Z) (r : R) :
  min ≤ max → min ≤ (randomInt next min max r).1 ≤ max.
Proof.
  intros Hle. unfold randomInt. pose proof (next_range r) as Hu.
  destruct (next r) as [u r']. simpl in *.
  assert (0 ≤ u * (max - min + 1) / 2 ^ 32 < max - min + 1) as Hq.
  { split.
    - apply Z.div_pos; [nia|lia].
    - apply Z.div_lt_upper_bound; [lia|nia]. }
  lia.
Qed.

(** ** Shuffling *)

Lemma swap_lookup {A} (i j k : nat) (array : list A) :
  (i < length array)%nat → (j < length array)%nat →
  swap i j array !! k =
  array !! (if decide (k = i) then j else if decide (k = j) then i else k).
Proof.
  intros Hi Hj. unfold swap.
  destruct (lookup_lt_is_Some_2 array i Hi) as [x Hx].
  destruct (lookup_lt_is_Some_2 array j Hj) as [y Hy].
  rewrite Hx, Hy.
  destruct (decide (k = j)) as [->|Hkj].
  - rewrite list_lookup_insert_eq by (by rewrite length_insert).
    destruct (decide (j = i)) as [->|_]; [congruence|done].
  - rewrite list_lookup_insert_ne by done.
    destruct (decide (k = i)) as [->|Hki].
    + by rewrite list_lookup_insert_eq.
    + by rewrite list_lookup_insert_ne.
Qed.

Lemma swap_length {A} (i j : nat) (array : list A) :
  length (swap i j array) = length array.
Proof.
  unfold swap. destruct (array !! i), (array !! j); try done.
  by rewrite !length_insert.
Qed.

Lemma swap_Permutation {A} (i j : nat) (array : list A) : swap i j array ≡ₚ array.
Proof.
  destruct (decide (i < length array)%nat) as [Hi|Hi];
    [destruct (decide (j < length array)%nat) as [Hj|Hj]|].
  - apply Permutation_inj. split; [apply swap_length|].
    exists (λ k, if decide (k = i) then j else if decide (k = j) then i else k).
    split; [|intros k; by apply swap_lookup].
    intros k1 k2. repeat case_decide; lia.
  - unfold swap. rewrite (lookup_ge_None_2 array j) by lia. by destruct (array !! i).
  - unfold swap. by rewrite (lookup_ge_None_2 array i) by lia.
Qed.

Lemma shuffleFrom_Permutation {A} (i : nat) (array : list A) (r : R) :
  (shuffleFrom next i array r).1 ≡ₚ array.
Proof.
  revert array r. induction i as [|i IH]; intros array r; [done|].
  cbn [shuffleFrom]. destruct (next r) as [u r'].
  rewrite IH. apply swap_Permutation.
Qed.

(** ** Pair generation *)

Lemma generatePairsLoop_inv (config : Config) (fuel : nat) :
  minNumber config ≤ maxNumber config →
  ∀ pairs usedNumbers r,
    Forall (genPairOk config) pairs →
    NoDup (gp_numbers <$> pairs) →
    (∀ k, k ∈ usedNumbers ↔ k ∈ gp_numbers <$> pairs) →
    (length pairs ≤ pairCount config)%nat →
    let pairs' := (generatePairsLoop next config fuel pairs usedNumbers r).1 in
    Forall (genPairOk config) pairs' ∧ NoDup (gp_numbers <$> pairs') ∧
    (length pairs' ≤ pairCount config)%nat.
Proof.
  intros Hrange. induction fuel as [|fuel IH]; intros pairs used r Hok Hnd Hused Hlen;
    [done|].
  cbn [generatePairsLoop]. case_decide as Hfew; [|done].
  pose proof (randomInt_range (minNumber config) (maxNumber config) r Hrange) as Ha.
  destruct (randomInt next (minNumber config) (maxNumber config) r) as [a r1].
  pose proof (randomInt_range (minNumber config) (maxNumber config) r1 Hrange) as Hb.
  destruct (randomInt next (minNumber config) (maxNumber config) r1) as [b r2].
  simpl in Ha, Hb.
  case_decide as Hab; [by apply IH|].
  assert (∀ lo hi, minNumber config ≤ lo → lo < hi → hi ≤ maxNumber config →
    let pairs' :=
      (if decide ((lo, hi) ∈ used)
       then generatePairsLoop next config fuel pairs used r2
       else generatePairsLoop next config fuel
              (pairs ++ [mkGenPair (lo, hi) (lo + hi) (lo * hi) 0])
              ({[(lo, hi)]} ∪ used) r2).1 in
    Forall (genPairOk config) pairs' ∧ NoDup (gp_numbers <$> pairs') ∧
    (length pairs' ≤ pairCount config)%nat) as Hstep.
  { intros lo hi H1 H2 H3. case_decide as Hin; [by apply IH|]. apply IH.
    - apply Forall_app. split; [done|]. constructor; [|done]. by repeat split.
    - rewrite fmap_app. apply NoDup_app. split; [done|]. split; [|apply NoDup_singleton].
      intros k Hk Hk'. apply list_elem_of_singleton in Hk'. subst k.
      apply Hin. by apply Hused.
    - intros k. rewrite fmap_app, elem_of_app, elem_of_union, elem_of_singleton.
      simpl. rewrite list_elem_of_singleton, Hused. tauto.
    - rewrite length_app. simpl. lia. }
  case_decide; [apply (Hstep a b); lia|apply (Hstep b a); lia].
Qed.

Lemma generatePairs_spec (config : Config) (r : R) :
  minNumber config ≤ maxNumber config →
  let pairs := (generatePairs next config r).1 in
  Forall (genPairOk config) pairs ∧ NoDup (gp_numbers <$> pairs) ∧
  (length pairs ≤ pairCount config)%nat.
Proof.
  intros Hrange. apply generatePairsLoop_inv; [done|constructor|constructor| |simpl; lia].
  intros k. simpl. split; [intros H; by apply not_elem_of_empty in H|].
  intros H; by apply elem_of_nil in H.
Qed.

(** ** Grid and strip of a puzzle *)

Lemma gridItems_fold (pairs : list GenPair) (acc : list GridItem) :
  gi_value <$> foldl (λ items pair,
           items ++ [mkGridItem (gp_product pair) Times (gp_numbers pair);
                     mkGridItem (gp_sum pair) Plus (gp_numbers pair)]) acc pairs
  = (gi_value <$> acc) ++ (pairs ≫= λ p, [gp_product p; gp_sum p]).
Proof.
  revert acc. induction pairs as [|p pairs IH]; intros acc; cbn [foldl].
  - by rewrite app_nil_r.
  - rewrite IH, fmap_app, bind_cons, <- app_assoc. done.
Qed.

Lemma generateGrid_spec (pairs : list GenPair) (r : R) :
  (generateGrid next pairs r).1 ≡ₚ (pairs ≫= λ p, [gp_product p; gp_sum p]) ∧
  length (generateGrid next pairs r).1 = (2 * length pairs)%nat.
Proof.
  assert ((generateGrid next pairs r).1 ≡ₚ (pairs ≫= λ p, [gp_product p; gp_sum p]))
    as Hperm.
  { unfold generateGrid.
    pose proof (shuffleFrom_Permutation (length (gridItems pairs) - 1)
                  (gridItems pairs) r) as H.
    fold (shuffleArray next (gridItems pairs) r) in H.
    destruct (shuffleArray next (gridItems pairs) r) as [items r']. simpl in *.
    rewrite H. unfold gridItems. by rewrite gridItems_fold. }
  split; [done|]. rewrite Hperm.
  clear. induction pairs as [|p pairs IH]; [done|]. rewrite bind_cons. simpl. lia.
Qed.

Lemma hide_fold_lookup (strip : list Z) (hidden : list nat) (i : nat) :
  foldl (λ puzzleStrip pos, <[pos := None]> puzzleStrip) (Some <$> strip) hidden !! i
  = if decide (i ∈ hidden) then (λ _, None) <$> strip !! i else Some <$> strip !! i.
Proof.
  assert (∀ ps : list (option Z),
    foldl (λ puzzleStrip pos, <[pos := None]> puzzleStrip) ps hidden !! i
    = if decide (i ∈ hidden) then (λ _, None) <$> ps !! i else ps !! i) as Hgen.
  { induction hidden as [|h hidden IH]; intros ps; cbn [foldl].
    - rewrite decide_False; [done|apply not_elem_of_nil].
    - rewrite IH. destruct (decide (i = h)) as [->|Hne].
      + rewrite (decide_True (P := h ∈ h :: hidden)) by (by left).
        destruct (decide (h < length ps)%nat) as [Hlt|Hge].
        * rewrite list_lookup_insert_eq by done.
          destruct (lookup_lt_is_Some_2 ps h Hlt) as [x ->].
          by case_decide.
        * rewrite list_insert_ge by lia. rewrite (lookup_ge_None_2 ps h) by lia.
          by case_decide.
      + rewrite list_lookup_insert_ne by done.
        destruct (decide (i ∈ hidden)) as [Hin|Hout].
        * rewrite (decide_True (P := i ∈ h :: hidden)) by (by right). done.
        * rewrite (decide_False (P := i ∈ h :: hidden)); [done|].
          rewrite elem_of_cons. tauto. }
  rewrite Hgen, list_lookup_fmap. case_decide; [|done]. by destruct (strip !! i).
Qed.

Lemma hide_fold_length (hidden : list nat) (acc : list (option Z)) :
  length (foldl (λ puzzleStrip pos, <[pos := None]> puzzleStrip) acc hidden)
  = length acc.
Proof.
  revert acc. induction hidden as [|h hs IH]; intros acc; cbn [foldl]; [done|].
  by rewrite IH, length_insert.
Qed.

Lemma hide_fold_count (hidden : list nat) :
  NoDup hidden →
  ∀ acc : list (option Z),
    (∀ h, h ∈ hidden → ∃ x, acc !! h = Some (Some x)) →
    hiddenSlots (foldl (λ puzzleStrip pos, <[pos := None]> puzzleStrip) acc hidden)
    = (hiddenSlots acc + length hidden)%nat.
Proof.
  induction 1 as [|h hs Hh Hnd IH]; intros acc Hacc; cbn [foldl].
  - simpl. lia.
  - rewrite IH.
    + destruct (Hacc h) as [x Hx]; [by left|].
      pose proof (filter_length_insert (λ v : option Z, v = None) acc h (Some x) None Hx)
        as Hcount.
      rewrite decide_False in Hcount by done. rewrite decide_True in Hcount by done.
      unfold hiddenSlots. simpl. lia.
    + intros h' Hh'. destruct (Hacc h') as [x Hx]; [by right|].
      exists x. rewrite list_lookup_insert_ne; [done|]. intros ->. done.
Qed.

Lemma hideStripValues_spec (strip : list Z) (config : Config) (r : R) :
  let puzzleStrip := (hideStripValues next strip config r).1 in
  length puzzleStrip = length strip ∧
  (∀ i x, strip !! i = Some x →
          puzzleStrip !! i = Some None ∨ puzzleStrip !! i = Some (Some x)) ∧
  matchesKnownValues strip puzzleStrip = true ∧
  (length puzzleStrip - hiddenSlots puzzleStrip
   = Z.to_nat (revealCount config strip) `min` length strip)%nat.
Proof.
  unfold hideStripValues.
  pose proof (shuffleFrom_Permutation (length (seq 0 (length strip)) - 1)
                (seq 0 (length strip)) r) as Hperm.
  fold (shuffleArray next (seq 0 (length strip)) r) in Hperm.
  destruct (shuffleArray next (seq 0 (length strip)) r) as [positions r'].
  cbn [fst] in *.
  set (hidden := drop (Z.to_nat (revealCount config strip)) positions).
  assert (∀ i, foldl (λ puzzleStrip pos, <[pos := None]> puzzleStrip)
                 (Some <$> strip) hidden !! i
               = if decide (i ∈ hidden) then (λ _, None) <$> strip !! i
                 else Some <$> strip !! i) as Hlookup
    by (intros i; apply hide_fold_lookup).
  assert (length (foldl (λ puzzleStrip pos, <[pos := None]> puzzleStrip)
                    (Some <$> strip) hidden) = length strip) as Hlen
    by (by rewrite hide_fold_length, length_fmap).
  split; [done|]. split; [|split].
  - intros i x Hx. rewrite Hlookup, Hx. case_decide; [by left|by right].
  - apply matchesKnownValues_spec. split; [done|].
    intros i v Hi. rewrite Hlookup in Hi.
    case_decide; destruct (strip !! i); simpl in Hi; congruence.
  - rewrite Hlen, hide_fold_count.
    + assert (hiddenSlots (Some <$> strip) = 0%nat) as ->.
      { unfold hiddenSlots. clear. induction strip as [|x l IH]; [done|].
        rewrite fmap_cons, filter_cons, decide_False by done. done. }
      subst hidden. rewrite length_drop, Hperm, length_seq. lia.
    + subst hidden. eapply sublist_NoDup; [|apply sublist_drop].
      rewrite Hperm. apply NoDup_seq.
    + intros h Hh. subst hidden.
      assert (h ∈ positions) as Hh'
        by (eapply elem_of_sublist; [exact Hh|apply sublist_drop]).
      clear Hh. rename Hh' into Hh. rewrite Hperm in Hh. apply elem_of_seq in Hh as [_ Hh].
      destruct (lookup_lt_is_Some_2 strip h) as [x Hx]; [lia|].
      exists x. by rewrite list_lookup_fmap, Hx.
Qed.
(** X16.  [randomInt(min, max, rng)] lies between [min] and [max], both
    included, when [min <= max]. *)
Theorem randomInt_within (min max : Z) (r : R) :
  min ≤ max → min ≤ (randomInt next min max r).1 ≤ max.
Proof. apply randomInt_range. Qed.

(** X17.  [shuffleArray] rearranges: the shuffled array is a permutation of
    the given one. *)
Theorem shuffleArray_permutes {A} (array : list A) (r : R) :
  (shuffleArray next array r).1 ≡ₚ array ∧
  length (shuffleArray next array r).1 = length array.
Proof using next_range.
  assert ((shuffleArray next array r).1 ≡ₚ array) as H
    by apply shuffleFrom_Permutation.
  split; [done|]. by rewrite H.
Qed.

(** X18.  [generatePairs] returns at most [pairCount] pairs; each is made of
    two different numbers of the configured range, smaller first, with their
    sum and product, and no pair occurs twice. *)
Theorem generatePairs_wellformed (config : Config) (r : R) :
  minNumber config ≤ maxNumber config →
  let pairs := (generatePairs next config r).1 in
  Forall (genPairOk config) pairs ∧ NoDup (gp_numbers <$> pairs) ∧
  (length pairs ≤ pairCount config)%nat.
Proof. apply generatePairs_spec. Qed.

(** X19.  [generateGrid] returns the products and sums of the pairs, two
    numbers per pair, in some order. *)
Theorem generateGrid_permutes (pairs : list GenPair) (r : R) :
  (generateGrid next pairs r).1 ≡ₚ (pairs ≫= λ p, [gp_product p; gp_sum p]) ∧
  length (generateGrid next pairs r).1 = (2 * length pairs)%nat.
Proof using next_range. apply generateGrid_spec. Qed.

(** X20.  With the configuration of a difficulty, [hideStripValues] keeps
    the length of the strip; every slot of the result is [null] or the number
    the strip has there, so the full strip matches the puzzle strip; and the
    number of slots left visible is [floor(length * revealedPercentage)]. *)
Theorem hideStripValues_hides (strip : list Z) (difficulty : Difficulty) (r : R) :
  let config := getDifficultyConfig difficulty in
  let puzzleStrip := (hideStripValues next strip config r).1 in
  length puzzleStrip = length strip ∧
  (∀ i x, strip !! i = Some x →
          puzzleStrip !! i = Some None ∨ puzzleStrip !! i = Some (Some x)) ∧
  matchesKnownValues strip puzzleStrip = true ∧
  Z.of_nat (length puzzleStrip - hiddenSlots puzzleStrip) = revealCount config strip.
Proof using next_range.
  intros config puzzleStrip.
  destruct (hideStripValues_spec strip config r) as (Hlen & Hslots & Hmatch & Hcount).
  fold puzzleStrip in Hlen, Hslots, Hmatch, Hcount.
  split; [done|]. split; [done|]. split; [done|].
  rewrite Hcount. pose proof (revealCount_bounds difficulty strip) as Hbound.
  fold config in Hbound. lia.
Qed.
End GeneratorProperties.

(** * The solver on generated puzzles *)

Lemma gridValues_lookup (numbers : list (Z * Z)) (k : nat) (ab : Z * Z) :
  numbers !! k = Some ab →
  gridValues numbers !! (2 * k)%nat = Some (ab.1 * ab.2) ∧
  gridValues numbers !! (2 * k + 1)%nat = Some (ab.1 + ab.2).
Proof.
  revert k. induction numbers as [|x numbers IH]; intros k Hk; [done|].
  unfold gridValues. rewrite bind_cons. destruct k as [|k]; simpl in *.
  - by injection Hk as ->.
  - replace (k + S (k + 0))%nat with (S (2 * k)) by lia.
    replace (k + S (k + 0) + 1)%nat with (S (2 * k + 1)) by lia.
    simpl. by apply IH.
Qed.

Lemma length_gridValues (numbers : list (Z * Z)) :
  length (gridValues numbers) = (2 * length numbers)%nat.
Proof.
  unfold gridValues. induction numbers as [|x l IH]; [done|].
  rewrite bind_cons. simpl in *. lia.
Qed.

Lemma Forall_exists_Forall2 {A B} (P : A → B → Prop) (l : list A) :
  Forall (λ x, ∃ y, P x y) l → ∃ k, Forall2 P l k.
Proof.
  induction 1 as [|x l [y Hy] _ [k Hk]]; [exists []; constructor|].
  exists (y :: k). by constructor.
Qed.

Section Decomposable.
Context (numbers : list (Z * Z)) (g : list Z) (f : nat → nat).
Hypothesis Hdistinct : NoDup numbers.
Hypothesis Hordered : Forall (λ ab, 1 ≤ ab.1 ≤ ab.2) numbers.
Hypothesis Hinj : Inj (=) (=) f.
Hypothesis Hf : ∀ i, gridValues numbers !! i = g !! f i.
Hypothesis Hsize : length g = length (gridValues numbers).

Abbreviation intended := (intendedPairs numbers g).
Abbreviation placedAt := (usePlacedAt numbers f).

Lemma intended_elem c :
  c ∈ intended ↔ c ∈ findConsistentPairs g ∧ p_pair c ∈ numbers.
Proof. unfold intendedPairs. rewrite list_elem_of_filter. tauto. Qed.

Lemma intended_keys : p_pair <$> intended ≡ₚ numbers.
Proof.
  apply NoDup_Permutation; [|done|].
  - eapply sublist_NoDup; [apply findConsistentPairs_inv|].
    apply fmap_sublist, sublist_filter.
  - intros ab. rewrite list_elem_of_fmap. split.
    + intros (c & -> & Hc). by apply intended_elem in Hc as [_ ?].
    + intros Hab. pose proof Hab as (k & Hk)%list_elem_of_lookup.
      destruct (gridValues_lookup _ _ _ Hk) as [Hm Ha]. rewrite Hf in Hm, Ha.
      destruct ab as [a b].
      destruct (findConsistentPairs_hasUse g a b (f (2 * k)) (f (2 * k + 1)))
        as (c & u & Hc & Hkey & _); [|intros Heq; apply Hinj in Heq; lia|done|done|].
      { by apply (proj1 (Forall_forall _ _) Hordered (a, b)). }
      exists c. split; [done|]. apply intended_elem. by rewrite Hkey.
Qed.

Lemma intended_placed : ∃ us, Forall2 placedAt intended us.
Proof.
  apply Forall_exists_Forall2, Forall_forall. intros c [Hc Hin]%intended_elem.
  apply list_elem_of_lookup in Hin as [k Hk].
  destruct (gridValues_lookup _ _ _ Hk) as [Hm Ha]. rewrite Hf in Hm, Ha.
  destruct (candidate_complete g c (f (2 * k)) (f (2 * k + 1)) Hc)
    as (u & Hu & Hum & Hua); [intros Heq; apply Hinj in Heq; lia|done|done|].
  exists u. split; [done|]. by exists k.
Qed.

Lemma placed_cells_origin (T : list CandidatePair) (us : list Use) (x : nat) :
  Forall2 placedAt T us → x ∈ cellsOf us →
  ∃ c k, c ∈ T ∧ numbers !! k = Some (p_pair c) ∧ (x = f (2 * k) ∨ x = f (2 * k + 1)).
Proof.
  induction 1 as [|c u T us [_ (k & Hk & Hm & Ha)] _ IH]; [by intros ?%elem_of_nil|].
  unfold cellsOf. rewrite bind_cons. fold (cellsOf us). simpl.
  rewrite !elem_of_cons. intros [->|[->|Hx]].
  - exists c, k. split; [by left|]. split; [done|by right].
  - exists c, k. split; [by left|]. split; [done|by left].
  - destruct (IH Hx) as (c' & k' & Hc' & ?). exists c', k'. split; [by right|done].
Qed.

Lemma placed_cells_NoDup (T : list CandidatePair) (us : list Use) :
  NoDup (p_pair <$> T) → Forall2 placedAt T us → NoDup (cellsOf us).
Proof.
  intros Hnd Hall. induction Hall as [|c u T us [_ (k & Hk & Hm & Ha)] Hall IH];
    [constructor|].
  rewrite fmap_cons in Hnd. apply NoDup_cons in Hnd as [Hc Hnd].
  unfold cellsOf. rewrite bind_cons. fold (cellsOf us). simpl.
  assert (∀ x, x = f (2 * k) ∨ x = f (2 * k + 1) → x ∉ cellsOf us) as Hfresh.
  { intros x Hx Hin.
    destruct (placed_cells_origin T us x Hall Hin) as (c' & k' & Hc' & Hk' & Hx').
    assert (k = k') as <-.
    { destruct Hx as [->| ->], Hx' as [Heq|Heq]; apply Hinj in Heq; lia. }
    apply Hc. apply list_elem_of_fmap. exists c'. split; [congruence|done]. }
  constructor; [|constructor; [|by apply IH]].
  - rewrite elem_of_cons. intros [Heq|Hin].
    + rewrite Ha, Hm in Heq. apply Hinj in Heq. lia.
    + apply (Hfresh (c_index (u_add u))); [by right|done].
  - apply Hfresh. by left.
Qed.

(** The intended pairs form a full combination that matches every strip the
    sorted numbers match and that covers the grid of [2 * 8] cells. *)
Lemma intended_valid :
  length numbers = 8%nat →
  intended `sublist_of` findConsistentPairs g ∧ length intended = 8%nat ∧
  buildStripFromPairs intended = sortNumbers (stripNumbers numbers) ∧
  ∃ us, Forall2 (λ p u, u ∈ p_uses p) intended us ∧ cellsOf us ≡ₚ seq 0 16.
Proof.
  intros Hlen. split; [apply sublist_filter|].
  pose proof intended_keys as Hkeys. split.
  { by rewrite <- (length_fmap p_pair), Hkeys. }
  split.
  { apply (Sorted_unique Z.le);
      [apply buildStripFromPairs_sorted|apply (Sorted_merge_sort Z.le)|].
    rewrite buildStripFromPairs_perm. unfold sortNumbers.
    rewrite merge_sort_Permutation. unfold numbersOf, stripNumbers.
    assert ((p_pair <$> intended) ≫= (λ ab, [ab.1; ab.2])
            ≡ₚ numbers ≫= (λ ab, [ab.1; ab.2])) as H by (by rewrite Hkeys).
    by rewrite list_fmap_bind in H. }
  destruct intended_placed as [us Hus]. exists us. split.
  { eapply Forall2_impl; [exact Hus|]. by intros c u [? _]. }
  assert (NoDup (cellsOf us)) as Hnd.
  { apply (placed_cells_NoDup intended); [|done]. rewrite Hkeys. done. }
  assert (length (cellsOf us) = 16%nat) as Hcells.
  { assert (length us = 8%nat) as Hus8.
    { rewrite <- (Forall2_length _ _ _ Hus).
      by rewrite <- (length_fmap p_pair), Hkeys. }
    clear -Hus8. unfold cellsOf.
    assert (∀ l : list Use, length (l ≫= λ u, [c_index (u_add u); c_index (u_mult u)])
                            = (2 * length l)%nat) as H.
    { induction l as [|u l IH]; [done|]. rewrite bind_cons. simpl in *. lia. }
    rewrite H. lia. }
  apply submseteq_length_Permutation; [|rewrite length_seq; lia].
  apply NoDup_submseteq; [done|]. intros x Hx. apply elem_of_seq. split; [lia|].
  destruct (placed_cells_origin _ _ _ Hus Hx) as (c & k & _ & Hk & Hpos).
  destruct (gridValues_lookup _ _ _ Hk) as [Hm Ha]. rewrite Hf in Hm, Ha.
  assert (length g = 16%nat) as Hg by (rewrite Hsize, length_gridValues; lia).
  apply lookup_lt_Some in Hm, Ha. destruct Hpos as [-> | ->]; lia.
Qed.
End Decomposable.

Lemma solve_decomposable (numbers : list (Z * Z)) (g : list Z)
    (s : list (option Z)) (m : Z) :
  length numbers = 8%nat → NoDup numbers →
  Forall (λ ab, 1 ≤ ab.1 ≤ ab.2) numbers →
  g ≡ₚ gridValues numbers →
  matchesKnownValues (sortNumbers (stripNumbers numbers)) s = true →
  intendedPairs numbers g ∈ exploration (findConsistentPairs g) ∧
  settled m (searchFrom s m (findConsistentPairs g)).
Proof.
  intros Hlen Hnd Hord Hperm Hm. symmetry in Hperm.
  apply Permutation_inj in Hperm as (Hsize & f & Hinj & Hf).
  destruct (intended_valid numbers g f Hnd Hord Hinj Hf (eq_sym Hsize) Hlen)
    as (Hsub & Hlen8 & Hstrip & us & Hus & Hcells).
  split.
  - apply (exploration_complete g (intendedPairs numbers g) us); [done|done|done|].
    rewrite Hcells. apply NoDup_seq.
  - apply (searchFrom_complete g s m (intendedPairs numbers g) us);
      [done|done| |done|done].
    by rewrite Hstrip.
Qed.

(** X21.  A grid made of the products and sums of 8 different pairs of
    integers [1 <= a <= b], in any order, is always decomposed: with a strip
    that the sorted 16 numbers match, the pairs form a combination that the
    search reaches, and [solve] returns a [Solution] whenever the search ends
    within its budget. *)
Theorem solve_decomposable_grid (numbers : list (Z * Z)) (gridNumbers : list Z)
    (stripValues : list (option Z)) (maxAttempts : Z) :
  length numbers = 8%nat → NoDup numbers →
  Forall (λ ab, 1 ≤ ab.1 ≤ ab.2) numbers →
  gridNumbers ≡ₚ gridValues numbers →
  matchesKnownValues (sortNumbers (stripNumbers numbers)) stripValues = true →
  intendedPairs numbers gridNumbers ∈ exploration (findConsistentPairs gridNumbers) ∧
  (tested (solveState gridNumbers stripValues maxAttempts) ≤ maxAttempts →
   is_Some (solve gridNumbers stripValues maxAttempts)).
Proof.
  intros Hlen Hnd Hord Hperm Hm.
  destruct (solve_decomposable numbers gridNumbers stripValues maxAttempts
              Hlen Hnd Hord Hperm Hm) as [Hreach Hsettled].
  split; [done|]. intros Hwithin. destruct Hsettled as [[found Hfound]|Hover].
  - exists (mkSolution (f_strip found) (f_grid found)). apply solve_Some. by exists found.
  - unfold solveState in Hwithin. lia.
Qed.

(** ** Generated puzzles *)

Lemma buildStrip_numbers (pairs : list GenPair) :
  buildStrip pairs = sortNumbers (stripNumbers (gp_numbers <$> pairs)).
Proof.
  unfold buildStrip. f_equal.
  assert (∀ acc, foldl (λ numbers pair,
              numbers ++ [(gp_numbers pair).1; (gp_numbers pair).2]) acc pairs
            = acc ++ stripNumbers (gp_numbers <$> pairs)) as H.
  { induction pairs as [|p pairs IH]; intros acc; cbn [foldl].
    - by rewrite app_nil_r.
    - rewrite IH. unfold stripNumbers. rewrite fmap_cons, bind_cons, <- app_assoc. done. }
  apply (H []).
Qed.

Lemma gridValues_pairs (config : Config) (pairs : list GenPair) :
  Forall (genPairOk config) pairs →
  (pairs ≫= λ p, [gp_product p; gp_sum p]) = gridValues (gp_numbers <$> pairs).
Proof.
  induction 1 as [|p pairs (_ & _ & _ & Hs & Hp & _) _ IH]; [done|].
  unfold gridValues in *. rewrite fmap_cons, !bind_cons, IH, Hs, Hp. done.
Qed.

Section GeneratedPuzzles.
Context {R : Type} (next : R → Z * R).
Hypothesis next_range : ∀ r, 0 ≤ (next r).1 < 2 ^ 32.

Lemma generateWith_spec (difficulty : Difficulty) (r : R) :
  let p := generateWith next difficulty r in
  let config := getDifficultyConfig difficulty in
  NoDup (pz_solution_pairs p) ∧
  Forall (λ ab, minNumber config ≤ ab.1 ∧ ab.1 < ab.2 ∧ ab.2 ≤ maxNumber config)
    (pz_solution_pairs p) ∧
  (length (pz_solution_pairs p) ≤ 8)%nat ∧
  pz_solution_strip p = sortNumbers (stripNumbers (pz_solution_pairs p)) ∧
  pz_grid p ≡ₚ gridValues (pz_solution_pairs p) ∧
  length (pz_strip p) = length (pz_solution_strip p) ∧
  matchesKnownValues (pz_solution_strip p) (pz_strip p) = true ∧
  (length (pz_strip p) - hiddenSlots (pz_strip p)
   = Z.to_nat (revealCount config (pz_solution_strip p))
     `min` length (pz_solution_strip p))%nat.
Proof.
  unfold generateWith.
  assert (minNumber (getDifficultyConfig difficulty)
          ≤ maxNumber (getDifficultyConfig difficulty)) as Hrange
    by (by destruct difficulty).
  pose proof (generatePairs_spec next next_range (getDifficultyConfig difficulty) r Hrange)
    as (Hok & Hnd & Hlen).
  destruct (generatePairs next (getDifficultyConfig difficulty) r) as [pairs r1].
  cbn [fst] in Hok, Hnd, Hlen.
  pose proof (generateGrid_spec next pairs r1) as [Hgrid _].
  destruct (generateGrid next pairs r1) as [grid r2]. cbn [fst] in Hgrid.
  pose proof (hideStripValues_spec next (buildStrip pairs)
                (getDifficultyConfig difficulty) r2) as (Hplen & _ & Hmatch & Hcount).
  destruct (hideStripValues next (buildStrip pairs) (getDifficultyConfig difficulty) r2)
    as [puzzleStrip r3].
  cbn [fst] in Hplen, Hmatch, Hcount. simpl.
  split; [done|]. split.
  { apply Forall_fmap. eapply Forall_impl; [exact Hok|].
    intros p (? & ? & ? & _). done. }
  split; [rewrite length_fmap; destruct difficulty; simpl in Hlen; lia|].
  split; [apply buildStrip_numbers|].
  split; [by rewrite Hgrid, (gridValues_pairs _ _ Hok)|].
  done.
Qed.

(** X22.  A generated puzzle is consistent with the solution recorded in
    it: the solution pairs are different pairs of two different numbers of the
    difficulty's range, the solution strip is their numbers in ascending
    order, the grid holds their products and sums in some order, and the
    puzzle strip is the solution strip with slots hidden, of which
    [floor(length * revealedPercentage)] stay visible. *)
Theorem generated_puzzle_consistent (difficulty : Difficulty) (r : R) :
  let p := generateWith next difficulty r in
  let config := getDifficultyConfig difficulty in
  NoDup (pz_solution_pairs p) ∧
  Forall (λ ab, minNumber config ≤ ab.1 ∧ ab.1 < ab.2 ∧ ab.2 ≤ maxNumber config)
    (pz_solution_pairs p) ∧
  (length (pz_solution_pairs p) ≤ 8)%nat ∧
  pz_solution_strip p = sortNumbers (stripNumbers (pz_solution_pairs p)) ∧
  pz_grid p ≡ₚ gridValues (pz_solution_pairs p) ∧
  length (pz_strip p) = length (pz_solution_strip p) ∧
  matchesKnownValues (pz_solution_strip p) (pz_strip p) = true ∧
  Z.of_nat (length (pz_strip p) - hiddenSlots (pz_strip p))
  = revealCount config (pz_solution_strip p).
Proof.
  intros p config.
  destruct (generateWith_spec difficulty r)
    as (H1 & H2 & H3 & H4 & H5 & H6 & H7 & H8).
  fold p in H1, H2, H3, H4, H5, H6, H7, H8. fold config in H2, H8.
  split; [done|]. split; [done|]. split; [done|]. split; [done|].
  split; [done|]. split; [done|]. split; [done|].
  rewrite H8. pose proof (revealCount_bounds difficulty (pz_solution_strip p)) as Hb.
  fold config in Hb. lia.
Qed.

(** X23.  The solver solves what the generator makes: for a generated
    puzzle with its 8 pairs, the search reaches the combination of the
    generated pairs, and [solve] on the puzzle's grid and strip returns a
    [Solution] whenever the search ends within its budget. *)
Theorem generated_puzzle_solved (difficulty : Difficulty) (r : R) (maxAttempts : Z) :
  let p := generateWith next difficulty r in
  length (pz_solution_pairs p) = 8%nat →
  intendedPairs (pz_solution_pairs p) (pz_grid p)
    ∈ exploration (findConsistentPairs (pz_grid p)) ∧
  (tested (solveState (pz_grid p) (pz_strip p) maxAttempts) ≤ maxAttempts →
   is_Some (solve (pz_grid p) (pz_strip p) maxAttempts)).
Proof.
  intros p Hlen.
  destruct (generateWith_spec difficulty r)
    as (Hnd & Hrange & _ & Hstrip & Hgrid & _ & Hmatch & _).
  fold p in Hnd, Hrange, Hstrip, Hgrid, Hmatch.
  destruct (solve_decomposable (pz_solution_pairs p) (pz_grid p) (pz_strip p)
              maxAttempts Hlen Hnd) as [Hreach Hsettled]; [|done|by rewrite <- Hstrip|].
  { eapply Forall_impl; [exact Hrange|]. intros ab (H1 & H2 & _).
    destruct difficulty; simpl in H1; lia. }
  split; [done|]. intros Hwithin. destruct Hsettled as [[found Hfound]|Hover].
  - exists (mkSolution (f_strip found) (f_grid found)). apply solve_Some. by exists found.
  - unfold solveState in Hwithin. lia.
Qed.

(** X24.  When the range holds a single number no pair can be drawn:
    [generatePairs] gives up after its 1000 attempts and returns no pair. *)
Theorem generatePairs_single_number (config : Config) (r : R) :
  minNumber config = maxNumber config →
  (generatePairs next config r).1 = [].
Proof.
  intros Hsame. unfold generatePairs. generalize 1000%nat as fuel.
  intros fuel. revert r. induction fuel as [|fuel IH]; intros r; [done|].
  cbn [generatePairsLoop]. case_decide; [|done].
  pose proof (randomInt_range next next_range (minNumber config) (maxNumber config) r)
    as Ha.
  destruct (randomInt next (minNumber config) (maxNumber config) r) as [a r1].
  pose proof (randomInt_range next next_range (minNumber config) (maxNumber config) r1)
    as Hb.
  destruct (randomInt next (minNumber config) (maxNumber config) r1) as [b r2].
  simpl in Ha, Hb. rewrite decide_True by lia. apply IH.
Qed.
End GeneratedPuzzles.

(** ** Witnesses with the seeded generator *)

Lemma randomInt_within_witness :
  (∀ seed, 0 ≤ (mulberry32 seed).1 < 2 ^ 32) ∧ 1 ≤ 30 ∧
  1 ≤ (randomInt mulberry32 1 30 42).1 ≤ 30.
Proof.
  assert (1 ≤ 30) as H by lia.
  split; [exact mulberry32_range|]. split; [exact H|].
  exact (randomInt_within mulberry32 mulberry32_range 1 30 42 H).
Defined.

Lemma shuffleArray_permutes_witness :
  (∀ seed, 0 ≤ (mulberry32 seed).1 < 2 ^ 32) ∧
  (shuffleArray mulberry32 [1; 2; 3; 4; 5] 42).1 ≡ₚ [1; 2; 3; 4; 5] ∧
  length (shuffleArray mulberry32 [1; 2; 3; 4; 5] 42).1 = length [1; 2; 3; 4; 5].
Proof.
  split; [exact mulberry32_range|].
  exact (shuffleArray_permutes mulberry32 mulberry32_range [1; 2; 3; 4; 5] 42).
Defined.

Lemma generateGrid_permutes_witness :
  let pairs := [mkGenPair (3, 4) 7 12 0; mkGenPair (2, 9) 11 18 0] in
  (∀ seed, 0 ≤ (mulberry32 seed).1 < 2 ^ 32) ∧
  (generateGrid mulberry32 pairs 42).1 ≡ₚ (pairs ≫= λ p, [gp_product p; gp_sum p]) ∧
  length (generateGrid mulberry32 pairs 42).1 = (2 * length pairs)%nat.
Proof.
  intros pairs. split; [exact mulberry32_range|].
  exact (generateGrid_permutes mulberry32 mulberry32_range pairs 42).
Defined.

Lemma hideStripValues_hides_witness :
  let strip := [2; 3; 5; 7; 11; 13] in
  let config := getDifficultyConfig hard in
  let puzzleStrip := (hideStripValues mulberry32 strip config 42).1 in
  (∀ seed, 0 ≤ (mulberry32 seed).1 < 2 ^ 32) ∧
  length puzzleStrip = length strip ∧
  (∀ i x, strip !! i = Some x →
          puzzleStrip !! i = Some None ∨ puzzleStrip !! i = Some (Some x)) ∧
  matchesKnownValues strip puzzleStrip = true ∧
  Z.of_nat (length puzzleStrip - hiddenSlots puzzleStrip) = revealCount config strip.
Proof.
  intros strip config puzzleStrip. split; [exact mulberry32_range|].
  exact (hideStripValues_hides mulberry32 mulberry32_range strip hard 42).
Defined.

Lemma generatePairs_wellformed_witness :
  (∀ seed, 0 ≤ (mulberry32 seed).1 < 2 ^ 32) ∧
  minNumber (getDifficultyConfig hard) ≤ maxNumber (getDifficultyConfig hard) ∧
  Forall (genPairOk (getDifficultyConfig hard))
    (generatePairs mulberry32 (getDifficultyConfig hard) 123456789).1 ∧
  NoDup (gp_numbers <$> (generatePairs mulberry32 (getDifficultyConfig hard) 123456789).1) ∧
  (length (generatePairs mulberry32 (getDifficultyConfig hard) 123456789%Z).1
   ≤ pairCount (getDifficultyConfig hard))%nat.
Proof.
  assert (minNumber (getDifficultyConfig hard) ≤ maxNumber (getDifficultyConfig hard))
    as H by (simpl; lia).
  split; [exact mulberry32_range|]. split; [exact H|].
  exact (generatePairs_wellformed mulberry32 mulberry32_range
           (getDifficultyConfig hard) 123456789 H).
Defined.

Lemma generatePairs_single_number_witness :
  (∀ seed, 0 ≤ (mulberry32 seed).1 < 2 ^ 32) ∧
  minNumber (mkConfig 7 7 8 5) = maxNumber (mkConfig 7 7 8 5) ∧
  (generatePairs mulberry32 (mkConfig 7 7 8 5) 42).1 = [].
Proof.
  split; [exact mulberry32_range|]. split; [reflexivity|].
  exact (generatePairs_single_number mulberry32 mulberry32_range
           (mkConfig 7 7 8 5) 42 eq_refl).
Defined.

Lemma generated_puzzle_consistent_witness :
  (∀ seed, 0 ≤ (mulberry32 seed).1 < 2 ^ 32) ∧
  let p := generateWith mulberry32 medium 42 in
  let config := getDifficultyConfig medium in
  NoDup (pz_solution_pairs p) ∧
  Forall (λ ab, minNumber config ≤ ab.1 ∧ ab.1 < ab.2 ∧ ab.2 ≤ maxNumber config)
    (pz_solution_pairs p) ∧
  (length (pz_solution_pairs p) ≤ 8)%nat ∧
  pz_solution_strip p = sortNumbers (stripNumbers (pz_solution_pairs p)) ∧
  pz_grid p ≡ₚ gridValues (pz_solution_pairs p) ∧
  length (pz_strip p) = length (pz_solution_strip p) ∧
  matchesKnownValues (pz_solution_strip p) (pz_strip p) = true ∧
  Z.of_nat (length (pz_strip p) - hiddenSlots (pz_strip p))
  = revealCount config (pz_solution_strip p).
Proof.
  split; [exact mulberry32_range|].
  exact (generated_puzzle_consistent mulberry32 mulberry32_range medium 42).
Defined.

Example generate_42 :
  pz_grid (generate 42 medium)
    = [33; 171; 41; 96; 390; 47; 22; 33; 216; 546; 230; 399; 40; 35; 28; 266] ∧
  pz_strip (generate 42 medium)
    = [None; Some 8; None; Some 10; None; None; None; Some 19; Some 19; Some 19;
       Some 21; Some 21; None; None; Some 26; None] ∧
  pz_solution_pairs (generate 42 medium)
    = [(14, 19); (21, 26); (6, 16); (9, 19); (15, 26); (8, 27); (10, 23); (19, 21)].
Proof. split; [|split]; vm_compute; reflexivity. Qed.

Lemma generated_puzzle_solved_witness :
  let p := generateWith mulberry32 medium 42 in
  (∀ seed, 0 ≤ (mulberry32 seed).1 < 2 ^ 32) ∧
  length (pz_solution_pairs p) = 8%nat ∧
  tested (solveState (pz_grid p) (pz_strip p) 50000) ≤ 50000 ∧
  intendedPairs (pz_solution_pairs p) (pz_grid p)
    ∈ exploration (findConsistentPairs (pz_grid p)) ∧
  is_Some (solve (pz_grid p) (pz_strip p) 50000).
Proof.
  intros p.
  assert (length (pz_solution_pairs p) = 8%nat) as Hlen by (vm_compute; reflexivity).
  assert (tested (solveState (pz_grid p) (pz_strip p) 50000) ≤ 50000) as Hwithin
    by (vm_compute; intros Hgt; discriminate Hgt).
  pose proof (generated_puzzle_solved mulberry32 mulberry32_range medium 42 50000)
    as Hsolved.
  cbv zeta in Hsolved. fold p in Hsolved.
  split; [exact mulberry32_range|]. split; [exact Hlen|]. split; [exact Hwithin|].
  split; [exact (proj1 (Hsolved Hlen))|exact (proj2 (Hsolved Hlen) Hwithin)].
Defined.

Lemma solve_decomposable_grid_witness :
  let numbers := [(3, 4); (4, 17); (6, 19); (7, 8); (9, 24); (10, 13); (14, 23); (14, 25)] in
  length numbers = 8%nat ∧ NoDup numbers ∧
  Forall (λ ab, 1 ≤ ab.1 ≤ ab.2) numbers ∧
  plainGrid ≡ₚ gridValues numbers ∧
  matchesKnownValues (sortNumbers (stripNumbers numbers)) plainStrip = true ∧
  tested (solveState plainGrid plainStrip 50000) ≤ 50000 ∧
  intendedPairs numbers plainGrid ∈ exploration (findConsistentPairs plainGrid) ∧
  is_Some (solve plainGrid plainStrip 50000).
Proof.
  intros numbers.
  assert (NoDup numbers) as Hnd by (apply (bool_decide_unpack _); vm_compute; exact I).
  assert (Forall (λ ab, 1 ≤ ab.1 ≤ ab.2) numbers) as Hord
    by (repeat constructor; simpl; lia).
  assert (plainGrid ≡ₚ gridValues numbers) as Hperm by reflexivity.
  assert (matchesKnownValues (sortNumbers (stripNumbers numbers)) plainStrip = true)
    as Hm by (vm_compute; reflexivity).
  assert (tested (solveState plainGrid plainStrip 50000) ≤ 50000) as Hwithin
    by (vm_compute; intros Hgt; discriminate Hgt).
  split; [reflexivity|]. split; [exact Hnd|]. split; [exact Hord|].
  split; [exact Hperm|]. split; [exact Hm|]. split; [exact Hwithin|].
  destruct (solve_decomposable_grid numbers plainGrid plainStrip 50000
              eq_refl Hnd Hord Hperm Hm) as [Hreach Hsolved].
  split; [exact Hreach|exact (Hsolved Hwithin)].
Defined.

(** * The solver before the backtracking search *)

Lemma tryCombinations_spec (stripValues : list (option Z)) (maxAttempts : Z)
    (combos : list (list CandidatePair)) (tested : Z) :
  Earlier.tryCombinations stripValues maxAttempts tested combos =
    match list_find (Earlier.accepts stripValues)
            (take (Z.to_nat (maxAttempts - tested)) combos) with
    | Some (k, combo) =>
        Some (Earlier.mkChosen combo (buildStripFromPairs combo)
                (tested + Z.of_nat k + 1))
    | None => None
    end.
Proof.
  revert tested. induction combos as [|combo combos IH]; intros tested.
  - by rewrite take_nil.
  - cbn [Earlier.tryCombinations]. case_decide as Hgt.
    + by replace (Z.to_nat (maxAttempts - tested)) with 0%nat by lia.
    + replace (Z.to_nat (maxAttempts - tested))
        with (S (Z.to_nat (maxAttempts - (tested + 1)))) by lia.
      cbn [take list_find]. rewrite IH.
      destruct (decide (Earlier.accepts stripValues combo)) as [[H1 H2]|Hn].
      * rewrite H1, H2. cbn. do 2 f_equal. lia.
      * assert (matchesKnownValues (buildStripFromPairs combo) stripValues
                && Earlier.canAssignToGrid combo = false) as ->.
        { apply not_true_is_false. intros H. apply andb_true_iff in H. by apply Hn. }
        destruct (list_find _ _) as [[k c]|]; [|done]. cbn. do 2 f_equal. lia.
Qed.

Lemma findOptimalCombination_first (allPairs : list CandidatePair)
    (stripValues : list (option Z)) (maxAttempts : Z) :
  Earlier.findOptimalCombination allPairs stripValues maxAttempts =
    match list_find (Earlier.accepts stripValues)
            (take (Z.to_nat maxAttempts) (combinations 7 allPairs)) with
    | Some (k, combo) =>
        Some (Earlier.mkChosen combo (buildStripFromPairs combo) (Z.of_nat k + 1))
    | None => None
    end.
Proof.
  unfold Earlier.findOptimalCombination. rewrite tryCombinations_spec.
  by rewrite Z.sub_0_r.
Qed.

(** What is known of a combination that the earlier search returns. *)
Lemma findOptimalCombination_chosen (allPairs : list CandidatePair)
    (stripValues : list (option Z)) (maxAttempts : Z) (chosen : Earlier.Chosen) :
  Earlier.findOptimalCombination allPairs stripValues maxAttempts = Some chosen →
  Earlier.ch_pairs chosen `sublist_of` allPairs ∧
  length (Earlier.ch_pairs chosen) = 8%nat ∧
  Earlier.ch_strip chosen = buildStripFromPairs (Earlier.ch_pairs chosen) ∧
  Earlier.accepts stripValues (Earlier.ch_pairs chosen) ∧
  1 ≤ Earlier.ch_tested chosen ≤ maxAttempts.
Proof.
  rewrite findOptimalCombination_first.
  destruct (list_find _ _) as [[k combo]|] eqn:Hfind; [|done].
  intros [= <-]. cbn. apply list_find_Some in Hfind as (Hk & Hacc & _).
  pose proof (lookup_lt_Some _ _ _ Hk) as Hlt. rewrite length_take in Hlt.
  apply lookup_take_Some in Hk as [Hk _].
  apply list_elem_of_lookup_2, combinations_spec in Hk as [Hsub Hlen].
  split; [done|]. split; [done|]. split; [done|]. split; [done|]. lia.
Qed.

(** X25.  The earlier [findOptimalCombination] returns the first of the
    first [maxAttempts] combinations of [combinations(allPairs, 8)] whose
    strip matches and that [canAssignToGrid] accepts, with [tested] its
    position counted from 1; so it never checks more than [maxAttempts]
    combinations, and none when [maxAttempts] is not positive. *)
Theorem earlier_search_within_budget (allPairs : list CandidatePair)
    (stripValues : list (option Z)) (maxAttempts : Z) :
  Earlier.findOptimalCombination allPairs stripValues maxAttempts =
    match list_find (Earlier.accepts stripValues)
            (take (Z.to_nat maxAttempts) (combinations 7 allPairs)) with
    | Some (k, combo) =>
        Some (Earlier.mkChosen combo (buildStripFromPairs combo) (Z.of_nat k + 1))
    | None => None
    end ∧
  ∀ chosen,
    Earlier.findOptimalCombination allPairs stripValues maxAttempts = Some chosen →
    1 ≤ Earlier.ch_tested chosen ≤ maxAttempts.
Proof.
  split; [apply findOptimalCombination_first|].
  intros chosen Hc. by apply findOptimalCombination_chosen in Hc as (_ & _ & _ & _ & ?).
Qed.

Lemma pickedCells_cons (j m : nat) (picks : list (nat * nat)) :
  Earlier.pickedCells ((j, m) :: picks) = j :: m :: Earlier.pickedCells picks.
Proof. done. Qed.

Lemma pickedCells_elem (picks : list (nat * nat)) (x : nat) :
  x ∈ Earlier.pickedCells picks ↔ x ∈ picks.*1 ∨ x ∈ picks.*2.
Proof.
  induction picks as [|[j m] picks IH].
  - change (Earlier.pickedCells []) with (@nil nat). rewrite !fmap_nil, !elem_of_nil.
    tauto.
  - rewrite pickedCells_cons, !fmap_cons, !elem_of_cons, IH. simpl. tauto.
Qed.

Lemma pickedCells_NoDup (picks : list (nat * nat)) :
  NoDup (Earlier.pickedCells picks) → NoDup picks.*1 ∧ NoDup picks.*2.
Proof.
  induction picks as [|[j m] picks IH]; [by split; constructor|].
  rewrite pickedCells_cons, !fmap_cons. simpl fst. simpl snd.
  intros Hnd. apply NoDup_cons in Hnd as [Hj Hnd]. apply NoDup_cons in Hnd as [Hm Hnd].
  destruct (IH Hnd) as [H1 H2]. rewrite elem_of_cons, pickedCells_elem in Hj.
  rewrite pickedCells_elem in Hm.
  split; apply NoDup_cons; (split; [tauto|done]).
Qed.

Lemma length_pickedCells (picks : list (nat * nat)) :
  length (Earlier.pickedCells picks) = (2 * length picks)%nat.
Proof.
  induction picks as [|[j m] picks IH]; [done|].
  rewrite pickedCells_cons. cbn [length]. lia.
Qed.

Lemma addFree_spec (ua um : gset nat) (u : Use) :
  Earlier.addFree ua um u = true ↔ (c_index (u_add u) ∉ ua) ∧ (c_index (u_add u) ∉ um).
Proof.
  unfold Earlier.addFree. by rewrite andb_true_iff, !bool_decide_eq_true.
Qed.

Lemma multFree_spec (ua um : gset nat) (u : Use) :
  Earlier.multFree ua um u = true ↔ (c_index (u_mult u) ∉ um) ∧ (c_index (u_mult u) ∉ ua).
Proof.
  unfold Earlier.multFree. by rewrite andb_true_iff, !bool_decide_eq_true.
Qed.

(** What the greedy choice of [canAssignToGrid] has taken when it comes to
    the end of the pairs. *)
Lemma greedyCells_spec (pairs : list CandidatePair) (ua um ua' um' : gset nat) :
  Earlier.greedyCells pairs ua um = Some (ua', um') →
  ∃ picks, Earlier.pickedFrom pairs picks ∧
    NoDup (Earlier.pickedCells picks) ∧
    (∀ x, x ∈ Earlier.pickedCells picks → (x ∉ ua) ∧ (x ∉ um)) ∧
    ua' = list_to_set (picks.*1) ∪ ua ∧ um' = list_to_set (picks.*2) ∪ um.
Proof.
  revert ua um. induction pairs as [|p pairs IH]; intros ua um.
  - intros [= <- <-]. exists []. split; [constructor|]. split; [constructor|].
    split; [intros x Hx; by apply elem_of_nil in Hx|].
    rewrite !fmap_nil, list_to_set_nil. by rewrite !(left_id_L ∅ (∪)).
  - cbn [Earlier.greedyCells].
    destruct (find (Earlier.addFree ua um) (p_uses p)) as [au|] eqn:Hau; [|done].
    destruct (find (Earlier.multFree _ um) (p_uses p)) as [mu|] eqn:Hmu; [|done].
    apply find_some in Hau as [Hau Hafree], Hmu as [Hmu Hmfree].
    apply list_elem_of_In in Hau, Hmu.
    apply addFree_spec in Hafree as [Ha1 Ha2].
    apply multFree_spec in Hmfree as [Hm1 Hm2].
    rewrite elem_of_union, elem_of_singleton in Hm2.
    intros Hrest. destruct (IH _ _ Hrest) as (picks & Hfrom & Hnd & Hfresh & -> & ->).
    exists ((c_index (u_add au), c_index (u_mult mu)) :: picks).
    assert (∀ x, x ∈ Earlier.pickedCells picks →
                 x ≠ c_index (u_add au) ∧ x ≠ c_index (u_mult mu) ∧ (x ∉ ua) ∧ (x ∉ um))
      as Hfresh'.
    { intros x Hx. destruct (Hfresh x Hx) as [H1 H2].
      rewrite elem_of_union, elem_of_singleton in H1, H2. tauto. }
    split; [|split; [|split; [|split]]].
    + constructor; [|done]. split; [by exists au|by exists mu].
    + rewrite pickedCells_cons. apply NoDup_cons. split.
      * rewrite elem_of_cons. intros [Heq|Hin]; [apply Hm2; by left|].
        by destruct (Hfresh' _ Hin) as (? & _).
      * apply NoDup_cons. split; [|done]. intros Hin.
        by destruct (Hfresh' _ Hin) as (_ & ? & _).
    + intros x. rewrite pickedCells_cons, !elem_of_cons.
      intros [->|[->|Hin]]; [tauto|tauto|]. destruct (Hfresh' _ Hin); tauto.
    + rewrite fmap_cons, list_to_set_cons. apply set_eq. intros x.
      rewrite !elem_of_union. simpl. tauto.
    + rewrite fmap_cons, list_to_set_cons. apply set_eq. intros x.
      rewrite !elem_of_union. simpl. tauto.
Qed.

Lemma canAssignToGrid_picks (pairs : list CandidatePair) :
  Earlier.canAssignToGrid pairs = true →
  length pairs = 8%nat ∧
  ∃ picks, Earlier.pickedFrom pairs picks ∧ NoDup (Earlier.pickedCells picks).
Proof.
  unfold Earlier.canAssignToGrid.
  destruct (Earlier.greedyCells pairs ∅ ∅) as [[ua um]|] eqn:Hg; [|done].
  intros Hsize. apply andb_true_iff in Hsize as [Hsize _].
  apply bool_decide_eq_true in Hsize.
  destruct (greedyCells_spec _ _ _ _ _ Hg) as (picks & Hfrom & Hnd & _ & -> & _).
  split; [|by exists picks].
  rewrite (right_id_L ∅ (∪)) in Hsize.
  rewrite size_list_to_set in Hsize by apply (pickedCells_NoDup _ Hnd).
  rewrite length_fmap in Hsize. by rewrite (Forall2_length _ _ _ Hfrom).
Qed.

(** X26.  When [canAssignToGrid] accepts a list of pairs, there are 8 of
    them, and each has a use with a free addition cell and a use with a free
    multiplication cell such that the 16 cells taken are pairwise
    different. *)
Theorem canAssignToGrid_sound (pairs : list CandidatePair) :
  Earlier.canAssignToGrid pairs = true →
  length pairs = 8%nat ∧
  ∃ picks, Earlier.pickedFrom pairs picks ∧ NoDup (Earlier.pickedCells picks) ∧
           length (Earlier.pickedCells picks) = 16%nat.
Proof.
  intros H. destruct (canAssignToGrid_picks pairs H) as (Hlen & picks & Hfrom & Hnd).
  split; [done|]. exists picks. split; [done|]. split; [done|].
  rewrite length_pickedCells, <- (Forall2_length _ _ _ Hfrom). lia.
Qed.

Lemma find_pointwise {A} (f g : A → bool) (l : list A) :
  (∀ x, f x = g x) → find f l = find g l.
Proof.
  intros Hfg. induction l as [|x l IH]; [done|]. simpl. by rewrite Hfg, IH.
Qed.

Lemma bool_decide_not_union (x : nat) (X Y : gset nat) :
  bool_decide (x ∉ X ∪ Y) = bool_decide (x ∉ X) && bool_decide (x ∉ Y).
Proof.
  apply Bool.eq_iff_eq_true.
  rewrite andb_true_iff, !bool_decide_eq_true, elem_of_union. tauto.
Qed.

(** The greedy choice of [solve] takes the cells that [canAssignToGrid]
    took: its set [filledCells] is the union of the two sets there. *)
Lemma mapPair_greedy (pairs : list CandidatePair) (ua um ua' um' : gset nat)
    (grid : gmap nat Equation) :
  Earlier.greedyCells pairs ua um = Some (ua', um') →
  (∀ i, is_Some (grid !! i) ↔ i ∈ ua ∪ um) →
  ∃ grid', foldl Earlier.mapPair (grid, ua ∪ um) pairs = (grid', ua' ∪ um') ∧
           ∀ i, is_Some (grid' !! i) ↔ i ∈ ua' ∪ um'.
Proof.
  revert ua um grid. induction pairs as [|p pairs IH]; intros ua um grid.
  - intros [= <- <-] Hdom. by exists grid.
  - cbn [Earlier.greedyCells foldl].
    destruct (find (Earlier.addFree ua um) (p_uses p)) as [au|] eqn:Hau; [|done].
    destruct (find (Earlier.multFree _ um) (p_uses p)) as [mu|] eqn:Hmu; [|done].
    intros Hrest Hdom. unfold Earlier.mapPair at 2. destruct (p_pair p) as [a b].
    rewrite (find_pointwise _ (Earlier.addFree ua um)), Hau; last first.
    { intros u. apply bool_decide_not_union. }
    rewrite (find_pointwise _ (Earlier.multFree ({[c_index (u_add au)]} ∪ ua) um)), Hmu;
      last first.
    { intros u. unfold Earlier.multFree. rewrite andb_comm, <- bool_decide_not_union.
      apply bool_decide_ext. rewrite !elem_of_union. tauto. }
    replace ({[c_index (u_mult mu)]} ∪ ({[c_index (u_add au)]} ∪ (ua ∪ um)))
      with (({[c_index (u_add au)]} ∪ ua) ∪ ({[c_index (u_mult mu)]} ∪ um));
      last first.
    { apply set_eq. intros x. rewrite !elem_of_union. tauto. }
    apply (IH _ _ _ Hrest). intros i.
    rewrite !elem_of_union, !elem_of_singleton.
    destruct (decide (i = c_index (u_mult mu))) as [->|Hm].
    { rewrite lookup_insert_eq. split; [tauto|by eexists]. }
    rewrite lookup_insert_ne by done.
    destruct (decide (i = c_index (u_add au))) as [->|Ha].
    { rewrite lookup_insert_eq. split; [tauto|by eexists]. }
    rewrite lookup_insert_ne by done. rewrite Hdom, elem_of_union. tauto.
Qed.

Lemma mapPair_equations (g : list Z) (pairs : list CandidatePair)
    (grid : gmap nat Equation) (filledCells : gset nat) :
  Forall (λ p, p ∈ findConsistentPairs g) pairs →
  (∀ i e, grid !! i = Some e → g !! i = Some (evalEquation e)) →
  ∀ i e, (foldl Earlier.mapPair (grid, filledCells) pairs).1 !! i = Some e →
         g !! i = Some (evalEquation e).
Proof.
  intros Hall. revert grid filledCells.
  induction Hall as [|p pairs Hp _ IH]; intros grid filledCells Hgrid; [done|].
  cbn [foldl].
  assert (∃ grid' filled', Earlier.mapPair (grid, filledCells) p = (grid', filled') ∧
            ∀ i e, grid' !! i = Some e → g !! i = Some (evalEquation e))
    as (grid' & filled' & -> & Hgrid'); [|by apply IH].
  unfold Earlier.mapPair. destruct (p_pair p) as [a b] eqn:Hpair.
  assert (∃ grid1 filled1,
            match find (λ u, bool_decide (c_index (u_add u) ∉ filledCells)) (p_uses p) with
            | Some addUse =>
                (<[c_index (u_add addUse) := mkEquation a Plus b]> grid,
                 {[c_index (u_add addUse)]} ∪ filledCells)
            | None => (grid, filledCells)
            end = (grid1, filled1) ∧
            ∀ i e, grid1 !! i = Some e → g !! i = Some (evalEquation e))
    as (grid1 & filled1 & -> & Hgrid1).
  { destruct (find _ (p_uses p)) as [au|] eqn:Hau; [|by eexists _, _].
    eexists _, _. split; [done|]. intros i e.
    apply find_some in Hau as [Hau _]. apply list_elem_of_In in Hau.
    destruct (member_use_sound g p au Hp Hau) as (_ & _ & Hadd & _).
    rewrite Hpair in Hadd.
    destruct (decide (i = c_index (u_add au))) as [->|Hne].
    - rewrite lookup_insert_eq. by intros [= <-].
    - rewrite lookup_insert_ne by done. apply Hgrid. }
  destruct (find _ (p_uses p)) as [mu|] eqn:Hmu; [|by eexists _, _].
  eexists _, _. split; [done|]. intros i e.
  apply find_some in Hmu as [Hmu _]. apply list_elem_of_In in Hmu.
  destruct (member_use_sound g p mu Hp Hmu) as (_ & Hmult & _).
  rewrite Hpair in Hmult.
  destruct (decide (i = c_index (u_mult mu))) as [->|Hne].
  - rewrite lookup_insert_eq. by intros [= <-].
  - rewrite lookup_insert_ne by done. apply Hgrid1.
Qed.

(** The cells taken for candidates of a grid of at most 16 numbers, 16
    different ones, are the cells 0 to 15. *)
Lemma pickedCells_all (g : list Z) (pairs : list CandidatePair)
    (picks : list (nat * nat)) :
  (length g ≤ 16)%nat → Forall (λ p, p ∈ findConsistentPairs g) pairs →
  Earlier.pickedFrom pairs picks → NoDup (Earlier.pickedCells picks) →
  length (Earlier.pickedCells picks) = 16%nat →
  Earlier.pickedCells picks ≡ₚ seq 0 16.
Proof.
  intros Hg Hall Hfrom Hnd Hlen.
  apply submseteq_length_Permutation; [|by rewrite Hlen, length_seq].
  apply NoDup_submseteq; [done|]. intros x Hx. apply elem_of_seq.
  split; [lia|]. cut (x < length g)%nat; [lia|]. clear Hnd Hlen.
  induction Hfrom as [|p [j m] pairs picks [(u1 & Hu1 & Hj) (u2 & Hu2 & Hm)] _ IH].
  - by apply elem_of_nil in Hx.
  - apply Forall_cons in Hall as [Hp Hall].
    rewrite pickedCells_cons, !elem_of_cons in Hx. simpl in Hj, Hm.
    destruct (member_use_sound g p u1 Hp Hu1) as (_ & _ & Hadd & _).
    destruct (member_use_sound g p u2 Hp Hu2) as (_ & Hmult & _).
    destruct Hx as [->|[->|Hx]]; [| |by apply IH].
    + rewrite <- Hj. by eapply lookup_lt_Some.
    + rewrite <- Hm. by eapply lookup_lt_Some.
Qed.

(** Each pair has a single use on the two cells taken for it. *)
Lemma picked_uses (g : list Z) (pairs : list CandidatePair) (picks : list (nat * nat)) :
  Forall (λ p, p ∈ findConsistentPairs g) pairs →
  Earlier.pickedFrom pairs picks → NoDup (Earlier.pickedCells picks) →
  ∃ us, Forall2 (λ p u, u ∈ p_uses p) pairs us ∧ cellsOf us = Earlier.pickedCells picks.
Proof.
  intros Hall Hfrom.
  induction Hfrom as [|p [j m] pairs picks [(u1 & Hu1 & Hj) (u2 & Hu2 & Hm)] _ IH].
  - intros _. exists []. by split; [constructor|].
  - apply Forall_cons in Hall as [Hp Hall]. rewrite pickedCells_cons.
    intros Hnd. apply NoDup_cons in Hnd as [Hjm Hnd].
    apply NoDup_cons in Hnd as [_ Hnd].
    destruct (IH Hall Hnd) as (us & Hus & Hcells). simpl in Hj, Hm.
    destruct (member_use_sound g p u1 Hp Hu1) as (_ & _ & Hadd & _).
    destruct (member_use_sound g p u2 Hp Hu2) as (_ & Hmult & _).
    rewrite Hj in Hadd. rewrite Hm in Hmult.
    destruct (candidate_complete g p m j Hp) as (u & Hu & Hum & Hua); [|done|done|].
    { intros ->. apply Hjm. by left. }
    exists (u :: us). split; [by constructor|].
    change (cellsOf (u :: us)) with (c_index (u_add u) :: c_index (u_mult u) :: cellsOf us).
    by rewrite Hua, Hum, Hcells.
Qed.

(** Whatever holds of the two equations of a pair on the cells of each of
    its uses holds of every equation that the loop of [solve] writes. *)
Lemma mapPair_cells (Q : nat → Equation → Prop) (pairs : list CandidatePair)
    (grid : gmap nat Equation) (filledCells : gset nat) :
  Forall (λ p, ∀ u, u ∈ p_uses p →
            Q (c_index (u_add u)) (mkEquation (p_pair p).1 Plus (p_pair p).2) ∧
            Q (c_index (u_mult u)) (mkEquation (p_pair p).1 Times (p_pair p).2))
    pairs →
  (∀ i e, grid !! i = Some e → Q i e) →
  ∀ i e, (foldl Earlier.mapPair (grid, filledCells) pairs).1 !! i = Some e → Q i e.
Proof.
  intros Hall. revert grid filledCells.
  induction Hall as [|p pairs Hp _ IH]; intros grid filledCells Hgrid; [done|].
  cbn [foldl].
  assert (∃ grid' filled', Earlier.mapPair (grid, filledCells) p = (grid', filled') ∧
            ∀ i e, grid' !! i = Some e → Q i e)
    as (grid' & filled' & -> & Hgrid'); [|by apply IH].
  unfold Earlier.mapPair. destruct (p_pair p) as [a b] eqn:Hpair. simpl in Hp.
  assert (∃ grid1 filled1,
            match find (λ u, bool_decide (c_index (u_add u) ∉ filledCells)) (p_uses p) with
            | Some addUse =>
                (<[c_index (u_add addUse) := mkEquation a Plus b]> grid,
                 {[c_index (u_add addUse)]} ∪ filledCells)
            | None => (grid, filledCells)
            end = (grid1, filled1) ∧
            ∀ i e, grid1 !! i = Some e → Q i e)
    as (grid1 & filled1 & -> & Hgrid1).
  { destruct (find _ (p_uses p)) as [au|] eqn:Hau; [|by eexists _, _].
    eexists _, _. split; [done|]. intros i e.
    apply find_some in Hau as [Hau _]. apply list_elem_of_In in Hau.
    destruct (decide (i = c_index (u_add au))) as [->|Hne].
    - rewrite lookup_insert_eq. intros [= <-]. by apply Hp.
    - rewrite lookup_insert_ne by done. apply Hgrid. }
  destruct (find _ (p_uses p)) as [mu|] eqn:Hmu; [|by eexists _, _].
  eexists _, _. split; [done|]. intros i e.
  apply find_some in Hmu as [Hmu _]. apply list_elem_of_In in Hmu.
  destruct (decide (i = c_index (u_mult mu))) as [->|Hne].
  - rewrite lookup_insert_eq. intros [= <-]. by apply Hp.
  - rewrite lookup_insert_ne by done. apply Hgrid1.
Qed.

(** X27.  A result of the earlier [solve] is built from 8 candidates of the
    grid, taken in list order: its strip is their sorted strip, which holds
    their 16 numbers and agrees with the known strip values; every equation
    written in its grid is the sum or the product of one of these candidates
    and evaluates to the number of its cell; and for a grid of at most 16
    numbers each of the cells 0 to 15, and no other, holds an equation. *)
Theorem earlier_solve_verified (gridNumbers : list Z) (stripValues : list (option Z))
    (maxAttempts : Z) (result : Earlier.Result) :
  Earlier.solve gridNumbers stripValues maxAttempts = Some result →
  (∃ combo,
     combo `sublist_of` findConsistentPairs gridNumbers ∧ length combo = 8%nat ∧
     Earlier.r_strip result = buildStripFromPairs combo ∧
     Earlier.r_strip result ≡ₚ numbersOf combo ∧
     ∀ i e, Earlier.r_grid result !! i = Some e →
            ∃ p, p ∈ combo ∧ (num1 e, num2 e) = p_pair p) ∧
  (Sorted Z.le (Earlier.r_strip result) ∧ length (Earlier.r_strip result) = 16%nat ∧
   matchesKnownValues (Earlier.r_strip result) stripValues = true) ∧
  (∀ i e, Earlier.r_grid result !! i = Some e →
          gridNumbers !! i = Some (evalEquation e)) ∧
  ((length gridNumbers ≤ 16)%nat →
   ∀ i, (i < 16)%nat ↔ is_Some (Earlier.r_grid result !! i)).
Proof.
  unfold Earlier.solve.
  destruct (Earlier.findOptimalCombination _ _ _) as [chosen|] eqn:Hfind; [|done].
  intros [= <-]. cbn.
  apply findOptimalCombination_chosen in Hfind as (Hsub & Hlen & -> & [Hm Hcan] & _).
  pose proof (proj1 (Forall_forall _ _)
                (Forall_sublist_candidates _ _ Hsub)) as Hsound.
  assert (Forall (λ p, p ∈ findConsistentPairs gridNumbers) (Earlier.ch_pairs chosen))
    as Hall.
  { apply Forall_forall. intros p Hp. by eapply elem_of_sublist. }
  split; [|split; [|split]].
  - exists (Earlier.ch_pairs chosen). split; [done|]. split; [done|].
    split; [done|]. split; [apply buildStripFromPairs_perm|].
    apply (mapPair_cells
             (λ _ e, ∃ p, p ∈ Earlier.ch_pairs chosen ∧ (num1 e, num2 e) = p_pair p)).
    + apply Forall_forall. intros p Hp u _.
      split; exists p; (split; [done|]); simpl; by destruct (p_pair p).
    + intros i e. by rewrite lookup_empty.
  - split; [apply buildStripFromPairs_sorted|]. split; [|done].
    rewrite length_buildStripFromPairs, Hlen. done.
  - apply mapPair_equations; [done|]. intros i e. by rewrite lookup_empty.
  - intros Hg i. unfold Earlier.canAssignToGrid in Hcan.
    destruct (Earlier.greedyCells _ ∅ ∅) as [[ua um]|] eqn:Hgreedy; [|done].
    destruct (greedyCells_spec _ _ _ _ _ Hgreedy)
      as (picks & Hfrom & Hnd & _ & Hua & Hum).
    destruct (mapPair_greedy _ _ _ _ _ ∅ Hgreedy) as (grid' & Hfold & Hdom).
    { intros k. rewrite lookup_empty, elem_of_union, !elem_of_empty.
      split; [by intros [? ?]|tauto]. }
    rewrite (left_id_L ∅ (∪)) in Hfold. rewrite Hfold. cbn. rewrite Hdom.
    assert (length (Earlier.pickedCells picks) = 16%nat) as Hlen16.
    { rewrite length_pickedCells, <- (Forall2_length _ _ _ Hfrom), Hlen. done. }
    pose proof (pickedCells_all _ _ _ Hg Hall Hfrom Hnd Hlen16) as Hperm.
    rewrite Hua, Hum, !(right_id_L ∅ (∪)), elem_of_union, !elem_of_list_to_set.
    rewrite <- pickedCells_elem, Hperm, elem_of_seq. lia.
Qed.

(** X28.  The later solver finds a solution wherever the earlier one does:
    if the earlier [solve] returns a result for a grid of at most 16
    numbers, the later [solve] returns a [Solution] for the same puzzle
    whenever its search ends within its budget. *)
Theorem later_solver_covers_earlier (gridNumbers : list Z)
    (stripValues : list (option Z)) (earlierAttempts maxAttempts : Z) :
  (length gridNumbers ≤ 16)%nat →
  is_Some (Earlier.solve gridNumbers stripValues earlierAttempts) →
  tested (solveState gridNumbers stripValues maxAttempts) ≤ maxAttempts →
  is_Some (solve gridNumbers stripValues maxAttempts).
Proof.
  intros Hg [result Hres] Hwithin. unfold Earlier.solve in Hres.
  destruct (Earlier.findOptimalCombination _ _ _) as [chosen|] eqn:Hfind; [|done].
  apply findOptimalCombination_chosen in Hfind as (Hsub & Hlen & _ & [Hm Hcan] & _).
  assert (Forall (λ p, p ∈ findConsistentPairs gridNumbers) (Earlier.ch_pairs chosen))
    as Hall.
  { apply Forall_forall. intros p Hp. by eapply elem_of_sublist. }
  destruct (canAssignToGrid_picks _ Hcan) as (_ & picks & Hfrom & Hnd).
  assert (length (Earlier.pickedCells picks) = 16%nat) as Hlen16.
  { rewrite length_pickedCells, <- (Forall2_length _ _ _ Hfrom), Hlen. done. }
  destruct (picked_uses _ _ _ Hall Hfrom Hnd) as (us & Hus & Hcells).
  pose proof (pickedCells_all _ _ _ Hg Hall Hfrom Hnd Hlen16) as Hperm.
  rewrite <- Hcells in Hperm.
  destruct (searchFrom_complete gridNumbers stripValues maxAttempts
              (Earlier.ch_pairs chosen) us Hsub Hlen Hm Hus Hperm) as [[found Hf]|Hover].
  - exists (mkSolution (f_strip found) (f_grid found)). apply solve_Some. by exists found.
  - unfold solveState in Hwithin. lia.
Qed.

Lemma canAssignToGrid_sound_witness :
  let pairs := findConsistentPairs plainGrid in
  Earlier.canAssignToGrid pairs = true ∧
  length pairs = 8%nat ∧
  ∃ picks, Earlier.pickedFrom pairs picks ∧ NoDup (Earlier.pickedCells picks) ∧
           length (Earlier.pickedCells picks) = 16%nat.
Proof.
  intros pairs.
  assert (Earlier.canAssignToGrid pairs = true) as H by (vm_compute; reflexivity).
  split; [exact H|]. exact (canAssignToGrid_sound pairs H).
Defined.

Lemma earlier_solve_verified_witness :
  ∃ result, Earlier.solve sampleGrid sampleStrip 20000 = Some result ∧
    (∃ combo,
       combo `sublist_of` findConsistentPairs sampleGrid ∧ length combo = 8%nat ∧
       Earlier.r_strip result = buildStripFromPairs combo ∧
       Earlier.r_strip result ≡ₚ numbersOf combo ∧
       ∀ i e, Earlier.r_grid result !! i = Some e →
              ∃ p, p ∈ combo ∧ (num1 e, num2 e) = p_pair p) ∧
    (Sorted Z.le (Earlier.r_strip result) ∧ length (Earlier.r_strip result) = 16%nat ∧
     matchesKnownValues (Earlier.r_strip result) sampleStrip = true) ∧
    (∀ i e, Earlier.r_grid result !! i = Some e →
            sampleGrid !! i = Some (evalEquation e)) ∧
    ((length sampleGrid ≤ 16)%nat →
     ∀ i, (i < 16)%nat ↔ is_Some (Earlier.r_grid result !! i)).
Proof.
  assert (is_Some (Earlier.solve sampleGrid sampleStrip 20000)) as [result H].
  { vm_compute. eexists. reflexivity. }
  exists result. split; [exact H|].
  exact (earlier_solve_verified sampleGrid sampleStrip 20000 result H).
Defined.

Lemma later_solver_covers_earlier_witness :
  (length plainGrid ≤ 16)%nat ∧
  is_Some (Earlier.solve plainGrid plainStrip 20000) ∧
  tested (solveState plainGrid plainStrip 50000) ≤ 50000 ∧
  is_Some (solve plainGrid plainStrip 50000).
Proof.
  assert (length plainGrid ≤ 16)%nat as Hlen by (simpl; lia).
  assert (is_Some (Earlier.solve plainGrid plainStrip 20000)) as Hearlier.
  { vm_compute. eexists. reflexivity. }
  assert (tested (solveState plainGrid plainStrip 50000) ≤ 50000) as Hwithin
    by (vm_compute; intros Hgt; discriminate Hgt).
  split; [exact Hlen|]. split; [exact Hearlier|]. split; [exact Hwithin|].
  exact (later_solver_covers_earlier plainGrid plainStrip 20000 50000
           Hlen Hearlier Hwithin).
Defined.

(** * The validator *)

Lemma foldl_snoc_acc {A B} (f : A → B → A) (l : list B) (a : A) (x : B) :
  foldl f a (l ++ [x]) = f (foldl f a l) x.
Proof. by rewrite foldl_app. Qed.

(** ** Counting maps *)

Lemma getCount_cons (num k : Z) (c : nat) (counts : Validator.Counts) :
  Validator.getCount num ((k, c) :: counts)
  = if decide (k = num) then Some c else Validator.getCount num counts.
Proof.
  unfold Validator.getCount. simpl. case_decide.
  - by rewrite bool_decide_eq_true_2.
  - by rewrite bool_decide_eq_false_2.
Qed.

Lemma getCount_bump (num k : Z) (counts : Validator.Counts) :
  Validator.getCount num (Validator.bumpCount k counts)
  = if decide (k = num)
    then Some (S (default 0%nat (Validator.getCount num counts)))
    else Validator.getCount num counts.
Proof.
  induction counts as [|[k' c] counts IH].
  - cbn [Validator.bumpCount]. rewrite getCount_cons. by case_decide.
  - cbn [Validator.bumpCount]. destruct (decide (k' = k)) as [->|Hne].
    + rewrite !getCount_cons. by case_decide.
    + rewrite !getCount_cons, IH. repeat case_decide; congruence.
Qed.

Lemma keys_bump (k : Z) (counts : Validator.Counts) :
  ∀ num, num ∈ (Validator.bumpCount k counts).*1 ↔ num = k ∨ num ∈ counts.*1.
Proof.
  intros num. induction counts as [|[k' c] counts IH].
  - cbn. rewrite list_elem_of_singleton, elem_of_nil. tauto.
  - cbn [Validator.bumpCount]. case_decide as Hk.
    + rewrite !fmap_cons, !elem_of_cons. simpl. subst. tauto.
    + rewrite !fmap_cons, !elem_of_cons, IH. simpl. tauto.
Qed.

Lemma NoDup_keys_bump (k : Z) (counts : Validator.Counts) :
  NoDup counts.*1 → NoDup (Validator.bumpCount k counts).*1.
Proof.
  induction counts as [|[k' c] counts IH]; intros Hnd.
  - cbn. apply NoDup_singleton.
  - cbn [Validator.bumpCount]. rewrite fmap_cons in Hnd.
    apply NoDup_cons in Hnd as [Hk' Hnd]. case_decide as Hk.
    + rewrite fmap_cons. by apply NoDup_cons.
    + rewrite fmap_cons. apply NoDup_cons. split; [|by apply IH].
      rewrite keys_bump. simpl in *. intros [?|?]; [congruence|done].
Qed.

Lemma countsOf_nil : countsOf [] [].
Proof. intros num. rewrite decide_False; [done|]. by intros H%elem_of_nil. Qed.

Lemma countsOf_bump (k : Z) (counts : Validator.Counts) (l : list Z) :
  countsOf counts l → countsOf (Validator.bumpCount k counts) (l ++ [k]).
Proof.
  intros Hc num. rewrite getCount_bump, Hc, count_occ_app. simpl.
  destruct (decide (k = num)) as [->|Hne].
  - rewrite (decide_True (P := num ∈ l ++ [num])); last first.
    { rewrite elem_of_app, list_elem_of_singleton. tauto. }
    destruct (Z.eq_dec num num) as [_|]; [|done]. f_equal.
    destruct (decide (num ∈ l)) as [Hin|Hout]; simpl; [lia|].
    rewrite list_elem_of_In in Hout. apply (count_occ_not_In Z.eq_dec) in Hout. lia.
  - destruct (Z.eq_dec k num) as [|_]; [done|].
    rewrite Nat.add_0_r.
    destruct (decide (num ∈ l)) as [Hin|Hout].
    + rewrite decide_True; [done|]. rewrite elem_of_app. tauto.
    + rewrite decide_False; [done|].
      rewrite elem_of_app, list_elem_of_singleton. intros [?|?]; [done|congruence].
Qed.

Lemma countsOf_fold (l : list Z) (counts : Validator.Counts) (seen : list Z) :
  countsOf counts seen → NoDup counts.*1 →
  countsOf (foldl (λ c z, Validator.bumpCount z c) counts l) (seen ++ l) ∧
  NoDup (foldl (λ c z, Validator.bumpCount z c) counts l).*1.
Proof.
  revert counts seen. induction l as [|z l IH]; intros counts seen Hc Hnd.
  - by rewrite app_nil_r.
  - cbn [foldl]. rewrite cons_middle, app_assoc. apply IH.
    + by apply countsOf_bump.
    + by apply NoDup_keys_bump.
Qed.

Lemma getCount_elem (counts : Validator.Counts) (k : Z) (c : nat) :
  NoDup counts.*1 → (k, c) ∈ counts ↔ Validator.getCount k counts = Some c.
Proof.
  induction counts as [|[k' c'] counts IH]; intros Hnd.
  - rewrite elem_of_nil. done.
  - rewrite fmap_cons in Hnd. apply NoDup_cons in Hnd as [Hk' Hnd]. simpl in Hk'.
    rewrite getCount_cons, elem_of_cons. case_decide as Hk.
    + subst k'. split; [|intros [= ->]; by left].
      intros [[= <-]|Hin]; [done|]. exfalso. apply Hk'.
      apply list_elem_of_fmap. by exists (k, c).
    + rewrite <- (IH Hnd). split; [|tauto]. intros [[= ? ?]|?]; [congruence|done].
Qed.

Lemma countsOf_count (counts : Validator.Counts) (l : list Z) (num : Z) :
  countsOf counts l →
  default 0%nat (Validator.getCount num counts) = count_occ Z.eq_dec l num.
Proof.
  intros Hc. rewrite Hc. case_decide as Hin; [done|].
  rewrite list_elem_of_In in Hin. apply (count_occ_not_In Z.eq_dec) in Hin.
  by rewrite Hin.
Qed.

Lemma countErrors_nil (stripCounts usedCounts : Validator.Counts) :
  Validator.countErrors stripCounts usedCounts = [] ↔
  ∀ k c, (k, c) ∈ stripCounts → default 0%nat (Validator.getCount k usedCounts) = c.
Proof.
  unfold Validator.countErrors. induction stripCounts as [|[k c] counts IH].
  - split; [|done]. intros _ k c H. by apply elem_of_nil in H.
  - rewrite bind_cons. simpl. split.
    + intros Hnil. apply app_eq_nil in Hnil as [Hhead Htail].
      intros k' c'. rewrite elem_of_cons. intros [[= -> ->]|Hin].
      * by case_decide as Hne.
      * by apply IH.
    + intros Hall. rewrite (proj2 IH), app_nil_r.
      * rewrite decide_False; [done|]. intros Hne. apply Hne, Hall. by left.
      * intros k' c' Hin. apply Hall. by right.
Qed.

Lemma strayErrors_nil (stripCounts usedCounts : Validator.Counts) :
  Validator.strayErrors stripCounts usedCounts = [] ↔
  ∀ k u, (k, u) ∈ usedCounts → Validator.getCount k stripCounts ≠ None.
Proof.
  unfold Validator.strayErrors. induction usedCounts as [|[k u] counts IH].
  - split; [|done]. intros _ k c H. by apply elem_of_nil in H.
  - rewrite bind_cons. simpl. split.
    + intros Hnil. apply app_eq_nil in Hnil as [Hhead Htail].
      intros k' u'. rewrite elem_of_cons. intros [[= -> ->]|Hin].
      * by case_decide.
      * by eapply IH.
    + intros Hall. rewrite (proj2 IH), app_nil_r.
      * rewrite decide_False; [done|]. by apply (Hall k u); left.
      * intros k' u' Hin. apply (Hall k' u'). by right.
Qed.

(** The two loops of step 5 raise no error exactly when the strip of the
    user and the numbers used hold the same numbers, each as often. *)
Lemma count_checks (stripCounts usedCounts : Validator.Counts) (S U : list Z) :
  countsOf stripCounts S → NoDup stripCounts.*1 →
  countsOf usedCounts U → NoDup usedCounts.*1 →
  Validator.countErrors stripCounts usedCounts = [] ∧
  Validator.strayErrors stripCounts usedCounts = [] ↔ S ≡ₚ U.
Proof.
  intros HS HndS HU HndU.
  rewrite countErrors_nil, strayErrors_nil, (Permutation_count_occ Z.eq_dec).
  split.
  - intros [Hcount Hstray] num. destruct (decide (num ∈ S)) as [Hin|Hout].
    + rewrite <- (countsOf_count usedCounts U num HU). symmetry. apply Hcount.
      apply getCount_elem; [done|]. rewrite HS. by rewrite decide_True.
    + pose proof Hout as Hout'. rewrite list_elem_of_In in Hout'.
      apply (count_occ_not_In Z.eq_dec) in Hout'. rewrite Hout'. symmetry.
      apply (count_occ_not_In Z.eq_dec). rewrite <- list_elem_of_In. intros HinU.
      apply (Hstray num (count_occ Z.eq_dec U num)).
      * apply getCount_elem; [done|]. rewrite HU. by rewrite decide_True.
      * rewrite HS. by rewrite decide_False.
  - intros Hsame.
    assert (∀ num, num ∈ S ↔ num ∈ U) as Hmem.
    { intros num. rewrite !list_elem_of_In, !(count_occ_In Z.eq_dec), Hsame. done. }
    split.
    + intros k c Hin. apply getCount_elem in Hin; [|done]. rewrite HS in Hin.
      case_decide as HinS; [|done]. injection Hin as <-.
      rewrite (countsOf_count usedCounts U k HU). by rewrite Hsame.
    + intros k u Hin. apply getCount_elem in Hin; [|done]. rewrite HU in Hin.
      case_decide as HinU; [|done]. rewrite HS, decide_True; [done|]. by apply Hmem.
Qed.

(** ** Matching addition pairs with multiplication pairs *)

Lemma removeFirst_Some (pair : Z * Z) (copy rest : list (Z * Z)) :
  Validator.removeFirst pair copy = Some rest → copy ≡ₚ pair :: rest.
Proof.
  revert rest. induction copy as [|q copy IH]; intros rest; [done|].
  cbn [Validator.removeFirst]. case_decide as Hq.
  - intros [= <-]. by subst.
  - destruct (Validator.removeFirst pair copy) as [rest'|]; [|done].
    intros [= <-]. rewrite (IH rest' eq_refl). apply Permutation_swap.
Qed.

Lemma removeFirst_None (pair : Z * Z) (copy : list (Z * Z)) :
  Validator.removeFirst pair copy = None ↔ pair ∉ copy.
Proof.
  induction copy as [|q copy IH].
  - split; [|done]. intros _ H. by apply elem_of_nil in H.
  - cbn [Validator.removeFirst]. rewrite elem_of_cons. case_decide as Hq.
    + split; [done|]. intros Hout. destruct Hout. by left.
    + rewrite fmap_None, IH. split; [|tauto]. intros Hout [->|Hin]; done.
Qed.

Lemma matchPairs_fold (adds : list (Z * Z)) (st : Validator.Matching) :
  ∃ newly unmatched,
    Validator.mt_matched (foldl Validator.matchStep st adds)
    = Validator.mt_matched st ++ newly ∧
    Validator.mt_unmatchedAdd (foldl Validator.matchStep st adds)
    = Validator.mt_unmatchedAdd st ++ unmatched ∧
    Validator.mt_copy st
    ≡ₚ newly ++ Validator.mt_copy (foldl Validator.matchStep st adds) ∧
    adds ≡ₚ newly ++ unmatched ∧
    (adds ⊆+ Validator.mt_copy st → unmatched = []).
Proof.
  revert st. induction adds as [|pair adds IH]; intros st.
  - exists [], []. by rewrite !app_nil_r.
  - cbn [foldl]. unfold Validator.matchStep at 2 4 6.
    destruct (Validator.removeFirst pair (Validator.mt_copy st)) as [rest|] eqn:Hrm.
    + destruct (IH (Validator.mkMatching rest (Validator.mt_matched st ++ [pair])
                      (Validator.mt_unmatchedAdd st)))
        as (newly & unmatched & -> & -> & Hcopy & Hadds & Hall).
      cbn in *. exists (pair :: newly), unmatched.
      rewrite <- app_assoc. split; [done|]. split; [done|].
      apply removeFirst_Some in Hrm. split; [|split].
      * etrans; [exact Hrm|]. simpl. by apply Permutation_cons.
      * by rewrite Hadds.
      * intros Hsub. apply Hall. rewrite Hrm in Hsub.
        by apply (submseteq_app_inv_l _ _ [pair]).
    + destruct (IH (Validator.mkMatching (Validator.mt_copy st) (Validator.mt_matched st)
                      (Validator.mt_unmatchedAdd st ++ [pair])))
        as (newly & unmatched & -> & -> & Hcopy & Hadds & Hall).
      cbn in *. exists newly, (pair :: unmatched).
      rewrite <- app_assoc. split; [done|]. split; [done|]. split; [done|].
      split.
      * rewrite Hadds. by rewrite Permutation_middle.
      * intros Hsub. apply removeFirst_None in Hrm. destruct Hrm.
        eapply elem_of_submseteq; [|exact Hsub]. by left.
Qed.

(** Nothing is left unmatched on either side exactly when the two lists
    hold the same pairs, each as often; the matched pairs are then the
    addition pairs. *)
Lemma matchPairs_spec (addPairs multPairs : list (Z * Z)) :
  let m := Validator.matchPairs addPairs multPairs in
  (Validator.mt_unmatchedAdd m = [] ∧ Validator.mt_copy m = [] ↔ addPairs ≡ₚ multPairs) ∧
  (Validator.mt_unmatchedAdd m = [] → Validator.mt_matched m ≡ₚ addPairs).
Proof.
  intros m.
  destruct (matchPairs_fold addPairs (Validator.mkMatching multPairs [] []))
    as (newly & unmatched & Hmatched & Hun & Hcopy & Hadds & Hall).
  fold (Validator.matchPairs addPairs multPairs) in Hmatched, Hun, Hcopy. fold m in Hmatched, Hun, Hcopy.
  cbn in Hmatched, Hun, Hcopy, Hall. split.
  - split.
    + intros [Hu Hc]. rewrite Hun in Hu.
      rewrite Hc, app_nil_r in Hcopy. rewrite Hu, app_nil_r in Hadds.
      by rewrite Hadds, Hcopy.
    + intros Hperm. assert (unmatched = []) as Hu.
      { apply Hall. by rewrite Hperm. }
      split; [by rewrite Hun|]. rewrite Hu, app_nil_r in Hadds.
      rewrite <- Hadds, Hperm in Hcopy.
      apply Permutation_length in Hcopy. rewrite length_app in Hcopy.
      apply length_zero_iff_nil. lia.
  - intros Hu. rewrite Hun in Hu. rewrite Hu, app_nil_r in Hadds.
    by rewrite Hmatched, Hadds.
Qed.

(** ** The two scans *)

Lemma stripStep_spec (puzzle : Puzzle) (userInputs : Validator.UserInputs)
    (st : Validator.StripScan) (index : nat) (value : option Z) :
  let st' := Validator.stripStep puzzle userInputs st (index, value) in
  let typed := option_list (Validator.entryNumber userInputs (index, value)) in
  Validator.ss_userStrip st' = Validator.ss_userStrip st ++ typed ∧
  Validator.ss_counts st'
  = foldl (λ c z, Validator.bumpCount z c) (Validator.ss_counts st) typed ∧
  Validator.ss_success st'
  = (if match value with
        | Some _ => true
        | None =>
            Validator.strictEq (default Validator.undefined
                                  (Validator.stripInputs userInputs !! index))
              (pz_solution_strip puzzle !! index)
        end
     then Validator.ss_success st else false).
Proof.
  unfold Validator.stripStep, Validator.entryNumber. cbn [fst snd].
  destruct value as [v|]; [by cbn|].
  destruct (Validator.stripInputs userInputs !! index) as [[z| | |]|];
    cbn [default option_list foldl]; rewrite ?app_nil_r; done.
Qed.

Lemma scanStrip_fold (puzzle : Puzzle) (userInputs : Validator.UserInputs)
    (entries : list (nat * option Z)) (st : Validator.StripScan) :
  let st' := foldl (Validator.stripStep puzzle userInputs) st entries in
  Validator.ss_userStrip st'
  = Validator.ss_userStrip st ++ omap (Validator.entryNumber userInputs) entries ∧
  Validator.ss_counts st'
  = foldl (λ c z, Validator.bumpCount z c) (Validator.ss_counts st)
      (omap (Validator.entryNumber userInputs) entries) ∧
  (Validator.ss_success st' = true ↔
   Validator.ss_success st = true ∧
   ∀ index, (index, None) ∈ entries →
     Validator.strictEq (default Validator.undefined
                           (Validator.stripInputs userInputs !! index))
       (pz_solution_strip puzzle !! index) = true).
Proof.
  revert st. induction entries as [|[index value] entries IH]; intros st.
  - cbn. rewrite app_nil_r. split; [done|]. split; [done|].
    split; [|tauto]. intros H. split; [done|]. intros i Hi. by apply elem_of_nil in Hi.
  - cbn [foldl]. cbv zeta in IH.
    destruct (IH (Validator.stripStep puzzle userInputs st (index, value)))
      as (-> & -> & ->). clear IH.
    destruct (stripStep_spec puzzle userInputs st index value) as (-> & -> & ->).
    assert (omap (Validator.entryNumber userInputs) ((index, value) :: entries)
            = option_list (Validator.entryNumber userInputs (index, value))
              ++ omap (Validator.entryNumber userInputs) entries) as ->.
    { cbn [omap list_omap]. by destruct (Validator.entryNumber _ _). }
    rewrite <- app_assoc, foldl_app. split; [done|]. split; [done|].
    destruct value as [v|].
    + apply and_iff_compat_l. split.
      * intros H i. rewrite elem_of_cons. intros [[=]|Hin]. by apply H.
      * intros H i Hin. apply H. by right.
    + destruct (Validator.strictEq _ _) eqn:Heq.
      * apply and_iff_compat_l. split.
        -- intros H i. rewrite elem_of_cons. intros [[= ->]|Hin]; [done|by apply H].
        -- intros H i Hin. apply H. by right.
      * split; [by intros [? _]|]. intros [_ H].
        rewrite (H index) in Heq; [done|by left].
Qed.

Lemma scanStrip_spec (puzzle : Puzzle) (userInputs : Validator.UserInputs) :
  let scan := Validator.scanStrip puzzle userInputs in
  (Validator.ss_success scan = true ↔ Validator.hiddenCorrect puzzle userInputs) ∧
  countsOf (Validator.ss_counts scan) (Validator.userStrip puzzle userInputs) ∧
  NoDup (Validator.ss_counts scan).*1.
Proof.
  intros scan.
  destruct (scanStrip_fold puzzle userInputs (indexed (pz_strip puzzle))
              (Validator.mkStripScan true [] [] [])) as (_ & Hcounts & Hsuccess).
  fold (Validator.scanStrip puzzle userInputs) in Hcounts, Hsuccess.
  fold scan in Hcounts, Hsuccess. cbn in Hcounts, Hsuccess.
  split.
  - rewrite Hsuccess. unfold Validator.hiddenCorrect. split.
    + intros [_ H] index Hi. by apply H, elem_of_indexed.
    + intros H. split; [done|]. intros index Hi. by apply H, elem_of_indexed.
  - rewrite Hcounts. apply (countsOf_fold _ [] []); [apply countsOf_nil|constructor].
Qed.

Lemma gridStep_spec (puzzle : Puzzle) (st : Validator.GridScan) (i : nat)
    (gridInput : Validator.GridInput) :
  let st' := Validator.gridStep puzzle st (i, gridInput) in
  Validator.gs_addPairs st'
  = Validator.gs_addPairs st
    ++ option_list (Validator.correctPair puzzle Plus (i, gridInput)) ∧
  Validator.gs_multPairs st'
  = Validator.gs_multPairs st
    ++ option_list (Validator.correctPair puzzle Times (i, gridInput)) ∧
  (cellCorrect puzzle (i, gridInput) →
   Validator.gs_errors st' = Validator.gs_errors st ∧
   Validator.gs_feedback st'
   = Validator.gs_feedback st ++ [Validator.mkFeedback i true]).
Proof.
  unfold Validator.gridStep, Validator.correctPair, cellCorrect.
  destruct gridInput as [n1 o n2].
  cbn [fst snd Validator.in_num1 Validator.in_num2 Validator.in_op].
  destruct n1 as [a|], n2 as [b|], o as [o|];
    try (cbn; rewrite !app_nil_r; split; [done|]; split; [done|];
         by intros (? & ? & ? & [=] & _)).
  cbn [evalEquation op num1 num2].
  destruct o.
  - destruct (decide (pz_grid puzzle !! i = Some (a + b))) as [Hg|Hg].
    + rewrite (bool_decide_eq_true_2 _ Hg).
      rewrite (bool_decide_eq_true_2 (Plus = Plus ∧ _)) by done.
      rewrite (bool_decide_eq_false_2 (Plus = Times ∧ _)) by (by intros [? _]).
      cbn. by rewrite app_nil_r.
    + rewrite (bool_decide_eq_false_2 _ Hg).
      rewrite (bool_decide_eq_false_2 (Plus = Plus ∧ _)) by (by intros [_ ?]).
      rewrite (bool_decide_eq_false_2 (Plus = Times ∧ _)) by (by intros [? _]).
      cbn. rewrite !app_nil_r. split; [done|]. split; [done|].
      intros (? & ? & ? & [= <- <- <-] & Hok). cbn in Hok. done.
  - destruct (decide (pz_grid puzzle !! i = Some (a * b))) as [Hg|Hg].
    + rewrite (bool_decide_eq_true_2 _ Hg).
      rewrite (bool_decide_eq_true_2 (Times = Times ∧ _)) by done.
      rewrite (bool_decide_eq_false_2 (Times = Plus ∧ _)) by (by intros [? _]).
      cbn. by rewrite app_nil_r.
    + rewrite (bool_decide_eq_false_2 _ Hg).
      rewrite (bool_decide_eq_false_2 (Times = Times ∧ _)) by (by intros [_ ?]).
      rewrite (bool_decide_eq_false_2 (Times = Plus ∧ _)) by (by intros [? _]).
      cbn. rewrite !app_nil_r. split; [done|]. split; [done|].
      intros (? & ? & ? & [= <- <- <-] & Hok). cbn in Hok. done.
Qed.

Lemma scanGrid_fold (puzzle : Puzzle) (entries : list (nat * Validator.GridInput))
    (st : Validator.GridScan) :
  let st' := foldl (Validator.gridStep puzzle) st entries in
  Validator.gs_addPairs st'
  = Validator.gs_addPairs st ++ omap (Validator.correctPair puzzle Plus) entries ∧
  Validator.gs_multPairs st'
  = Validator.gs_multPairs st ++ omap (Validator.correctPair puzzle Times) entries ∧
  (Forall (cellCorrect puzzle) entries →
   Validator.gs_errors st' = Validator.gs_errors st ∧
   Validator.gs_feedback st'
   = Validator.gs_feedback st ++ ((λ e, Validator.mkFeedback e.1 true) <$> entries)).
Proof.
  revert st. induction entries as [|[i gridInput] entries IH]; intros st.
  - cbn. by rewrite !app_nil_r.
  - cbn [foldl]. cbv zeta in IH.
    destruct (IH (Validator.gridStep puzzle st (i, gridInput))) as (-> & -> & Herr).
    clear IH.
    destruct (gridStep_spec puzzle st i gridInput) as (-> & -> & Hstep).
    assert (∀ o, omap (Validator.correctPair puzzle o) ((i, gridInput) :: entries)
                 = option_list (Validator.correctPair puzzle o (i, gridInput))
                   ++ omap (Validator.correctPair puzzle o) entries) as Hcons.
    { intros o. cbn [omap list_omap]. by destruct (Validator.correctPair _ _ _). }
    rewrite !Hcons, <- !app_assoc. split; [done|]. split; [done|].
    rewrite Forall_cons. intros [Hcell Hall].
    destruct (Herr Hall) as [-> ->]. destruct (Hstep Hcell) as [-> ->].
    split; [done|]. by rewrite fmap_cons, <- app_assoc.
Qed.

Lemma scanGrid_spec (puzzle : Puzzle) (userInputs : Validator.UserInputs) :
  let scan := Validator.scanGrid puzzle userInputs in
  Validator.gs_addPairs scan = Validator.correctPairs puzzle userInputs Plus ∧
  Validator.gs_multPairs scan = Validator.correctPairs puzzle userInputs Times ∧
  (Forall (cellCorrect puzzle) (indexed (Validator.gridInputs userInputs)) →
   Validator.gs_errors scan = [] ∧
   forallb Validator.fb_correct (Validator.gs_feedback scan) = true).
Proof.
  intros scan.
  destruct (scanGrid_fold puzzle (indexed (Validator.gridInputs userInputs))
              (Validator.mkGridScan [] [] [] [])) as (Hadd & Hmult & Herr).
  fold (Validator.scanGrid puzzle userInputs) in Hadd, Hmult, Herr.
  fold scan in Hadd, Hmult, Herr. cbn in Hadd, Hmult, Herr.
  split; [done|]. split; [done|]. intros Hall. destruct (Herr Hall) as [-> ->].
  split; [done|]. apply forallb_forall. intros fb Hfb.
  apply list_elem_of_In, list_elem_of_fmap in Hfb as (e & -> & _). done.
Qed.

Lemma countUsed_numbers (matchedPairs : list (Z * Z)) :
  countsOf (Validator.countUsed matchedPairs) (Validator.pairNumbers matchedPairs) ∧
  NoDup (Validator.countUsed matchedPairs).*1.
Proof.
  unfold Validator.countUsed.
  assert (∀ acc, foldl (λ usedCounts pair,
                          Validator.bumpCount pair.2 (Validator.bumpCount pair.1 usedCounts))
                   acc matchedPairs
                 = foldl (λ c z, Validator.bumpCount z c) acc
                     (Validator.pairNumbers matchedPairs)) as ->.
  { induction matchedPairs as [|[a b] pairs IH]; intros acc; [done|].
    cbn [foldl]. rewrite IH. done. }
  apply (countsOf_fold _ [] []); [apply countsOf_nil|constructor].
Qed.

Lemma isNil_true {A} (l : list A) : Validator.isNil l = true ↔ l = [].
Proof. by destruct l. Qed.

(** [success] in terms of the parts of [validate]. *)
Lemma validate_success (puzzle : Puzzle) (userInputs : Validator.UserInputs) :
  let strip := Validator.scanStrip puzzle userInputs in
  let grid := Validator.scanGrid puzzle userInputs in
  let matching :=
    Validator.matchPairs (Validator.gs_addPairs grid) (Validator.gs_multPairs grid) in
  let usedCounts := Validator.countUsed (Validator.mt_matched matching) in
  Validator.success (Validator.validate puzzle userInputs) = true ↔
  Validator.ss_success strip = true ∧
  Validator.mt_unmatchedAdd matching = [] ∧ Validator.mt_copy matching = [] ∧
  length (Validator.mt_matched matching) = 8%nat ∧
  Validator.countErrors (Validator.ss_counts strip) usedCounts = [] ∧
  Validator.strayErrors (Validator.ss_counts strip) usedCounts = [].
Proof.
  intros strip grid matching usedCounts. unfold Validator.validate.
  fold strip. fold grid. fold matching. cbv zeta.
  destruct (decide (length (Validator.mt_matched matching) = 8%nat)) as [H8|H8].
  - fold usedCounts. cbn [Validator.success].
    rewrite !andb_true_iff, !isNil_true, bool_decide_eq_true. tauto.
  - cbn [Validator.success].
    rewrite !andb_true_iff, !isNil_true, bool_decide_eq_true. tauto.
Qed.

Lemma validate_accepts (puzzle : Puzzle) (userInputs : Validator.UserInputs) :
  Validator.success (Validator.validate puzzle userInputs) = true ↔
  Validator.hiddenCorrect puzzle userInputs ∧
  Validator.correctPairs puzzle userInputs Plus
    ≡ₚ Validator.correctPairs puzzle userInputs Times ∧
  length (Validator.correctPairs puzzle userInputs Plus) = 8%nat ∧
  Validator.userStrip puzzle userInputs
    ≡ₚ Validator.pairNumbers (Validator.correctPairs puzzle userInputs Plus).
Proof.
  rewrite validate_success.
  destruct (scanStrip_spec puzzle userInputs) as (Hsuccess & Hcounts & Hnd).
  destruct (scanGrid_spec puzzle userInputs) as (-> & -> & _).
  cbv zeta in Hsuccess, Hcounts, Hnd. rewrite Hsuccess.
  destruct (matchPairs_spec (Validator.correctPairs puzzle userInputs Plus)
              (Validator.correctPairs puzzle userInputs Times)) as [Hboth Hmatched].
  cbv zeta in Hboth, Hmatched.
  destruct (countUsed_numbers
              (Validator.mt_matched
                 (Validator.matchPairs (Validator.correctPairs puzzle userInputs Plus)
                    (Validator.correctPairs puzzle userInputs Times))))
    as [Hused HndU].
  pose proof (count_checks _ _ _ _ Hcounts Hnd Hused HndU) as Hcheck.
  split.
  - intros (Hh & Hu & Hc & H8 & He & Hs).
    pose proof (Hmatched Hu) as Hm.
    split; [done|]. split; [by apply Hboth|]. split; [by rewrite <- Hm|].
    unfold Validator.pairNumbers. rewrite <- Hm. by apply Hcheck.
  - intros (Hh & Hperm & H8 & Hstrip).
    destruct (proj2 Hboth Hperm) as [Hu Hc]. pose proof (Hmatched Hu) as Hm.
    split; [done|]. split; [done|]. split; [done|]. split; [by rewrite Hm|].
    apply Hcheck. unfold Validator.pairNumbers in *. by rewrite Hm.
Qed.

(** X29.  [validate] reports success exactly when every hidden slot of
    the strip holds the number of the solution strip, the addition cells and
    the multiplication cells with correct arithmetic hold the same pairs,
    each as often, 8 of them, and the numbers of these pairs are the numbers
    of the user's strip, each as often. *)
Theorem validate_success_iff (puzzle : Puzzle) (userInputs : Validator.UserInputs) :
  Validator.success (Validator.validate puzzle userInputs) = true ↔
  Validator.hiddenCorrect puzzle userInputs ∧
  Validator.correctPairs puzzle userInputs Plus
    ≡ₚ Validator.correctPairs puzzle userInputs Times ∧
  length (Validator.correctPairs puzzle userInputs Plus) = 8%nat ∧
  Validator.userStrip puzzle userInputs
    ≡ₚ Validator.pairNumbers (Validator.correctPairs puzzle userInputs Plus).
Proof. apply validate_accepts. Qed.

(** A successful validation reports the errors of the cells only. *)
Lemma validate_errors (puzzle : Puzzle) (userInputs : Validator.UserInputs) :
  Validator.success (Validator.validate puzzle userInputs) = true →
  Validator.errors (Validator.validate puzzle userInputs)
  = Validator.gs_errors (Validator.scanGrid puzzle userInputs).
Proof.
  intros Hs. pose proof Hs as (H1 & H2 & H3 & H4 & H5 & H6)%validate_success.
  cbv zeta in H1, H2, H3, H4, H5, H6. revert Hs. unfold Validator.validate. cbv zeta.
  rewrite H2, H3, H4. cbn [fmap list_fmap length]. rewrite !app_nil_r.
  rewrite (decide_False (P := (8 < 8)%nat)) by lia.
  rewrite (decide_True (P := 8%nat = 8%nat)) by done.
  cbn [Validator.success Validator.errors]. intros ->.
  rewrite H5, H6. cbn. by rewrite !app_nil_r.
Qed.

(** ** A solution of the solver as user input *)

Lemma omap_indexed_from {A B C} (f : nat * A → option C) (g : B → option C)
    (l : list A) (k : list B) (n : nat) :
  length l = length k →
  (∀ i x y, l !! i = Some x → k !! i = Some y → f ((n + i)%nat, x) = g y) →
  omap f (imap (λ i x, ((n + i)%nat, x)) l) = omap g k.
Proof.
  revert k n. induction l as [|x l IH]; intros [|y k] n Hlen Hfg; try done.
  rewrite imap_cons. cbn [omap list_omap].
  rewrite (Hfg 0%nat x y eq_refl eq_refl).
  rewrite (imap_ext _ (λ i x, ((S n + i)%nat, x))); last first.
  { intros i z _. simpl. f_equal. lia. }
  rewrite (IH k (S n)); [done|by injection Hlen|].
  intros i x' y' Hx Hy. replace (S n + i)%nat with (n + S i)%nat by lia.
  by apply Hfg.
Qed.

Lemma omap_indexed {A B C} (f : nat * A → option C) (g : B → option C)
    (l : list A) (k : list B) :
  length l = length k →
  (∀ i x y, l !! i = Some x → k !! i = Some y → f (i, x) = g y) →
  omap f (indexed l) = omap g k.
Proof. intros Hlen Hfg. by apply (omap_indexed_from f g l k 0). Qed.

Lemma omap_Some_id {A} (l : list A) : omap Some l = l.
Proof. induction l as [|x l IH]; [done|]. cbn. by rewrite IH. Qed.

Lemma written_cells (grid : GridAssignment) (combo : list CandidatePair)
    (us : list Use) :
  length combo = length us →
  (∀ k p u, combo !! k = Some p → us !! k = Some u →
     grid !! c_index (u_add u)
       = Some (Some (mkEquation (p_pair p).1 Plus (p_pair p).2)) ∧
     grid !! c_index (u_mult u)
       = Some (Some (mkEquation (p_pair p).1 Times (p_pair p).2))) →
  (λ i, default None (grid !! i)) <$> cellsOf us = combo ≫= cellsOfPair.
Proof.
  revert us. induction combo as [|p combo IH]; intros [|u us] Hlen Hw; try done.
  unfold cellsOf. rewrite !bind_cons, fmap_app. fold (cellsOf us).
  rewrite (IH us); [|by injection Hlen|]; last first.
  { intros k q v Hq Hv. by apply (Hw (S k)). }
  destruct (Hw 0%nat p u eq_refl eq_refl) as [Ha Hm].
  cbn [fmap list_fmap]. by rewrite Ha, Hm.
Qed.

Lemma grid_by_cells {A} (l : list (option A)) :
  (λ i, default None (l !! i)) <$> seq 0 (length l) = l.
Proof.
  apply list_eq. intros i. rewrite list_lookup_fmap.
  destruct (l !! i) as [x|] eqn:Hi.
  - rewrite (lookup_seq_lt _ _ i) by (by eapply lookup_lt_Some). simpl. by rewrite Hi.
  - rewrite lookup_seq_ge; [done|]. by apply lookup_ge_None.
Qed.

Lemma pairs_of_cells (o : Op) (combo : list CandidatePair) :
  Forall (λ p, (p_pair p).1 ≤ (p_pair p).2) combo →
  omap (pairOfCell o) (combo ≫= cellsOfPair) = p_pair <$> combo.
Proof.
  induction 1 as [|p combo Hp _ IH]; [done|].
  rewrite bind_cons, omap_app, IH, fmap_cons. f_equal.
  unfold cellsOfPair, pairOfCell, Validator.sortPair. destruct (p_pair p) as [a b].
  cbn in Hp. destruct o; cbn; repeat case_decide; try done; lia.
Qed.

Lemma pairNumbers_candidates (combo : list CandidatePair) :
  Validator.pairNumbers (p_pair <$> combo) = numbersOf combo.
Proof.
  unfold Validator.pairNumbers, numbersOf.
  induction combo as [|p combo IH]; [done|].
  by rewrite fmap_cons, !bind_cons, IH.
Qed.

Lemma validate_gridFeedback (puzzle : Puzzle) (userInputs : Validator.UserInputs) :
  Validator.gridFeedback (Validator.validate puzzle userInputs)
  = Validator.gs_feedback (Validator.scanGrid puzzle userInputs).
Proof. unfold Validator.validate. cbv zeta. by case_decide. Qed.

Lemma solution_as_inputs (puzzle : Puzzle) (maxAttempts : Z) (sol : Solution) :
  solve (pz_grid puzzle) (pz_strip puzzle) maxAttempts = Some sol →
  strip sol = pz_solution_strip puzzle →
  ∃ userInputs, Validator.inputsOf sol = Some userInputs ∧
    Validator.success (Validator.validate puzzle userInputs) = true ∧
    Validator.errors (Validator.validate puzzle userInputs) = [] ∧
    forallb Validator.fb_correct
      (Validator.gridFeedback (Validator.validate puzzle userInputs)) = true.
Proof.
  intros Hsolve Hsame.
  pose proof (solve_equationsHold _ _ _ _ Hsolve) as Heqs.
  pose proof (λ i, solve_grid_total _ _ _ _ i Hsolve) as Htotal.
  destruct (solve_anatomy _ _ _ _ Hsolve)
    as (combo & us & Hsub & Hlen & Hstrip & Hm & Hass).
  destruct (assignedBy_counts _ _ _ _ Hass) as (Hglen & _).
  rewrite length_replicate in Hglen.
  destruct (assignedBy_cells _ _ _ _ Hass) as (Hus & _ & _).
  pose proof (assignedBy_covers _ _ _ 16 Hass) as Hcover.
  rewrite Hlen in Hcover. specialize (Hcover eq_refl).
  (* the grid of the solution as grid inputs *)
  set (asInput := λ cell : option Equation,
         (λ e, Validator.mkGridInput (Some (num1 e)) (Some (op e)) (Some (num2 e)))
           <$> cell).
  assert (is_Some (mapM asInput (grid sol))) as [gis Hgis].
  { apply mapM_is_Some, Forall_forall. intros cell Hcell.
    apply list_elem_of_lookup in Hcell as [i Hi].
    destruct (Htotal i) as [e He]; [by apply lookup_lt_Some in Hi; lia|].
    rewrite He in Hi. injection Hi as <-. by eexists. }
  pose proof (proj1 (mapM_Some _ _ _) Hgis) as Hcells.
  exists (Validator.mkUserInputs (Validator.number <$> strip sol) gis).
  assert (Validator.inputsOf sol
          = Some (Validator.mkUserInputs (Validator.number <$> strip sol) gis)) as Hin.
  { unfold Validator.inputsOf. fold asInput. by rewrite Hgis. }
  split; [exact Hin|].
  set (userInputs := Validator.mkUserInputs (Validator.number <$> strip sol) gis).
  assert (∀ i gi, gis !! i = Some gi →
            ∃ e, grid sol !! i = Some (Some e) ∧
                 gi = Validator.mkGridInput (Some (num1 e)) (Some (op e)) (Some (num2 e)) ∧
                 pz_grid puzzle !! i = Some (evalEquation e)) as Hcell.
  { intros i gi Hgi.
    destruct (Forall2_lookup_r _ _ _ _ _ Hcells Hgi) as (cell & Hi & Hcellgi).
    destruct cell as [e|]; [|done]. injection Hcellgi as <-.
    exists e. split; [done|]. split; [done|]. by apply Heqs. }
  assert (∀ o, Validator.correctPairs puzzle userInputs o ≡ₚ p_pair <$> combo) as Hpairs.
  { intros o. unfold Validator.correctPairs. cbn [Validator.gridInputs userInputs].
    rewrite (omap_indexed _ (pairOfCell o) gis (grid sol)).
    - rewrite <- (pairs_of_cells o combo); last first.
      { eapply Forall_impl; [by apply Forall_sublist_candidates|].
        intros p [[_ ?] _]. done. }
      rewrite <- (written_cells (grid sol) combo us).
      + rewrite Hcover. rewrite <- Hglen at 1. by rewrite grid_by_cells.
      + by eapply Forall2_length.
      + intros k p u Hp Hu. by apply (assignedBy_written _ _ _ _ k p u Hass).
    - symmetry. by eapply Forall2_length.
    - intros i gi cell Hgi Hi. destruct (Hcell i gi Hgi) as (e & He & -> & Hval).
      rewrite He in Hi. injection Hi as <-. destruct e as [a o' b].
      unfold Validator.correctPair, pairOfCell. cbn. cbn in Hval.
      destruct (decide (o' = o)) as [->|Hne].
      + by rewrite bool_decide_eq_true_2.
      + rewrite bool_decide_eq_false_2; [done|]. by intros [? _]. }
  assert (Validator.success (Validator.validate puzzle userInputs) = true) as Hsuccess.
  { apply validate_accepts.
    apply matchesKnownValues_spec in Hm as [Hslen Hknown].
    split; [|split; [|split]].
    - intros index Hhidden. cbn [Validator.stripInputs userInputs].
      rewrite list_lookup_fmap, <- Hsame.
      destruct (strip sol !! index) as [z|] eqn:Hz.
      + cbn. by rewrite bool_decide_eq_true_2.
      + apply lookup_ge_None in Hz. apply lookup_lt_Some in Hhidden. lia.
    - by rewrite !Hpairs.
    - by rewrite Hpairs, length_fmap.
    - assert (Validator.pairNumbers (Validator.correctPairs puzzle userInputs Plus)
              ≡ₚ numbersOf combo) as ->.
      { rewrite <- pairNumbers_candidates. unfold Validator.pairNumbers.
        by rewrite Hpairs. }
      rewrite <- buildStripFromPairs_perm, <- Hstrip.
      unfold Validator.userStrip.
      rewrite (omap_indexed _ Some (pz_strip puzzle) (strip sol));
        [by rewrite omap_Some_id|done|].
      intros i v z Hv Hz. unfold Validator.entryNumber. cbn [fst snd].
      destruct v as [v|].
      + rewrite (Hknown i v Hv) in Hz. by injection Hz as <-.
      + cbn [Validator.stripInputs userInputs]. by rewrite list_lookup_fmap, Hz. }
  split; [exact Hsuccess|].
  rewrite (validate_errors _ _ Hsuccess), validate_gridFeedback.
  destruct (scanGrid_spec puzzle userInputs) as (_ & _ & Hclean).
  cbv zeta in Hclean. apply Hclean, Forall_forall. intros [i gi] Hentry.
  apply elem_of_indexed in Hentry. cbn [Validator.gridInputs userInputs] in Hentry.
  destruct (Hcell i gi Hentry) as ([a o b] & _ & -> & Hval).
  by exists a, b, o.
Qed.

(** X30.  A [Solution] of [solve] whose strip is the solution strip
    recorded in the puzzle passes [validate] when it is typed in as it is:
    the validator reports success, no error, and every cell as correct. *)
Theorem solution_passes_validation (puzzle : Puzzle) (maxAttempts : Z) (sol : Solution) :
  solve (pz_grid puzzle) (pz_strip puzzle) maxAttempts = Some sol →
  strip sol = pz_solution_strip puzzle →
  ∃ userInputs, Validator.inputsOf sol = Some userInputs ∧
    Validator.success (Validator.validate puzzle userInputs) = true ∧
    Validator.errors (Validator.validate puzzle userInputs) = [] ∧
    forallb Validator.fb_correct
      (Validator.gridFeedback (Validator.validate puzzle userInputs)) = true.
Proof. apply solution_as_inputs. Qed.

Lemma solution_passes_validation_witness :
  solve (pz_grid (generate 42 medium)) (pz_strip (generate 42 medium)) 50000
  = Some seed42Solution ∧
  strip seed42Solution = pz_solution_strip (generate 42 medium) ∧
  ∃ userInputs, Validator.inputsOf seed42Solution = Some userInputs ∧
    Validator.success (Validator.validate (generate 42 medium) userInputs) = true ∧
    Validator.errors (Validator.validate (generate 42 medium) userInputs) = [] ∧
    forallb Validator.fb_correct
      (Validator.gridFeedback (Validator.validate (generate 42 medium) userInputs))
    = true.
Proof.
  assert (solve (pz_grid (generate 42 medium)) (pz_strip (generate 42 medium)) 50000
          = Some seed42Solution) as Hsol by (vm_compute; reflexivity).
  assert (strip seed42Solution = pz_solution_strip (generate 42 medium)) as Hstrip
    by (vm_compute; reflexivity).
  split; [exact Hsol|]. split; [exact Hstrip|].
  exact (solution_passes_validation (generate 42 medium) 50000 seed42Solution
           Hsol Hstrip).
Defined.
